(** * Causal self-attention and the character-level language model

    A shallow embedding of the attention notebook of the repository
    (classes [selfAttention], [MLP], [Transformer], [PositionalEncoding],
    [LanguageModel], [Tokenizer] and the function [inference]) and of
    the fully visible Boltzmann machine of its energy notebook, together
    with the part of the tensor library the code relies on: strided
    tensors, [transpose], [view], [matmul], broadcasting addition,
    [triu], [softmax], [topk].

    Conventions.
    - Python exceptions are values of [exn]; fallible code lives in the
      [result] monad.
    - A float tensor holding finite values is a [tensor R]; the causal mask
      and the masked scores can also hold minus infinity and are
      [tensor xreal].  Rounding and overflow of the machine floats are
      not modelled: arithmetic is the arithmetic of the reals, except
      that the exponential inside a softmax underflows to exactly 0 as
      it does in single precision.
    - A tensor is a shape, a stride per axis and a storage; [transpose]
      and [view] only rewrite shape and strides and share the storage. *)

From Stdlib Require Import Reals Lra Lia ZArith List Bool.
From stdpp Require Import base option list sorting strings gmap.

Set Default Proof Using "Type".

(** ** Python values shared by the whole notebook *)

Module Py.

Inductive exn :=
| KeyError
| ZeroDivisionError
| IndexError
| ValueError
| RuntimeError.

Inductive result (A : Type) :=
| Ok (a : A)
| Raise (e : exn).
Arguments Ok {A} a.
Arguments Raise {A} e.

Definition bind {A B} (m : result A) (k : A -> result B) : result B :=
  match m with
  | Ok a => k a
  | Raise e => Raise e
  end.

(** [a // b] on Python integers: floor division, [ZeroDivisionError]
    on a zero divisor.  [Z.div] rounds towards minus infinity as
    Python does. *)
Definition floordiv (a b : Z) : result Z :=
  if (b =? 0)%Z then Raise ZeroDivisionError else Ok (a / b)%Z.

(** A configuration dictionary: [config['key']]. *)
Definition getitem (config : gmap string Z) (key : string) : result Z :=
  match config !! key with
  | Some v => Ok v
  | None => Raise KeyError
  end.

End Py.

Import Py.

#[global] Instance result_ret : MRet result := fun _ a => Ok a.
#[global] Instance result_bind : MBind result := fun _ _ k m => Py.bind m k.

(** ** Construction of the modules: the hyper-parameters

    [__init__] of each class reads the configuration and fixes the widths
    of its layers.  The randomly initialised weights are not part of the
    constructor's model; the forward passes further down take them from
    the layer records. *)

Module Init.

(** [nn.Linear(in_features, out_features)] allocates an
    [out_features] by [in_features] weight; a negative size is refused
    by the allocator. *)
Record Linear_dims := { in_features : Z; out_features : Z }.

Definition nn_Linear (i o : Z) : result Linear_dims :=
  if ((i <? 0) || (o <? 0))%Z then Raise RuntimeError
  else Ok {| in_features := i; out_features := o |}.

Record selfAttention := {
  sa_d_embed : Z;
  sa_num_head : Z;
  sa_d_head : Z;
  sa_W_q : Linear_dims;
  sa_W_k : Linear_dims;
  sa_W_v : Linear_dims;
  sa_W_o : Linear_dims
}.

Definition selfAttention_init (config : gmap string Z) : result selfAttention :=
  d_embed ← getitem config "d_embed";
  cfg_d_head ← getitem config "d_head";
  num_head ← floordiv d_embed cfg_d_head;
  d_head ← floordiv d_embed num_head;
  W_q ← nn_Linear d_embed (num_head * d_head);
  W_k ← nn_Linear d_embed (num_head * d_head);
  W_v ← nn_Linear d_embed (num_head * d_head);
  W_o ← nn_Linear d_embed d_embed;
  Ok {| sa_d_embed := d_embed; sa_num_head := num_head; sa_d_head := d_head;
        sa_W_q := W_q; sa_W_k := W_k; sa_W_v := W_v; sa_W_o := W_o |}.

Record MLP := {
  mlp_d_embed : Z;
  mlp_d_mlp : Z;
  mlp_up_projection : Linear_dims;
  mlp_down_projection : Linear_dims
}.

Definition MLP_init (config : gmap string Z) : result MLP :=
  d_embed ← getitem config "d_embed";
  let d_mlp := (4 * d_embed)%Z in
  up ← nn_Linear d_embed d_mlp;
  down ← nn_Linear d_mlp d_embed;
  Ok {| mlp_d_embed := d_embed; mlp_d_mlp := d_mlp;
        mlp_up_projection := up; mlp_down_projection := down |}.

(** Configurations used in the examples: a per-head width that does
    not divide the embedding width, and the notebook's configuration
    with another feed-forward width. *)
Definition indivisible_config : gmap string Z :=
  <["d_embed" := 10%Z]> (<["d_head" := 4%Z]> ∅).

(** The configuration of the notebook. *)
Definition notebook_config (vocab_size : Z) : gmap string Z :=
  <["d_embed" := 64%Z]> (<["d_head" := 16%Z]> (<["d_mlp" := 256%Z]>
  (<["num_head" := 4%Z]> (<["num_layers" := 1%Z]>
  (<["vocab_size" := vocab_size]> (<["max_len" := 2048%Z]> ∅)))))).

Definition other_hidden_width_config : gmap string Z :=
  <["d_mlp" := 100%Z]> (notebook_config 65).

End Init.

(** ** The tensor library, as far as the notebook uses it *)

Module Torch.

(** Extended reals: the values a score can take. *)
Inductive xreal :=
| Fin (r : R)
| NegInf.

Definition xadd (a b : xreal) : xreal :=
  match a, b with
  | Fin x, Fin y => Fin (x + y)
  | _, _ => NegInf
  end.

(** Division by a real scalar; the notebook divides by a square root,
    which is never negative, so minus infinity keeps its sign. *)
Definition xdiv (a : xreal) (d : R) : xreal :=
  match a with
  | Fin x => Fin (x / d)
  | NegInf => NegInf
  end.

(** The exponential in single precision.  Below [-150 ln 2] (about
    -103.97) the exact value is less than [2^-150], half the smallest
    positive number of the format, and the result is exactly 0, as it is
    at minus infinity.  Above, the result is taken to be the exact
    value: its rounding is not modelled. *)
Definition xexp (a : xreal) : R :=
  match a with
  | Fin x => if Rlt_dec x (- 150 * ln 2) then 0%R else exp x
  | NegInf => 0%R
  end.

(** The larger of two scores, and the largest of [f 0 .. f (n-1)]
    (minus infinity when there is none). *)
Definition xmax (a b : xreal) : xreal :=
  match a, b with
  | Fin x, Fin y => Fin (Rmax x y)
  | Fin x, NegInf => Fin x
  | NegInf, _ => b
  end.

Fixpoint xmaximum (n : nat) (f : nat -> xreal) : xreal :=
  match n with
  | O => NegInf
  | S m => xmax (xmaximum m f) (f m)
  end.

(** [a - m] for a score [a] and the largest score [m] of its row, which
    is finite as soon as one score of the row is; minus infinity stays
    minus infinity. *)
Definition xsub (a m : xreal) : xreal :=
  match a, m with
  | Fin x, Fin y => Fin (x - y)
  | _, _ => NegInf
  end.

(** The order of the scores. *)
Definition xle (a b : xreal) : Prop :=
  match a, b with
  | NegInf, _ => True
  | Fin x, Fin y => (x <= y)%R
  | Fin _, NegInf => False
  end.

(** [rsum n f] is [f 0 + ... + f (n-1)]. *)
Fixpoint rsum (n : nat) (f : nat -> R) : R :=
  match n with
  | O => 0%R
  | S m => (rsum m f + f m)%R
  end.

Section Tensor.
Context {A : Type}.

Record tensor := Tensor {
  shape : list nat;
  strides : list nat;
  storage : nat -> A
}.

Definition numel (sh : list nat) : nat := foldr Nat.mul 1 sh.

(** Number of storage cells spanned by the axes [sh] of a contiguous
    tensor: an axis of size 0 counts as 1. *)
Definition span (sh : list nat) : nat :=
  foldr (fun s acc => Nat.max s 1 * acc) 1 sh.

Fixpoint contiguous_strides (sh : list nat) : list nat :=
  match sh with
  | [] => []
  | _ :: rest => span rest :: contiguous_strides rest
  end.

Fixpoint offset (idx st : list nat) : nat :=
  match idx, st with
  | i :: idx', s :: st' => i * s + offset idx' st'
  | _, _ => 0
  end.

(** [t[idx]] for an index within the shape. *)
Definition get (t : tensor) (idx : list nat) : A :=
  storage t (offset idx (strides t)).

Fixpoint unravel (sh : list nat) (k : nat) : list nat :=
  match sh with
  | [] => []
  | _ :: rest => (k / span rest) :: unravel rest (k mod span rest)
  end.

(** A freshly allocated (contiguous) tensor whose entry at [idx] is
    [f idx]: the result of every operation that computes values. *)
Definition from_fun (sh : list nat) (f : list nat -> A) : tensor :=
  {| shape := sh;
     strides := contiguous_strides sh;
     storage := fun k => f (unravel sh k) |}.

(** [torch.full(shape, v)] *)
Definition full (sh : list nat) (v : A) : tensor :=
  from_fun sh (fun _ => v).

Definition wrap_dim (rank : nat) (d : Z) : result nat :=
  if ((0 <=? d) && (d <? Z.of_nat rank))%Z then Ok (Z.to_nat d)
  else if ((- Z.of_nat rank <=? d) && (d <? 0))%Z
       then Ok (Z.to_nat (d + Z.of_nat rank))
       else Raise IndexError.

Definition swap {B} (l : list B) (i j : nat) : list B :=
  match l !! i, l !! j with
  | Some a, Some b => <[i := b]> (<[j := a]> l)
  | _, _ => l
  end.

(** [t.transpose(d0, d1)]: a view with two axes exchanged. *)
Definition transpose (t : tensor) (d0 d1 : Z) : result tensor :=
  i ← wrap_dim (length (shape t)) d0;
  j ← wrap_dim (length (shape t)) d1;
  Ok {| shape := swap (shape t) i j;
        strides := swap (strides t) i j;
        storage := storage t |}.

(** [t.unsqueeze(d)]: a view with an axis of size 1 inserted at [d]. *)
Definition unsqueeze (t : tensor) (d : nat) : tensor :=
  {| shape := take d (shape t) ++ 1 :: drop d (shape t);
     strides := take d (strides t)
                ++ match shape t !! d, strides t !! d with
                   | Some s, Some st => s * st
                   | _, _ => 1
                   end :: drop d (strides t);
     storage := storage t |}.

(** *** [view]

    The strides of a view are computed from the old shape and strides
    by walking both shapes from the last axis: the old axes are cut
    into chunks that are laid out contiguously, and each chunk must be
    filled exactly by a run of new axes.  [None] is the error
    "view size is not compatible with input tensor's size and
    stride". *)

(** The inner loop: consume new axes (last first) while the chunk is
    not yet filled or the axis has size 1. *)
Fixpoint fill_chunk (rview : list nat) (view_numel tensor_numel base : nat)
    (acc : list nat) : list nat * nat * list nat :=
  match rview with
  | v :: rest =>
      if (view_numel <? tensor_numel) || (v =? 1)
      then fill_chunk rest (view_numel * v) tensor_numel base
                      (view_numel * base :: acc)
      else (rview, view_numel, acc)
  | [] => ([], view_numel, acc)
  end.

(** The outer loop over the old axes, last first; [rold] pairs each
    size with its stride. *)
Fixpoint chunks (rold : list (nat * nat)) (rview : list nat)
    (base tensor_numel view_numel : nat) (acc : list nat)
    : option (list nat) :=
  match rold with
  | [] => match rview with [] => Some acc | _ => None end
  | (sz, _) :: rest =>
      let tensor_numel := tensor_numel * sz in
      let chunk_ends :=
        match rest with
        | [] => true
        | (psz, pst) :: _ =>
            negb (psz =? 1) && negb (pst =? tensor_numel * base)
        end in
      if chunk_ends then
        let '(rview', view_numel', acc') :=
          fill_chunk rview view_numel tensor_numel base acc in
        if view_numel' =? tensor_numel then
          match rest with
          | [] => chunks rest rview' base tensor_numel view_numel' acc'
          | (_, pst) :: _ => chunks rest rview' pst 1 1 acc'
          end
        else None
      else chunks rest rview base tensor_numel view_numel acc
  end.

Definition computeStride (oldshape oldstride newshape : list nat)
    : option (list nat) :=
  match oldshape with
  | [] => Some (map (fun _ => 1) newshape)
  | _ =>
      if numel oldshape =? 0 then
        if bool_decide (oldshape = newshape) then Some oldstride
        else Some (contiguous_strides newshape)
      else
        chunks (rev (zip oldshape oldstride)) (rev newshape)
               (List.last oldstride 1) 1 1 []
  end.

(** [t.view(newshape)] with explicit sizes. *)
Definition view (t : tensor) (newshape : list nat) : result tensor :=
  if numel newshape =? numel (shape t) then
    match computeStride (shape t) (strides t) newshape with
    | Some st =>
        Ok {| shape := newshape; strides := st; storage := storage t |}
    | None => Raise RuntimeError
    end
  else Raise RuntimeError.

End Tensor.
Arguments tensor A : clear implicits.

(** *** Notions used to reason about [view] *)

(** The strides pushed by [fill_chunk] when it consumes every axis. *)
Fixpoint pushed (rview : list nat) (view_numel : nat) (acc : list nat)
    : list nat :=
  match rview with
  | [] => acc
  | v :: rest => pushed rest (view_numel * v) (view_numel * 1 :: acc)
  end.

(** [rold] (last axis first) is laid out contiguously above [tn] cells;
    the stride of an axis of size 1 does not matter. *)
Fixpoint packed (rold : list (nat * nat)) (tn : nat) : Prop :=
  match rold with
  | [] => True
  | (sz, st) :: rest => (sz = 1 \/ st = tn) /\ packed rest (tn * sz)
  end.

Definition sizes (rold : list (nat * nat)) : nat := numel (map fst rold).

(** Element-wise map into a new tensor. *)
Definition tmap {A B} (f : A -> B) (t : tensor A) : tensor B :=
  from_fun (shape t) (fun idx => f (get t idx)).

(** *** Broadcasting

    Shapes are aligned at their last axis; an axis of size 1 is
    stretched.  Both functions work on reversed shapes and indices. *)
Fixpoint broadcast_rev (a b : list nat) : result (list nat) :=
  match a, b with
  | [], _ => Ok b
  | _, [] => Ok a
  | x :: a', y :: b' =>
      rest ← broadcast_rev a' b';
      if x =? y then Ok (x :: rest)
      else if x =? 1 then Ok (y :: rest)
      else if y =? 1 then Ok (x :: rest)
      else Raise RuntimeError
  end.

Fixpoint operand_index_rev (ridx rsh : list nat) : list nat :=
  match ridx, rsh with
  | i :: ridx', s :: rsh' =>
      (if s =? 1 then 0 else i) :: operand_index_rev ridx' rsh'
  | _, _ => []
  end.

Definition operand_index (idx sh : list nat) : list nat :=
  rev (operand_index_rev (rev idx) (rev sh)).

(** [a (op) b] element-wise with broadcasting. *)
Definition broadcast2 {A B C} (op : A -> B -> C)
    (a : tensor A) (b : tensor B) : result (tensor C) :=
  rsh ← broadcast_rev (rev (shape a)) (rev (shape b));
  Ok (from_fun (rev rsh) (fun idx =>
        op (get a (operand_index idx (shape a)))
           (get b (operand_index idx (shape b))))).

(** [torch.triu(t, diagonal)]: entries with [j - i >= diagonal] are
    kept, the others are zero; [i], [j] are the last two axes. *)
Definition triu {A} (zero : A) (t : tensor A) (diagonal : Z) : tensor A :=
  from_fun (shape t) (fun idx =>
    match rev idx with
    | j :: i :: _ =>
        if (diagonal <=? Z.of_nat j - Z.of_nat i)%Z then get t idx else zero
    | _ => get t idx
    end).

(** [torch.matmul(a, b)] for two tensors of the same rank (at least 2)
    whose leading (batch) axes agree, which is how the attention class
    calls it. *)
Definition matmul (a b : tensor R) : result (tensor R) :=
  match rev (shape a), rev (shape b) with
  | m :: n :: ba, p :: m' :: bb =>
      if (m =? m') && bool_decide (ba = bb) then
        Ok (from_fun (rev (p :: n :: ba)) (fun idx =>
              match rev idx with
              | j :: i :: rb =>
                  rsum m (fun d => get a (rev (d :: i :: rb))
                                   * get b (rev (j :: d :: rb)))%R
              | _ => 0%R
              end))
      else Raise RuntimeError
  | _, _ => Raise RuntimeError
  end.

(** [F.softmax(t, dim=-1)]: along the last axis, with [m] the largest
    entry of the row, [exp(t_j - m) / sum_k exp(t_k - m)], which is how
    the library computes [exp(t_j) / sum_k exp(t_k)].  (A row holding
    nothing but minus infinity has no softmax; the causal mask leaves
    the diagonal finite, so that the class builds no such row.) *)
Definition softmax (t : tensor xreal) : tensor R :=
  from_fun (shape t) (fun idx =>
    match rev idx, rev (shape t) with
    | _ :: ridx, n :: _ =>
        let m := xmaximum n (fun k => get t (rev (k :: ridx))) in
        (xexp (xsub (get t idx) m)
         / rsum n (fun k => xexp (xsub (get t (rev (k :: ridx))) m)))%R
    | _, _ => 1%R
    end).

(** [nn.Linear]: [y = x W^T + b] on the last axis. *)
Record Linear := {
  in_features : nat;
  out_features : nat;
  weight : nat -> nat -> R;
  bias : nat -> R
}.

Definition Linear_forward (lin : Linear) (x : tensor R) : result (tensor R) :=
  match rev (shape x) with
  | d :: rsh =>
      if d =? in_features lin then
        Ok (from_fun (rev (out_features lin :: rsh)) (fun idx =>
              match rev idx with
              | o :: ridx =>
                  (rsum (in_features lin)
                        (fun i => get x (rev (i :: ridx)) * weight lin o i)
                   + bias lin o)%R
              | [] => 0%R
              end))
      else Raise RuntimeError
  | [] => Raise RuntimeError
  end.

(** [F.relu] *)
Definition relu (t : tensor R) : tensor R := tmap (Rmax 0) t.

(** [nn.RMSNorm(normalized_shape)] on the last axis:
    [x / sqrt(mean(x^2) + eps) * weight]. *)
Record RMSNorm := {
  normalized_shape : nat;
  eps : R;
  gain : nat -> R
}.

Definition RMSNorm_forward (self : RMSNorm) (x : tensor R)
    : result (tensor R) :=
  match rev (shape x) with
  | d :: _ =>
      if d =? normalized_shape self then
        Ok (from_fun (shape x) (fun idx =>
              match rev idx with
              | c :: ridx =>
                  (get x idx
                   * / sqrt (rsum d (fun k => Rsqr (get x (rev (k :: ridx))))
                             / INR d + eps self)
                   * gain self c)%R
              | [] => 0%R
              end))
      else Raise RuntimeError
  | [] => Raise RuntimeError
  end.

(** [torch.arange(0, n, dtype=torch.float)] and
    [torch.arange(0, n, 2, dtype=torch.float)] *)
Definition arange (n : nat) : tensor R :=
  from_fun [n] (fun idx => match idx with [k] => INR k | _ => 0%R end).

Definition arange_by_2 (n : nat) : tensor R :=
  from_fun [(n + 1) / 2]
           (fun idx => match idx with [k] => INR (2 * k) | _ => 0%R end).

(** [pe[:, start::2] = src] on a matrix, for [start] 0 or 1: the
    selected columns receive [src], which must have their shape or be
    stretched to it from size 1. *)
Definition setitem_cols (pe : tensor R) (start : nat) (src : tensor R)
    : result (tensor R) :=
  match shape pe, shape src with
  | [M; D], [M'; n] =>
      let cols := (D + 1 - start) / 2 in
      if ((M' =? M) || (M' =? 1)) && ((n =? cols) || (n =? 1)) then
        Ok (from_fun [M; D] (fun idx =>
              match idx with
              | [i; j] =>
                  if (start <=? j) && ((j - start) mod 2 =? 0)
                  then get src [if M' =? 1 then 0 else i;
                                if n =? 1 then 0 else (j - start) / 2]
                  else get pe idx
              | _ => 0%R
              end))
      else Raise RuntimeError
  | _, _ => Raise RuntimeError
  end.

(** Number of non-zero values among [f 0 .. f (n-1)]. *)
Definition count_nonzero (n : nat) (f : nat -> R) : nat :=
  length (List.filter (fun j => if Req_dec_T (f j) 0 then false else true)
                      (seq 0 n)).

End Torch.

(** ** [class selfAttention] *)

Module Attention.
Import Torch.

Record selfAttention := {
  d_embed : nat;
  num_head : nat;
  d_head : nat;
  W_q : Linear;
  W_k : Linear;
  W_v : Linear;
  W_o : Linear
}.

(** The layer widths [__init__] gives to the four projections. *)
Definition wf (self : selfAttention) : Prop :=
  in_features (W_q self) = d_embed self
  /\ in_features (W_k self) = d_embed self
  /\ in_features (W_v self) = d_embed self
  /\ out_features (W_q self) = num_head self * d_head self
  /\ out_features (W_k self) = num_head self * d_head self
  /\ out_features (W_v self) = num_head self * d_head self
  /\ in_features (W_o self) = d_embed self
  /\ out_features (W_o self) = d_embed self.

(** [x.view(batch_size, seq_len, num_head, d_head).transpose(1, 2)] *)
Definition split_heads (self : selfAttention) (batch_size seq_len : nat)
    (t : tensor R) : result (tensor R) :=
  t ← view t [batch_size; seq_len; num_head self; d_head self];
  transpose t 1 2.

(** [torch.triu(torch.full((seq_len, seq_len), float('-inf')), diagonal=1)] *)
Definition causal_mask (seq_len : nat) : tensor xreal :=
  triu (Fin 0) (full [seq_len; seq_len] NegInf) 1.

(** The three projections, each split into heads:
    [batch, head, position, d_head]. *)
Definition qkv (self : selfAttention) (x : tensor R) (batch_size seq_len : nat)
    : result (tensor R * tensor R * tensor R) :=
  Q ← Linear_forward (W_q self) x;
  K ← Linear_forward (W_k self) x;
  V ← Linear_forward (W_v self) x;
  Q ← split_heads self batch_size seq_len Q;
  K ← split_heads self batch_size seq_len K;
  V ← split_heads self batch_size seq_len V;
  Ok (Q, K, V).

(** [QKT = torch.matmul(Q, K.transpose(-2, -1))] *)
Definition QKT (Q K : tensor R) : result (tensor R) :=
  Kt ← transpose K (-2) (-1);
  matmul Q Kt.

(** [scores = QKT + mask.unsqueeze(0)] followed by
    [scores = scores / torch.sqrt(torch.tensor(d_embed))]. *)
Definition masked_scores (Q K : tensor R) (seq_len d_embed : nat)
    : result (tensor xreal) :=
  QKT ← QKT Q K;
  let mask := causal_mask seq_len in
  scores ← broadcast2 (fun q m => xadd (Fin q) m) QKT (unsqueeze mask 0);
  Ok (tmap (fun s => xdiv s (sqrt (INR d_embed))) scores).

(** The reassembly of the heads as the class writes it:
    [attn.transpose(0, 1)] then
    [attn.view(batch_size, seq_len, num_head * d_head)]. *)
Definition merge_heads (self : selfAttention) (batch_size seq_len : nat)
    (attn : tensor R) : result (tensor R) :=
  attn ← transpose attn 0 1;
  view attn [batch_size; seq_len; num_head self * d_head self].

(** [forward]; unpacking [x.shape] into three names fails on any other
    rank. *)
Definition forward (self : selfAttention) (x : tensor R) : result (tensor R) :=
  match shape x with
  | [batch_size; seq_len; d_embed] =>
      '(Q, K, V) ← qkv self x batch_size seq_len;
      scores ← masked_scores Q K seq_len d_embed;
      let attentions_weights := softmax scores in
      attn ← matmul attentions_weights V;
      attn ← merge_heads self batch_size seq_len attn;
      Linear_forward (W_o self) attn
  | _ => Raise ValueError
  end.

(** Intermediate values of [forward], for the statements about them:
    the same steps, stopped early. *)
Definition scores (self : selfAttention) (x : tensor R)
    : result (tensor xreal) :=
  match shape x with
  | [batch_size; seq_len; d_embed] =>
      '(Q, K, V) ← qkv self x batch_size seq_len;
      masked_scores Q K seq_len d_embed
  | _ => Raise ValueError
  end.

Definition attentions_weights (self : selfAttention) (x : tensor R)
    : result (tensor R) :=
  scores ← scores self x;
  Ok (softmax scores).

Definition head_outputs (self : selfAttention) (x : tensor R)
    : result (tensor R) :=
  match shape x with
  | [batch_size; seq_len; d_embed] =>
      '(Q, K, V) ← qkv self x batch_size seq_len;
      scores ← masked_scores Q K seq_len d_embed;
      matmul (softmax scores) V
  | _ => Raise ValueError
  end.

(** The module object built by [__init__] from the widths computed
    there and the initial parameters of the four layers. *)
Record parameters := {
  weight_of : string -> nat -> nat -> R;
  bias_of : string -> nat -> R
}.

Definition Linear_of (dims : Init.Linear_dims) (theta : parameters)
    (name : string) : Linear :=
  {| in_features := Z.to_nat (Init.in_features dims);
     out_features := Z.to_nat (Init.out_features dims);
     weight := weight_of theta name;
     bias := bias_of theta name |}.

Definition instantiate (m : Init.selfAttention) (theta : parameters)
    : selfAttention :=
  {| d_embed := Z.to_nat (Init.sa_d_embed m);
     num_head := Z.to_nat (Init.sa_num_head m);
     d_head := Z.to_nat (Init.sa_d_head m);
     W_q := Linear_of (Init.sa_W_q m) theta "W_q";
     W_k := Linear_of (Init.sa_W_k m) theta "W_k";
     W_v := Linear_of (Init.sa_W_v m) theta "W_v";
     W_o := Linear_of (Init.sa_W_o m) theta "W_o" |}.

Definition zero_parameters : parameters :=
  {| weight_of := fun _ _ _ => 0%R; bias_of := fun _ _ => 0%R |}.

(** The entry of a projection of [x] at head [h], position [l],
    component [d] (notation for the statements). *)
Definition projected (lin : Linear) (x : tensor R) (Dh : nat)
    (b h l d : nat) : R :=
  (rsum (in_features lin)
        (fun i => get x [b; l; i] * weight lin (h * Dh + d) i)
   + bias lin (h * Dh + d))%R.

(** The masked, scaled score of query position [i] against key position
    [j] in head [h], and the per-head output, as closed formulas. *)
Definition score_value (self : selfAttention) (x : tensor R)
    (b h i j : nat) : xreal :=
  xdiv (xadd (Fin (rsum (d_head self) (fun d =>
                (projected (W_q self) x (d_head self) b h i d
                 * projected (W_k self) x (d_head self) b h j d)%R)))
             (if i <? j then NegInf else Fin 0))
       (sqrt (INR (d_embed self))).

(** The weight query position [i] gives to key position [k]: the
    softmax of the row of scores of [i], taken relative to the largest
    of them. *)
Definition weight_value (self : selfAttention) (x : tensor R) (L : nat)
    (b h i k : nat) : R :=
  let m := xmaximum L (score_value self x b h i) in
  (xexp (xsub (score_value self x b h i k) m)
   / rsum L (fun k' => xexp (xsub (score_value self x b h i k') m)))%R.

Definition head_value (self : selfAttention) (x : tensor R) (L : nat)
    (b h i d : nat) : R :=
  rsum L (fun k =>
    (weight_value self x L b h i k
     * projected (W_v self) x (d_head self) b h k d)%R).

(** Layers with fixed weights, for the concrete runs below. *)
Definition constant_linear (i o : nat) (c : R) : Linear :=
  {| in_features := i; out_features := o;
     weight := fun _ _ => 0%R; bias := fun _ => c |}.

Definition identity_linear (n : nat) : Linear :=
  {| in_features := n; out_features := n;
     weight := fun o i => if o =? i then 1%R else 0%R;
     bias := fun _ => 0%R |}.

(** The attention of the notebook's configuration
    ([d_embed = 64], [d_head = 16], hence 4 heads), all weights zero. *)
Definition notebook_attention : selfAttention :=
  {| d_embed := 64; num_head := 4; d_head := 16;
     W_q := constant_linear 64 64 0; W_k := constant_linear 64 64 0;
     W_v := constant_linear 64 64 0; W_o := constant_linear 64 64 0 |}.

(** What [__init__] computes for [Init.indivisible_config]. *)
Definition indivisible_dims : Init.selfAttention :=
  {| Init.sa_d_embed := 10; Init.sa_num_head := 2; Init.sa_d_head := 5;
     Init.sa_W_q := {| Init.in_features := 10; Init.out_features := 10 |};
     Init.sa_W_k := {| Init.in_features := 10; Init.out_features := 10 |};
     Init.sa_W_v := {| Init.in_features := 10; Init.out_features := 10 |};
     Init.sa_W_o := {| Init.in_features := 10; Init.out_features := 10 |} |}.

(** Two heads of width 1; values and output mixing are the identity. *)
Definition two_head_attention : selfAttention :=
  {| d_embed := 2; num_head := 2; d_head := 1;
     W_q := constant_linear 2 2 0; W_k := constant_linear 2 2 0;
     W_v := identity_linear 2; W_o := identity_linear 2 |}.

(** One head of width 1 with identity layers, and a sequence of two
    positions whose second position scores 121 against itself and 0
    against the first. *)
Definition steep_attention : selfAttention :=
  {| d_embed := 1; num_head := 1; d_head := 1;
     W_q := identity_linear 1; W_k := identity_linear 1;
     W_v := identity_linear 1; W_o := identity_linear 1 |}.

Definition steep_sequence : tensor R :=
  from_fun [1; 2; 1]
           (fun idx => match idx with [_; 1; _] => 11%R | _ => 0%R end).

(** Two sequences of two positions (one batch): all zero, and zero
    except for the first component of the second position. *)
Definition zero_sequence : tensor R := full [1; 2; 2] 0%R.

Definition late_change_sequence : tensor R :=
  from_fun [1; 2; 2]
           (fun idx => match idx with [_; 1; 0] => 2%R | _ => 0%R end).

End Attention.

(** ** [class MLP] and [class Transformer] *)

Module Block.
Import Torch.

(** [module(x)] for the modules of the notebook. *)
Class Module (M : Type) := call : M -> tensor R -> result (tensor R).

#[global] Instance selfAttention_Module : Module Attention.selfAttention :=
  Attention.forward.
#[global] Instance Linear_Module : Module Linear := Linear_forward.
#[global] Instance RMSNorm_Module : Module RMSNorm := RMSNorm_forward.

Record MLP := {
  up_projection : Linear;
  down_projection : Linear
}.

Definition MLP_forward (self : MLP) (x : tensor R) : result (tensor R) :=
  x ← call (up_projection self) x;
  let x := relu x in
  x ← call (down_projection self) x;
  Ok x.

#[global] Instance MLP_Module : Module MLP := MLP_forward.

(** [a + b] on tensors *)
Definition add (a b : tensor R) : result (tensor R) := broadcast2 Rplus a b.

Record Transformer := {
  attention : Attention.selfAttention;
  rmsnorm1 : RMSNorm;
  mlp : MLP;
  rmsnorm2 : RMSNorm
}.

Definition Transformer_forward (self : Transformer) (x : tensor R)
    : result (tensor R) :=
  a ← call (attention self) x;
  x ← add x a;
  x ← call (rmsnorm1 self) x;
  m ← call (mlp self) x;
  x ← add x m;
  x ← call (rmsnorm2 self) x;
  Ok x.

#[global] Instance Transformer_Module : Module Transformer :=
  Transformer_forward.

(** The ordering in the words of the specification:
    [y = normalize(x + attention(x))] followed by
    [output = normalize(y + feedforward(y))]. *)
Definition post_norm (self : Transformer) (x out : tensor R) : Prop :=
  exists a s y f s',
    call (attention self) x = Ok a /\ add x a = Ok s
    /\ call (rmsnorm1 self) s = Ok y
    /\ call (mlp self) y = Ok f /\ add y f = Ok s'
    /\ call (rmsnorm2 self) s' = Ok out.

End Block.

(** ** [class PositionalEncoding] *)

Module Positional.
Import Torch.

(** The table [pe] of [__init__] for sizes that are already known to
    be non-negative. *)
Definition table (max_len d_embed : nat) : result (tensor R) :=
  let pe := full [max_len; d_embed] 0%R in
  let position := unsqueeze (arange max_len) 1 in
  if d_embed =? 0 then Raise ZeroDivisionError else
  let div_term :=
    tmap exp (tmap (fun v => v * - (ln 10000 / INR d_embed))%R
                   (arange_by_2 d_embed)) in
  angles ← broadcast2 Rmult position div_term;
  pe ← setitem_cols pe 0 (tmap sin angles);
  angles ← broadcast2 Rmult position div_term;
  pe ← setitem_cols pe 1 (tmap cos angles);
  Ok (unsqueeze pe 0).

(** [PositionalEncoding.__init__]: the registered buffer [pe]. *)
Definition PositionalEncoding_init (config : gmap string Z)
    : result (tensor R) :=
  max_len ← getitem config "max_len";
  d_embed ← getitem config "d_embed";
  if ((max_len <? 0) || (d_embed <? 0))%Z then Raise RuntimeError
  else table (Z.to_nat max_len) (Z.to_nat d_embed).

End Positional.

(** ** [class Tokenizer] and the sampling loop [inference] *)

Module Sampling.
Import Torch.

(** A Python string is a sequence of code points. *)
Abbreviation str := (list N).

Record Tokenizer := {
  vocab_size : nat;
  char2idx : gmap N nat;
  idx2char : gmap nat N
}.

(** [chars = sorted(list(set(dataset)))] and the two dictionaries
    built by enumerating it. *)
Definition Tokenizer_init (dataset : str) : Tokenizer :=
  let chars := merge_sort N.le (remove_dups dataset) in
  {| vocab_size := length chars;
     char2idx := list_to_map (zip chars (seq 0 (length chars)));
     idx2char := list_to_map (zip (seq 0 (length chars)) chars) |}.

Definition subscript `{Countable K} {A} (d : gmap K A) (k : K) : result A :=
  match d !! k with
  | Some v => Ok v
  | None => Raise KeyError
  end.

Definition encode (self : Tokenizer) (text : str) : result (list nat) :=
  mapM (subscript (char2idx self)) text.

Definition decode (self : Tokenizer) (indices : list nat) : result str :=
  mapM (subscript (idx2char self)) indices.

(** One-dimensional float tensors of the loop are lists. *)

(** Index of the first maximal value of [bestv :: l], where [bestv]
    sits at index [best] and [l] starts at index [i]. *)
Fixpoint argmax_from (l : list R) (i best : nat) (bestv : R) : nat :=
  match l with
  | [] => best
  | v :: l' =>
      if Rlt_dec bestv v then argmax_from l' (S i) i v
      else argmax_from l' (S i) best bestv
  end.

Definition argmax (l : list R) : result nat :=
  match l with
  | [] => Raise RuntimeError
  | v :: l' => Ok (argmax_from l' 1 0 v)
  end.

(** [torch.topk(v, k)]: the [k] largest values, largest first, with
    their indices; among equal values the lower index comes first. *)
Fixpoint select (k : nat) (cands : list (nat * R)) : list (nat * R) :=
  match k with
  | O => []
  | S k' =>
      match argmax (cands.*2) with
      | Ok j =>
          match cands !! j with
          | Some c => c :: select k' (delete j cands)
          | None => []
          end
      | Raise _ => []
      end
  end.

Definition topk (v : list R) (k : nat) : result (list R * list nat) :=
  if length v <? k then Raise RuntimeError
  else let sel := select k (zip (seq 0 (length v)) v) in
       Ok (sel.*2, sel.*1).

(** [torch.softmax(l, dim=-1)], computed relative to the largest
    entry as in [Torch.softmax]. *)
Definition softmax_list (l : list R) : list R :=
  let m := foldr Rmax (hd 0%R l) l in
  let e := map (fun x => xexp (Fin (x - m))) l in
  map (fun y => y / foldr Rplus 0 e)%R e.

(** [logits[0, -1, :]] *)
Definition last_logits (logits : tensor R) : result (list R) :=
  match shape logits with
  | [B; L; V] =>
      if (B =? 0) || (L =? 0) then Raise IndexError
      else Ok (map (fun v => get logits [0; L - 1; v]) (seq 0 V))
  | _ => Raise IndexError
  end.

Section Inference.
(** The random generator behind [torch.multinomial(probs, 1)]: it
    returns an index and the next generator state. *)
Context {rng : Type}.
Variable multinomial : list R -> rng -> nat * rng.

(** The global [LLM], called on a batch holding one row of tokens.
    Its forward pass reads its parameters and its input only. *)
Variable LLM : list nat -> result (tensor R).

(** What [inference] can change: the [training] flag of the module
    objects, the generator, and the printed output. *)
Record world := World {
  training : gmap nat bool;
  generator : rng;
  stdout : list (list nat)
}.

(** [model.eval()] *)
Definition eval (model : nat) (w : world) : world :=
  {| training := <[model := false]> (training w);
     generator := generator w;
     stdout := stdout w |}.

(** One turn of the loop body.  Sampling from an empty list of
    probabilities is an error of [torch.multinomial]. *)
Definition step (top_k : nat) (generated : list nat) (g : rng)
    : result (list nat) * rng :=
  match (outputs ← LLM generated;
         let logits := outputs in
         next_token_logits ← last_logits logits;
         topk next_token_logits top_k) with
  | Raise e => (Raise e, g)
  | Ok (topk_logits, topk_indices) =>
      let probs := softmax_list topk_logits in
      match probs with
      | [] => (Raise RuntimeError, g)
      | _ :: _ =>
          let '(i, g') := multinomial probs g in
          match topk_indices !! i with
          | Some next_token => (Ok (generated ++ [next_token]), g')
          | None => (Raise IndexError, g')
          end
      end
  end.

(** [for _ in range(max_new_tokens): ...] *)
Fixpoint loop (max_new_tokens top_k : nat) (generated : list nat) (g : rng)
    : result (list nat) * rng :=
  match max_new_tokens with
  | O => (Ok generated, g)
  | S n =>
      match step top_k generated g with
      | (Ok generated', g') => loop n top_k generated' g'
      | (Raise e, g') => (Raise e, g')
      end
  end.

Definition inference (model : nat) (tokenizer : Tokenizer) (prompt : str)
    (max_new_tokens top_k : nat) (w : world) : result str * world :=
  let w := eval model w in
  match encode tokenizer prompt with
  | Raise e => (Raise e, w)
  | Ok input_ids =>
      let generated := input_ids in
      match loop max_new_tokens top_k generated (generator w) with
      | (Raise e, g) =>
          (Raise e, {| training := training w; generator := g;
                       stdout := stdout w |})
      | (Ok generated, g) =>
          (decode tokenizer generated,
           {| training := training w; generator := g;
              stdout := stdout w ++ [generated] |})
      end
  end.


(** The sampler returns an index into the probabilities it was
    given. *)
Definition in_range : Prop :=
  forall p g, p <> [] -> fst (multinomial p g) < length p.


End Inference.

(** A generator and a model for the concrete runs: the generator
    counts its calls, the model always prefers token 1 of 2. *)
Definition toy_multinomial (p : list R) (g : nat) : nat * nat :=
  (g mod length p, S g).

Definition toy_LLM (toks : list nat) : result (tensor R) :=
  Ok (from_fun [1; length toks; 2]
        (fun idx => match idx with [_; _; v] => INR v | _ => 0%R end)).

End Sampling.

(** ** The vocabulary of the tokenizer *)

Module Vocabulary.
Import Sampling.

(** The sorted list of the distinct characters of the data set, the
    [chars] of [Tokenizer.__init__]. *)
Definition chars (dataset : str) : list N :=
  merge_sort N.le (remove_dups dataset).

(** [ids] are the positions in [chars] of the characters of [text]. *)
Definition tokens_of (dataset : str) (text : str) (ids : list nat) : Prop :=
  Forall2 (fun c i => chars dataset !! i = Some c) text ids.
End Vocabulary.

(** ** Single-batch attention: notation and instances for the statements *)

Module Heads.
Import Torch Attention.

(** The entry of the reassembled tensor of a single batch at row [r],
    column [k]: the per-head result found at that place of the storage,
    which is ordered by head, position, component. *)
Definition merged_value (self : selfAttention) (x : tensor R) (L : nat)
    (r k : nat) : R :=
  let q := r * (num_head self * d_head self) + k in
  head_value self x L 0 (q / (L * d_head self)) (q / d_head self mod L)
             (q mod d_head self).

(** One head that fills the whole width; every layer is the identity. *)
Definition single_head_attention : selfAttention :=
  {| d_embed := 2; num_head := 1; d_head := 2;
     W_q := identity_linear 2; W_k := identity_linear 2;
     W_v := identity_linear 2; W_o := identity_linear 2 |}.

(** A configuration whose per-head width leaves part of the embedding
    width unused: 10 // 3 = 3 heads of width 10 // 3 = 3. *)
Definition unfilled_config : gmap string Z :=
  <["d_embed" := 10%Z]> (<["d_head" := 3%Z]> ∅).

End Heads.

(** ** [PositionalEncoding.forward] and [class LanguageModel] *)

Module Language.
Import Torch Block.

(** [t[:, :n]]: a view on the first [n] entries of the second axis (all
    of them when there are fewer). *)
Definition slice_axis1 {A} (t : tensor A) (n : nat) : result (tensor A) :=
  match shape t with
  | s0 :: s1 :: rest =>
      Ok {| shape := s0 :: Nat.min n s1 :: rest;
            strides := strides t;
            storage := storage t |}
  | _ => Raise IndexError
  end.

Record PositionalEncoding := { pe : tensor R }.

(** [x.size(1)] needs a second axis. *)
Definition PositionalEncoding_forward (self : PositionalEncoding)
    (x : tensor R) : result (tensor R) :=
  match shape x with
  | _ :: seq_len :: _ =>
      p ← slice_axis1 (pe self) seq_len;
      add x p
  | _ => Raise IndexError
  end.

#[global] Instance PositionalEncoding_Module : Module PositionalEncoding :=
  PositionalEncoding_forward.

(** [nn.Embedding(num_embeddings, embedding_dim)]: a table with one row
    per token; looking up a token that has no row is an [IndexError]. *)
Record Embedding := {
  num_embeddings : nat;
  embedding_dim : nat;
  rows : nat -> nat -> R
}.

Definition Embedding_forward (self : Embedding) (x : tensor nat)
    : result (tensor R) :=
  if forallb (fun k => get x (unravel (shape x) k) <? num_embeddings self)
             (seq 0 (numel (shape x)))
  then Ok (from_fun (shape x ++ [embedding_dim self])
             (fun idx => rows self (get x (removelast idx)) (List.last idx 0)))
  else Raise IndexError.

Record LanguageModel := {
  num_layers : nat;
  vocab_size : nat;
  d_embed : nat;
  embedding : Embedding;
  posEnc : PositionalEncoding;
  transformers : list Transformer;
  head : Linear
}.

(** [for transformer in self.transformers: x = transformer(x)] *)
Fixpoint through (layers : list Transformer) (x : tensor R)
    : result (tensor R) :=
  match layers with
  | [] => Ok x
  | transformer :: rest =>
      x ← call transformer x;
      through rest x
  end.

Definition LanguageModel_forward (self : LanguageModel) (x : tensor nat)
    : result (tensor R) :=
  x ← Embedding_forward (embedding self) x;
  x ← call (posEnc self) x;
  x ← through (transformers self) x;
  x ← call (head self) x;
  Ok x.

(** The widths [MLP.__init__] and [Transformer.__init__] give to the
    layers of a block of width [D] whose heads fill the width. *)
Definition MLP_wf (self : MLP) (D : nat) : Prop :=
  in_features (up_projection self) = D
  /\ out_features (up_projection self) = 4 * D
  /\ in_features (down_projection self) = 4 * D
  /\ out_features (down_projection self) = D.

Definition Transformer_wf (self : Transformer) (D : nat) : Prop :=
  Attention.wf (attention self)
  /\ Attention.d_embed (attention self) = D
  /\ D = Attention.num_head (attention self)
         * Attention.d_head (attention self)
  /\ normalized_shape (rmsnorm1 self) = D
  /\ MLP_wf (mlp self) D
  /\ normalized_shape (rmsnorm2 self) = D.

(** What [LanguageModel.__init__] builds for a configuration with the
    given [max_len] whose heads fill the width. *)
Definition LanguageModel_wf (self : LanguageModel) (max_len : nat) : Prop :=
  num_embeddings (embedding self) = vocab_size self
  /\ embedding_dim (embedding self) = d_embed self
  /\ Positional.table max_len (d_embed self) = Ok (pe (posEnc self))
  /\ length (transformers self) = num_layers self
  /\ Forall (fun t => Transformer_wf t (d_embed self)) (transformers self)
  /\ in_features (head self) = d_embed self
  /\ out_features (head self) = vocab_size self.

(** The element type [torch.tensor] infers from a Python list: a list
    of integers gives an integer tensor, the empty list a tensor of the
    default float type.  [torch.cat] keeps the integer type when tokens
    are appended to an integer row. *)
Inductive dtype :=
| int64
| float32.

Definition inferred_dtype (ids : list nat) : dtype :=
  match ids with
  | [] => float32
  | _ :: _ => int64
  end.

(** The integer tensor [torch.tensor(ids).unsqueeze(0)] of a list that
    is not empty, and the same row after tokens were appended to it by
    [torch.cat]: a batch of one sequence. *)
Definition batch_of_one (ids : list nat) : tensor nat :=
  from_fun [1; length ids]
           (fun idx => match idx with [_; l] => nth l ids 0 | _ => 0 end).

(** The global [LLM] of the notebook as [inference] calls it, on
    [torch.tensor(ids).unsqueeze(0)].  The first layer of the model is
    the embedding, which takes integer indices only: the float tensor
    made from the empty list is refused with [RuntimeError] before
    anything is computed. *)
Definition LLM_of (model : LanguageModel) (generated : list nat)
    : result (tensor R) :=
  match inferred_dtype generated with
  | float32 => Raise RuntimeError
  | int64 => LanguageModel_forward model (batch_of_one generated)
  end.

(** The angle of position [p] for the pair of columns [2m], [2m+1] of
    the table of [PositionalEncoding.__init__]. *)
Definition angle (D p m : nat) : R :=
  (INR p * exp (INR (2 * m) * - (ln 10000 / INR D)))%R.

(** The module object built by [MLP.__init__] from the widths computed
    there and the initial parameters of its two layers. *)
Definition MLP_of (m : Init.MLP) (theta : Attention.parameters) : MLP :=
  {| up_projection :=
       Attention.Linear_of (Init.mlp_up_projection m) theta "up_projection";
     down_projection :=
       Attention.Linear_of (Init.mlp_down_projection m) theta
                           "down_projection" |}.

(** *** Construction of the language model

    As for the attention class, [__init__] is modelled on the
    hyper-parameters; the parameters of the layers are given to the
    module object afterwards. *)

(** [nn.RMSNorm(d)] and [nn.Embedding(v, d)] allocate their weights; a
    negative size is refused by the allocator. *)
Definition nn_RMSNorm (d : Z) : result Z :=
  if (d <? 0)%Z then Raise RuntimeError else Ok d.

Definition nn_Embedding (v d : Z) : result (Z * Z) :=
  if ((v <? 0) || (d <? 0))%Z then Raise RuntimeError else Ok (v, d).

Record Transformer_dims := {
  dims_attention : Init.selfAttention;
  dims_rmsnorm1 : Z;
  dims_mlp : Init.MLP;
  dims_rmsnorm2 : Z
}.

Definition Transformer_init (config : gmap string Z)
    : result Transformer_dims :=
  attention ← Init.selfAttention_init config;
  d ← getitem config "d_embed";
  rmsnorm1 ← nn_RMSNorm d;
  mlp ← Init.MLP_init config;
  d ← getitem config "d_embed";
  rmsnorm2 ← nn_RMSNorm d;
  Ok {| dims_attention := attention; dims_rmsnorm1 := rmsnorm1;
        dims_mlp := mlp; dims_rmsnorm2 := rmsnorm2 |}.

Record LanguageModel_dims := {
  dims_num_layers : Z;
  dims_vocab_size : Z;
  dims_d_embed : Z;
  dims_embedding : Z * Z;
  dims_posEnc : tensor R;
  dims_transformers : list Transformer_dims;
  dims_head : Init.Linear_dims
}.

Definition LanguageModel_init (config : gmap string Z)
    : result LanguageModel_dims :=
  num_layers ← getitem config "num_layers";
  vocab_size ← getitem config "vocab_size";
  d_embed ← getitem config "d_embed";
  embedding ← nn_Embedding vocab_size d_embed;
  posEnc ← Positional.PositionalEncoding_init config;
  transformers ← mapM (fun _ => Transformer_init config)
                      (seq 0 (Z.to_nat num_layers));
  head ← Init.nn_Linear d_embed vocab_size;
  Ok {| dims_num_layers := num_layers; dims_vocab_size := vocab_size;
        dims_d_embed := d_embed; dims_embedding := embedding;
        dims_posEnc := posEnc; dims_transformers := transformers;
        dims_head := head |}.

(** The parameters of a model: the rows of the embedding, the layers of
    each block, the gains and the [eps] of the normalisations, and the
    output layer. *)
Record weights := {
  embedding_rows : nat -> nat -> R;
  block_parameters : nat -> Attention.parameters;
  block_gains : nat -> string -> nat -> R;
  norm_eps : R;
  head_parameters : Attention.parameters
}.

Definition Transformer_of (d : Transformer_dims) (theta : Attention.parameters)
    (gains : string -> nat -> R) (e : R) : Transformer :=
  {| attention := Attention.instantiate (dims_attention d) theta;
     rmsnorm1 := {| normalized_shape := Z.to_nat (dims_rmsnorm1 d);
                    eps := e; gain := gains "rmsnorm1" |};
     mlp := MLP_of (dims_mlp d) theta;
     rmsnorm2 := {| normalized_shape := Z.to_nat (dims_rmsnorm2 d);
                    eps := e; gain := gains "rmsnorm2" |} |}.

Definition LanguageModel_of (d : LanguageModel_dims) (w : weights)
    : LanguageModel :=
  {| num_layers := Z.to_nat (dims_num_layers d);
     vocab_size := Z.to_nat (dims_vocab_size d);
     d_embed := Z.to_nat (dims_d_embed d);
     embedding := {| num_embeddings := Z.to_nat (fst (dims_embedding d));
                     embedding_dim := Z.to_nat (snd (dims_embedding d));
                     rows := embedding_rows w |};
     posEnc := {| pe := dims_posEnc d |};
     transformers :=
       imap (fun i t => Transformer_of t (block_parameters w i)
                                       (block_gains w i) (norm_eps w))
            (dims_transformers d);
     head := Attention.Linear_of (dims_head d) (head_parameters w) "head" |}.

(** A small model for the concrete runs: width 2, two heads, one
    block, two tokens, four positions, all weights constant. *)
Definition toy_norm : RMSNorm :=
  {| normalized_shape := 2; eps := 0; gain := fun _ => 1%R |}.

Definition toy_block : Transformer :=
  {| attention := Attention.two_head_attention;
     rmsnorm1 := toy_norm;
     mlp := {| up_projection := Attention.constant_linear 2 8 0;
               down_projection := Attention.constant_linear 8 2 0 |};
     rmsnorm2 := toy_norm |}.

Definition toy_pe : tensor R :=
  match Positional.table 4 2 with
  | Ok pe => pe
  | Raise _ => full [1; 4; 2] 0%R
  end.

Definition toy_model : LanguageModel :=
  {| num_layers := 1; vocab_size := 2; d_embed := 2;
     embedding := {| num_embeddings := 2; embedding_dim := 2;
                     rows := fun _ _ => 0%R |};
     posEnc := {| pe := toy_pe |};
     transformers := [toy_block];
     head := Attention.constant_linear 2 2 0 |}.

(** The configuration of the small model, and one with an odd
    width. *)
Definition toy_config : gmap string Z :=
  <["d_embed" := 2%Z]> (<["d_head" := 1%Z]> (<["max_len" := 4%Z]>
  (<["num_layers" := 1%Z]> (<["vocab_size" := 2%Z]> ∅)))).

Definition odd_width_config : gmap string Z :=
  <["max_len" := 4%Z]> (<["d_embed" := 3%Z]> ∅).

End Language.

(** ** The fully visible Boltzmann machine of the energy notebook

    The notebook calls the methods on a batch of configurations [v] of
    shape [[N; D]]; the matrix products and the column assignment are
    modelled for matrices only. *)

Module Energy.
Import Torch.

(** [torch.eye(n)] *)
Definition eye (n : nat) : tensor R :=
  from_fun [n; n]
    (fun idx => match idx with
                | [i; j] => if i =? j then 1%R else 0%R
                | _ => 0%R
                end).

(** [a * b] and [a - b] on tensors *)
Definition mul (a b : tensor R) : result (tensor R) := broadcast2 Rmult a b.
Definition sub (a b : tensor R) : result (tensor R) := broadcast2 Rminus a b.

(** [torch.sum(t, dim=1)] *)
Definition sum_dim1 (t : tensor R) : result (tensor R) :=
  match shape t with
  | N :: D :: rest =>
      Ok (from_fun (N :: rest)
            (fun idx => match idx with
                        | n :: r => rsum D (fun d => get t (n :: d :: r))
                        | [] => 0%R
                        end))
  | _ => Raise IndexError
  end.

(** [torch.matmul(a, v)] of a matrix and a vector *)
Definition matvec (a v : tensor R) : result (tensor R) :=
  match shape a, shape v with
  | [N; D], [D'] =>
      if D =? D' then
        Ok (from_fun [N]
              (fun idx => match idx with
                          | [n] => rsum D (fun d => get a [n; d] * get v [d])%R
                          | _ => 0%R
                          end))
      else Raise RuntimeError
  | _, _ => Raise RuntimeError
  end.

(** [t[:, l]]: the values of column [l] (the notebook only reads
    them). *)
Definition column (t : tensor R) (l : nat) : result (tensor R) :=
  match shape t with
  | N :: D :: rest =>
      if l <? D then
        Ok (from_fun (N :: rest)
              (fun idx => match idx with
                          | n :: r => get t (n :: l :: r)
                          | [] => 0%R
                          end))
      else Raise IndexError
  | _ => Raise IndexError
  end.

(** [v[:, i] = src] on a matrix: a vector of the column's length, or
    of length 1, is written into column [i]. *)
Definition setitem_column (v : tensor R) (i : nat) (src : tensor R)
    : result (tensor R) :=
  match shape v, shape src with
  | [N; D], [N'] =>
      if i <? D then
        if (N' =? N) || (N' =? 1) then
          Ok (from_fun [N; D]
                (fun idx => match idx with
                            | [n; d] =>
                                if d =? i
                                then get src [if N' =? 1 then 0 else n]
                                else get v idx
                            | _ => 0%R
                            end))
        else Raise RuntimeError
      else Raise IndexError
  | _, _ => Raise RuntimeError
  end.

(** [torch.sigmoid], the logistic function.  In single precision its
    value is rounded, and for activations of large magnitude the
    rounded value is exactly 0 or exactly 1; the statements about it use
    the closed bounds only, which hold of the rounded values too. *)
Definition sigmoid (x : R) : R := (1 / (1 + exp (- x)))%R.

(** [t.clone()] *)
Definition clone (t : tensor R) : tensor R := from_fun (shape t) (get t).

(** [t.mean(dim=0)] *)
Definition mean_dim0 (t : tensor R) : result (tensor R) :=
  match shape t with
  | N :: rest =>
      Ok (from_fun rest
            (fun idx => (rsum N (fun n => get t (n :: idx)) / INR N)%R))
  | [] => Raise IndexError
  end.

(** [torch.einsum('nd,ne->de', t, t) / t.size(0)], which asks for a
    matrix *)

Definition correlations (t : tensor R) : result (tensor R) :=
  match shape t with
  | [N; D] =>
      Ok (from_fun [D; D]
            (fun idx => match idx with
                        | [d; e] =>
                            (rsum N (fun n => get t [n; d] * get t [n; e])
                             / INR N)%R
                        | _ => 0%R
                        end))
  | _ => Raise RuntimeError
  end.

Record FullyVisibleBM := {
  W : tensor R;
  mask : tensor R;
  v_bias : tensor R
}.

(** [__init__]; [randn] is the draw of [torch.randn(n_visible,
    n_visible)]. *)
Definition FullyVisibleBM_init (n_visible : nat) (randn : tensor R)
    : FullyVisibleBM :=
  {| W := tmap (fun x => x * 0.01)%R randn;
     mask := tmap (fun x => 1 - x)%R (eye n_visible);
     v_bias := full [n_visible] 0%R |}.

Definition energy (self : FullyVisibleBM) (v : tensor R)
    : result (tensor R) :=
  W_masked ← mul (W self) (mask self);
  vW ← matmul v W_masked;
  q ← mul vW v;
  s ← sum_dim1 q;
  let quad := tmap (Rmult (-0.5)) s in
  l ← matvec v (v_bias self);
  let lin := tmap Ropp l in
  Block.add quad lin.

Definition cond_prob (self : FullyVisibleBM) (v : tensor R) (l : nat)
    : result (tensor R) :=
  W_masked ← mul (W self) (mask self);
  col ← column W_masked l;
  activation ← matvec v col;
  Ok (tmap sigmoid activation).

Section Sampler.
(** The generator behind [torch.bernoulli]: a sample for each
    probability, and the next generator state. *)
Context {rng : Type}.
Variable bernoulli : tensor R -> rng -> tensor R * rng.

(** [for i in range(v.size(1)): ...], one sweep over the columns *)
Fixpoint sweep (self : FullyVisibleBM) (cols : list nat) (v : tensor R)
    (g : rng) : result (tensor R) * rng :=
  match cols with
  | [] => (Ok v, g)
  | i :: rest =>
      match cond_prob self v i with
      | Raise e => (Raise e, g)
      | Ok p =>
          let '(s, g') := bernoulli p g in
          match setitem_column v i s with
          | Raise e => (Raise e, g')
          | Ok v' => sweep self rest v' g'
          end
      end
  end.

(** [for _ in range(k): ...] *)
Fixpoint sweeps (self : FullyVisibleBM) (k : nat) (v : tensor R) (g : rng)
    : result (tensor R) * rng :=
  match k with
  | O => (Ok v, g)
  | S k' =>
      match shape v with
      | _ :: D :: _ =>
          match sweep self (seq 0 D) v g with
          | (Ok v', g') => sweeps self k' v' g'
          | (Raise e, g') => (Raise e, g')
          end
      | _ => (Raise IndexError, g)
      end
  end.

Definition gibbs_sample (self : FullyVisibleBM) (v0 : tensor R) (k : nat)
    (g : rng) : result (tensor R) * rng :=
  sweeps self k (clone v0) g.

(** [opt.step()] of [torch.optim.SGD(bm.parameters(), lr)] on one
    parameter: [p = p - lr * p.grad]. *)
Definition sgd_step (lr : R) (p grad : tensor R) : result (tensor R) :=
  if bool_decide (shape grad = shape p)
  then Ok (from_fun (shape p)
             (fun idx => (get p idx - lr * get grad idx)%R))
  else Raise RuntimeError.

(** The body of the contrastive-divergence loop. *)
Definition epoch (data : tensor R) (bm : FullyVisibleBM) (g : rng)
    : result FullyVisibleBM * rng :=
  let v_data := data in
  match (data_mean ← mean_dim0 v_data;
         data_corr ← correlations v_data;
         Ok (data_mean, data_corr)) with
  | Raise e => (Raise e, g)
  | Ok (data_mean, data_corr) =>
      let '(init, g) := bernoulli (full (shape data) 0.5%R) g in
      let '(sampled, g) := gibbs_sample bm init 10 g in
      (v_model ← sampled;
       model_mean ← mean_dim0 v_model;
       model_corr ← correlations v_model;
       grad_W ← sub data_corr model_corr;
       grad_b ← sub data_mean model_mean;
       W_grad ← mul (tmap Ropp grad_W) (mask bm);
       let v_bias_grad := tmap Ropp grad_b in
       W' ← sgd_step 0.1 (W bm) W_grad;
       v_bias' ← sgd_step 0.1 (v_bias bm) v_bias_grad;
       Ok {| W := W'; mask := mask bm; v_bias := v_bias' |},
       g)
  end.

(** [for epoch in range(n): ...] *)
Fixpoint train (n : nat) (data : tensor R) (bm : FullyVisibleBM) (g : rng)
    : result FullyVisibleBM * rng :=
  match n with
  | O => (Ok bm, g)
  | S n' =>
      match epoch data bm g with
      | (Ok bm', g') => train n' data bm' g'
      | (Raise e, g') => (Raise e, g')
      end
  end.

(** What the statements ask of the generator: a sample has the shape
    of the probabilities and holds zeros and ones. *)
Definition binary_sampler : Prop :=
  forall p g,
    shape (fst (bernoulli p g)) = shape p
    /\ forall idx, Forall2 lt idx (shape p) ->
         get (fst (bernoulli p g)) idx = 0%R
         \/ get (fst (bernoulli p g)) idx = 1%R.

End Sampler.

(** The machine as [__init__] leaves it, for [n] visible units. *)
Definition wf (self : FullyVisibleBM) (n : nat) : Prop :=
  shape (W self) = [n; n]
  /\ mask self = tmap (fun x => 1 - x)%R (eye n)
  /\ shape (v_bias self) = [n].

(** The entry of the mask [1 - eye(n)], and the closed forms of the
    energy of configuration [k] of the batch [v] and of the activation
    of unit [l] in it. *)
Definition offdiag (i j : nat) : R := if i =? j then 0%R else 1%R.

Definition energy_value (self : FullyVisibleBM) (v : tensor R) (n k : nat)
    : R :=
  (-0.5 * rsum n (fun j =>
            rsum n (fun i => get v [k; i]
                             * (get (W self) [i; j] * offdiag i j))
            * get v [k; j])
   + - rsum n (fun d => get v [k; d] * get (v_bias self) [d]))%R.

Definition activation_value (self : FullyVisibleBM) (v : tensor R)
    (n k l : nat) : R :=
  rsum n (fun j => get v [k; j] * (get (W self) [j; l] * offdiag j l))%R.

(** A generator for the concrete runs: it rounds the probability. *)
Definition toy_bernoulli (p : tensor R) (g : nat) : tensor R * nat :=
  (tmap (fun x => if Rle_dec 0.5 x then 1%R else 0%R) p, S g).

(** The machine and the data of the notebook: three visible units,
    the four 3-bit patterns of even parity; every draw of the initial
    weights is taken to be 1. *)
Definition toy_bm : FullyVisibleBM := FullyVisibleBM_init 3 (full [3; 3] 1%R).

(** The same machine with other weights on the diagonal. *)
Definition toy_bm_diagonal : FullyVisibleBM :=
  FullyVisibleBM_init 3 (tmap (fun x => 1 + x)%R (eye 3)).

Definition data : tensor R :=
  from_fun [4; 3]
    (fun idx => match idx with
                | [n; d] =>
                    nth d (nth n [[0; 0; 0]; [0; 1; 1]; [1; 0; 1]; [1; 1; 0]]
                                 [])
                        0
                | _ => 0
                end)%R.

(** [data] with unit 0 switched off and on. *)
Definition data_off : tensor R :=
  from_fun [4; 3]
    (fun idx => match idx with [n; 0] => 0 | _ => get data idx end)%R.

Definition data_on : tensor R :=
  from_fun [4; 3]
    (fun idx => match idx with [n; 0] => 1 | _ => get data idx end)%R.

End Energy.

(** * Properties *)

(** ** Strided tensors *)

Module TorchFacts.
Import Torch.

Ltac in_bounds :=
  repeat (apply List.Forall2_cons; [first [lia | simpl; lia]|]);
  apply List.Forall2_nil.

Lemma bind_Ok {A B} (a : A) (k : A -> result B) : (Ok a ≫= k) = k a.
Proof. done. Qed.

(** Stretching an axis of size 1 leaves an index within bounds as it
    is. *)
Lemma stretch_index s i : i < s -> (if s =? 1 then 0 else i) = i.
Proof. intros Hi. destruct (Nat.eqb_spec s 1); lia. Qed.

Lemma bind_Ok_inv {A B} (m : result A) (k : A -> result B) b :
  (m ≫= k) = Ok b -> exists a, m = Ok a /\ k a = Ok b.
Proof. destruct m as [a|e]; [|done]. intros H. by exists a. Qed.

Lemma span_pos sh : 0 < span sh.
Proof. induction sh as [|s sh IH]; simpl; [lia | nia]. Qed.

Lemma offset_lt idx sh :
  Forall2 lt idx sh -> offset idx (contiguous_strides sh) < span sh.
Proof.
  induction 1 as [|i s idx sh Hi _ IH]; simpl; [lia|].
  pose proof (span_pos sh). nia.
Qed.

Lemma unravel_offset idx sh :
  Forall2 lt idx sh -> unravel sh (offset idx (contiguous_strides sh)) = idx.
Proof.
  induction 1 as [|i s idx sh Hi Hrest IH]; simpl; [done|].
  pose proof (span_pos sh) as Hp.
  pose proof (offset_lt _ _ Hrest) as Hlt.
  rewrite Nat.div_add_l by lia.
  rewrite (Nat.div_small _ _ Hlt), Nat.add_0_r.
  rewrite Nat.add_comm, Nat.Div0.mod_add, (Nat.mod_small _ _ Hlt).
  by rewrite IH.
Qed.

(** Reading a freshly computed tensor gives the computed value. *)
Lemma get_from_fun {A} sh (f : list nat -> A) idx :
  Forall2 lt idx sh -> get (from_fun sh f) idx = f idx.
Proof. intros H. unfold get, from_fun; simpl. by rewrite unravel_offset. Qed.

(** *** [view] on the layouts met in the attention class *)

(** A contiguous [[2; 3; 4]] tensor viewed as [[2; 3; 2; 2]]. *)
Example view_split_heads :
  computeStride [2; 3; 4] [12; 4; 1] [2; 3; 2; 2] = Some [12; 4; 2; 1].
Proof. reflexivity. Qed.

(** [[B; H; L; D/H] = [2; 4; 3; 16]] after [transpose(0, 1)], as in the
    class: no view of shape [[2; 3; 64]] exists. *)
Example view_batch_and_head_exchanged :
  computeStride [4; 2; 3; 16] [48; 192; 16; 1] [2; 3; 64] = None.
Proof. reflexivity. Qed.

(** After [transpose(1, 2)] the head axis is next to the per-head axis,
    but the two are not adjacent in the storage: flattening them needs a
    copy, a view is refused here too. *)
Example view_heads_next_to_positions :
  computeStride [2; 3; 4; 16] [192; 16; 48; 1] [2; 3; 64] = None.
Proof. reflexivity. Qed.

(** With a single batch the exchanged layout is still contiguous, and
    the view exists. *)
Example view_single_batch :
  computeStride [2; 1; 2; 1] [2; 4; 1; 1] [1; 2; 2] = Some [4; 2; 1].
Proof. reflexivity. Qed.

(** *** A view of a contiguous tensor always exists and is contiguous *)

Lemma numel_pos_Forall sh : numel sh <> 0 -> Forall (lt 0) sh.
Proof.
  induction sh as [|s sh IH]; simpl; intros H; constructor.
  - destruct s; simpl in *; lia.
  - apply IH. intros E. rewrite E in H. lia.
Qed.

Lemma span_numel sh : Forall (lt 0) sh -> span sh = numel sh.
Proof.
  induction 1 as [|s sh Hs _ IH]; simpl; [done|].
  rewrite IH. rewrite Nat.max_l by lia. done.
Qed.

Lemma numel_app a b : numel (a ++ b) = numel a * numel b.
Proof. induction a as [|x a IH]; simpl; [lia | rewrite IH; lia]. Qed.

Lemma numel_rev sh : numel (rev sh) = numel sh.
Proof.
  induction sh as [|s sh IH]; simpl; [done|].
  rewrite numel_app, IH. simpl. lia.
Qed.

Lemma numel_one_strides sh :
  numel sh = 1 -> contiguous_strides sh = map (fun _ => 1) sh.
Proof.
  induction sh as [|s sh IH]; simpl; [done|]. intros H.
  assert (s = 1 /\ numel sh = 1) as [-> Hn] by (by apply Nat.mul_eq_1).
  rewrite IH by done. f_equal.
  rewrite span_numel by (apply numel_pos_Forall; lia). done.
Qed.

Lemma fill_chunk_all rview vn N acc :
  vn * numel rview = N -> 0 < N ->
  fill_chunk rview vn N 1 acc = ([], N, pushed rview vn acc).
Proof.
  revert vn acc. induction rview as [|v rest IH]; simpl; intros vn acc E HN.
  - f_equal. f_equal. lia.
  - assert (((vn <? N) || (v =? 1)) = true) as ->.
    { destruct (Nat.ltb_spec vn N) as [|Hge]; [done|]. simpl.
      apply Nat.eqb_eq. change (numel (v :: rest)) with (v * numel rest) in E.
      remember (v * numel rest) as k eqn:Hk.
      assert (k = 1) as Hone.
      { destruct k as [|[|k]]; [lia | done | nia]. }
      rewrite Hone in Hk. symmetry in Hk.
      by apply Nat.mul_eq_1 in Hk as [-> _]. }
    apply IH; [lia | done].
Qed.

Lemma pushed_snoc a s vn acc :
  pushed (a ++ [s]) vn acc = vn * numel a * 1 :: pushed a vn acc.
Proof.
  revert vn acc. induction a as [|x a IH]; simpl; intros vn acc.
  - f_equal. lia.
  - rewrite IH. f_equal. lia.
Qed.

Lemma pushed_contiguous sh :
  Forall (lt 0) sh -> pushed (rev sh) 1 [] = contiguous_strides sh.
Proof.
  induction 1 as [|s sh Hs Hsh IH]; simpl; [done|].
  rewrite pushed_snoc, IH, numel_rev, span_numel by done. f_equal. lia.
Qed.

Lemma packed_snoc l s st tn :
  packed (l ++ [(s, st)]) tn
  <-> packed l tn /\ (s = 1 \/ st = tn * sizes l).
Proof.
  revert tn. induction l as [|[sz st'] l IH]; intros tn.
  - unfold sizes. simpl. rewrite Nat.mul_1_r. tauto.
  - cbn [app packed]. rewrite IH.
    assert (sizes ((sz, st') :: l) = sz * sizes l) as -> by done.
    rewrite Nat.mul_assoc. tauto.
Qed.

Lemma sizes_rev_zip sh st :
  length st = length sh -> sizes (rev (zip sh st)) = numel sh.
Proof.
  unfold sizes. rewrite map_rev, numel_rev. intros Hlen.
  change (map fst (zip sh st)) with ((zip sh st).*1).
  rewrite fst_zip by lia. done.
Qed.

Lemma packed_contiguous sh :
  Forall (lt 0) sh -> packed (rev (zip sh (contiguous_strides sh))) 1.
Proof.
  induction 1 as [|s sh Hs Hsh IH]; [done|].
  cbn [contiguous_strides zip zip_with rev].
  apply packed_snoc. split; [done|]. right.
  change (zip_with pair sh (contiguous_strides sh))
    with (zip sh (contiguous_strides sh)).
  rewrite sizes_rev_zip, span_numel; [lia | done |].
  clear. induction sh as [|s sh IH]; simpl; [done | by rewrite IH].
Qed.

Lemma chunks_packed rold tn rview acc :
  rold <> [] -> packed rold tn ->
  chunks rold rview 1 tn 1 acc =
    let '(rview', vn', acc') := fill_chunk rview 1 (tn * sizes rold) 1 acc in
    if vn' =? tn * sizes rold
    then match rview' with [] => Some acc' | _ => None end
    else None.
Proof.
  revert tn. induction rold as [|[sz st] rest IH]; [done|].
  intros tn _ [_ Hrest]. destruct rest as [|[psz pst] rest'].
  - unfold sizes. cbn [chunks map fst numel foldr].
    rewrite Nat.mul_1_r.
    destruct (fill_chunk rview 1 (tn * sz) 1 acc) as [[rv vn] acc'].
    destruct (vn =? tn * sz); done.
  - assert (chunks ((sz, st) :: (psz, pst) :: rest') rview 1 tn 1 acc
            = if negb (psz =? 1) && negb (pst =? tn * sz * 1)
              then let '(rv, vn, acc') :=
                     fill_chunk rview 1 (tn * sz) 1 acc in
                   if vn =? tn * sz
                   then chunks ((psz, pst) :: rest') rv pst 1 1 acc'
                   else None
              else chunks ((psz, pst) :: rest') rview 1 (tn * sz) 1 acc)
      as -> by reflexivity.
    assert (negb (psz =? 1) && negb (pst =? tn * sz * 1) = false) as ->.
    { destruct Hrest as [[->| ->] _]; [done|].
      by rewrite Nat.mul_1_r, Nat.eqb_refl, andb_false_r. }
    rewrite IH; [|done|done].
    unfold sizes. cbn [map fst numel foldr].
    replace (tn * sz * (psz * foldr Nat.mul 1 (map fst rest')))
      with (tn * (sz * (psz * foldr Nat.mul 1 (map fst rest')))) by lia.
    done.
Qed.

Lemma last_contiguous_strides sh :
  List.last (contiguous_strides sh) 1 = 1.
Proof.
  induction sh as [|s sh IH]; [done|].
  cbn [contiguous_strides]. destruct sh as [|s' sh']; [done|].
  exact IH.
Qed.

(** A non-empty tensor whose axes are packed can be viewed in any shape
    of the same size, and the view is contiguous. *)
Lemma computeStride_packed sh st newsh :
  sh <> [] -> length st = length sh -> numel sh <> 0 ->
  numel newsh = numel sh -> List.last st 1 = 1 ->
  packed (rev (zip sh st)) 1 ->
  computeStride sh st newsh = Some (contiguous_strides newsh).
Proof.
  intros Hne Hlen Hpos E Hlast Hp. unfold computeStride.
  destruct sh as [|s sh'] eqn:Hsh; [done|]. rewrite <- Hsh in *.
  destruct (Nat.eqb_spec (numel sh) 0) as [|_]; [done|].
  assert (rev (zip sh st) <> []) as Hne'.
  { destruct st as [|s0 st']; [by rewrite Hsh in Hlen|].
    rewrite Hsh. cbn [zip zip_with rev].
    intros Hnil. by apply app_eq_nil in Hnil as [_ ?]. }
  rewrite Hlast, chunks_packed by done.
  rewrite sizes_rev_zip, Nat.mul_1_l by done.
  rewrite fill_chunk_all; [|rewrite numel_rev; lia|lia].
  rewrite Nat.eqb_refl. f_equal. apply pushed_contiguous.
  apply numel_pos_Forall. lia.
Qed.

Lemma length_contiguous_strides sh :
  length (contiguous_strides sh) = length sh.
Proof. induction sh as [|s sh IH]; simpl; [done | by rewrite IH]. Qed.

Lemma computeStride_contiguous sh newsh :
  numel newsh = numel sh ->
  computeStride sh (contiguous_strides sh) newsh
  = Some (contiguous_strides newsh).
Proof.
  intros E. destruct sh as [|s sh'] eqn:Hsh.
  { unfold computeStride. by rewrite numel_one_strides. }
  rewrite <- Hsh in *.
  destruct (decide (numel sh = 0)) as [H0|Hpos].
  - unfold computeStride. rewrite Hsh, <- Hsh.
    destruct (Nat.eqb_spec (numel sh) 0) as [_|]; [|done].
    case_bool_decide; by subst.
  - apply computeStride_packed; try done.
    + by rewrite Hsh.
    + apply length_contiguous_strides.
    + apply last_contiguous_strides.
    + apply packed_contiguous. by apply numel_pos_Forall.
Qed.

(** *** The layout left by [transpose(0, 1)] on several batches *)

Lemma chunks_cons sz st psz pst rest rview base tn vn acc :
  chunks ((sz, st) :: (psz, pst) :: rest) rview base tn vn acc
  = if negb (psz =? 1) && negb (pst =? tn * sz * base)
    then let '(rv, vn', acc') := fill_chunk rview vn (tn * sz) base acc in
         if vn' =? tn * sz
         then chunks ((psz, pst) :: rest) rv pst 1 1 acc'
         else None
    else chunks ((psz, pst) :: rest) rview base (tn * sz) vn acc.
Proof. reflexivity. Qed.

Ltac decide_test :=
  match goal with
  | |- context [?a <? ?b] =>
      first [ replace (a <? b) with true
                by (symmetry; apply Nat.ltb_lt; nia)
            | replace (a <? b) with false
                by (symmetry; apply Nat.ltb_ge; nia) ]
  | |- context [?a =? ?b] =>
      first [ replace (a =? b) with true
                by (symmetry; apply Nat.eqb_eq; nia)
            | replace (a =? b) with false
                by (symmetry; apply Nat.eqb_neq; nia) ]
  end.

Ltac decide_tests :=
  repeat (decide_test;
          rewrite ?andb_false_r, ?orb_true_r, ?orb_false_r, ?andb_true_r;
          cbn [negb andb orb]).

Lemma computeStride_exchanged B H L Dh :
  2 <= B -> 2 <= H -> 1 <= L -> 1 <= Dh -> B <> H ->
  computeStride [H; B; L; Dh] [L * Dh; H * (L * Dh); Dh; 1] [B; L; H * Dh]
  = None.
Proof.
  intros HB HH HL HDh Hne. unfold computeStride.
  assert (numel [H; B; L; Dh] <> 0) as Hpos by (cbn [numel foldr]; nia).
  assert (L * Dh <> B * (H * (L * Dh))) as Hbig.
  { assert (1 <= L * Dh) by nia. assert (4 <= B * H) by nia. nia. }
  destruct (Nat.eqb_spec (numel [H; B; L; Dh]) 0) as [|_]; [done|].
  cbn [zip zip_with rev app List.last].
  rewrite chunks_cons. decide_tests.
  rewrite chunks_cons. decide_tests.
  destruct (decide (L * Dh = 1)) as [Hone|Hmany].
  - assert (L = 1 /\ Dh = 1) as [-> ->] by nia.
    cbn [fill_chunk]. decide_tests.
    rewrite chunks_cons. decide_tests.
    cbn [fill_chunk]. decide_tests.
    destruct (lt_dec H B); decide_tests; done.
  - cbn [fill_chunk]. decide_tests.
    destruct (lt_dec H L) as [Hlt|Hge]; decide_tests; [done|].
    destruct (decide (L = 1)) as [->|HL1]; decide_tests; [done|].
    destruct (decide (H = L)) as [->|HHL]; decide_tests; [|done].
    rewrite chunks_cons. decide_tests.
    cbn [fill_chunk]. decide_tests.
    destruct (lt_dec L B); decide_tests; done.
Qed.

Lemma view_contiguous {A} (t : tensor A) newsh :
  strides t = contiguous_strides (shape t) ->
  numel newsh = numel (shape t) ->
  view t newsh = Ok {| shape := newsh;
                       strides := contiguous_strides newsh;
                       storage := storage t |}.
Proof.
  intros Hc E. unfold view. rewrite E, Nat.eqb_refl, Hc.
  by rewrite computeStride_contiguous.
Qed.

End TorchFacts.

(** ** The constructors *)

Module InitFacts.
Import Init.
Local Open Scope Z_scope.

Example floordiv_rounds_down :
  floordiv 10 4 = Ok 2 /\ floordiv 10 (-4) = Ok (-3)
  /\ floordiv 10 0 = Raise ZeroDivisionError.
Proof. repeat split. Qed.

Example notebook_heads :
  exists m, selfAttention_init (notebook_config 65) = Ok m
    /\ sa_num_head m = 4 /\ sa_d_head m = 16.
Proof. eexists. split; [vm_compute; reflexivity|]. done. Qed.

Lemma getitem_Some config key v :
  config !! key = Some v -> getitem config key = Ok v.
Proof. unfold getitem. by intros ->. Qed.

Lemma nn_Linear_ok i o :
  0 <= i -> 0 <= o ->
  nn_Linear i o = Ok {| in_features := i; out_features := o |}.
Proof.
  intros Hi Ho. unfold nn_Linear.
  destruct (Z.ltb_spec i 0), (Z.ltb_spec o 0); (lia || done).
Qed.

(** Claim C4, as amended.  [selfAttention.__init__] has no divisibility
    check.  With a configured per-head width [dh] between 1 and the
    embedding width [D], construction succeeds whether or not [dh]
    divides [D]: the module gets [D // dh] heads of width
    [D // (D // dh)], which is [dh] again when [dh] divides [D].
    Construction raises only when [D // dh] is zero (a per-head width
    larger than the embedding width), and then with
    [ZeroDivisionError]. *)
Theorem selfAttention_init_without_divisibility_check config D dh :
  config !! "d_embed" = Some D -> config !! "d_head" = Some dh ->
  (0 < dh <= D ->
     exists m, selfAttention_init config = Ok m
       /\ sa_d_embed m = D
       /\ sa_num_head m = D / dh
       /\ sa_d_head m = D / (D / dh)
       /\ (D mod dh = 0 -> sa_d_head m = dh))
  /\ (0 <= D < dh -> selfAttention_init config = Raise ZeroDivisionError).
Proof.
  intros HD Hdh. unfold selfAttention_init.
  rewrite (getitem_Some _ _ _ HD), (getitem_Some _ _ _ Hdh).
  change (Ok D ≫= ?k) with (k D). cbn beta.
  change (Ok dh ≫= ?k) with (k dh). cbn beta.
  unfold floordiv. split.
  - intros [Hpos Hle].
    destruct (Z.eqb_spec dh 0) as [|_]; [lia|].
    change (Ok (D / dh) ≫= ?k) with (k (D / dh)). cbn beta.
    assert (1 <= D / dh) as Hq.
    { apply Z.div_le_lower_bound; lia. }
    destruct (Z.eqb_spec (D / dh) 0) as [|_]; [lia|].
    change (Ok (D / (D / dh)) ≫= ?k) with (k (D / (D / dh))). cbn beta.
    assert (0 <= D / (D / dh)) by (apply Z.div_pos; lia).
    rewrite !nn_Linear_ok by nia.
    eexists. split; [reflexivity|]. cbn. repeat split.
    intros Hmod.
    assert (D = dh * (D / dh)) as HDeq by (apply Z.div_exact; lia).
    remember (D / dh) as q eqn:Hqdef. clear Hqdef.
    subst D. apply Z.div_mul. lia.
  - intros [H0 Hlt].
    destruct (Z.eqb_spec dh 0) as [|_]; [lia|].
    change (Ok (D / dh) ≫= ?k) with (k (D / dh)). cbn beta.
    rewrite Z.div_small by lia. done.
Qed.

Lemma selfAttention_init_without_divisibility_check_witness :
  Init.indivisible_config !! "d_embed" = Some 10
  /\ Init.indivisible_config !! "d_head" = Some 4
  /\ 0 < 4 <= 10
  /\ exists m, selfAttention_init Init.indivisible_config = Ok m
       /\ sa_d_embed m = 10
       /\ sa_num_head m = 10 / 4
       /\ sa_d_head m = 10 / (10 / 4)
       /\ (10 mod 4 = 0 -> sa_d_head m = 4).
Proof.
  split; [reflexivity|]. split; [reflexivity|]. split; [lia|].
  apply (selfAttention_init_without_divisibility_check
           Init.indivisible_config 10 4); [reflexivity | reflexivity | lia].
Defined.

(** Counterexample to claim C8 as stated: the notebook's configuration
    with the feed-forward width changed from 256 to 100 builds the same
    MLP, whose hidden width is 256. *)
Lemma configured_hidden_width_is_ignored :
  other_hidden_width_config !! "d_mlp" = Some 100
  /\ notebook_config 65 !! "d_mlp" = Some 256
  /\ MLP_init other_hidden_width_config = MLP_init (notebook_config 65)
  /\ exists m, MLP_init other_hidden_width_config = Ok m
       /\ mlp_d_mlp m = 256
       /\ out_features (mlp_up_projection m) = 256.
Proof.
  split; [done|]. split; [done|]. split; [done|].
  eexists. split; [vm_compute; reflexivity|]. done.
Qed.

(** Claim C8, as amended.  The feed-forward width is not read from the
    configuration: whatever the entry ["d_mlp"] holds, [MLP.__init__]
    builds the same module, whose up-projection maps the embedding width
    [D] to [4 * D] and whose down-projection maps [4 * D] back to
    [D]. *)
Theorem MLP_hidden_width_is_four_times_d_embed config v :
  MLP_init (<["d_mlp" := v]> config) = MLP_init config
  /\ forall m, MLP_init config = Ok m ->
       mlp_d_mlp m = 4 * mlp_d_embed m
       /\ mlp_up_projection m
          = {| in_features := mlp_d_embed m;
               out_features := 4 * mlp_d_embed m |}
       /\ mlp_down_projection m
          = {| in_features := 4 * mlp_d_embed m;
               out_features := mlp_d_embed m |}
       /\ config !! "d_embed" = Some (mlp_d_embed m).
Proof.
  split.
  - unfold MLP_init, getitem. by rewrite lookup_insert_ne.
  - intros m. unfold MLP_init, getitem, nn_Linear.
    destruct (config !! "d_embed") as [D|]; [|done].
    change (Ok D ≫= ?k) with (k D). cbn beta zeta.
    destruct ((D <? 0) || (4 * D <? 0))%bool; [done|].
    destruct ((4 * D <? 0) || (D <? 0))%bool; [done|].
    intros [= <-]. done.
Qed.

End InitFacts.

(** ** The attention class *)

Module AttentionFacts.
Import Torch TorchFacts Attention.

Lemma Linear_forward_3d lin x B L D :
  in_features lin = D -> shape x = [B; L; D] ->
  exists y, Linear_forward lin x = Ok y
    /\ shape y = [B; L; out_features lin]
    /\ strides y = contiguous_strides [B; L; out_features lin]
    /\ forall b l c, b < B -> l < L -> c < out_features lin ->
         get y [b; l; c]
         = (rsum D (fun i => get x [b; l; i] * weight lin c i)
            + bias lin c)%R.
Proof.
  intros Hin Hx. unfold Linear_forward. rewrite Hx. simpl.
  rewrite Hin, Nat.eqb_refl. eexists. split; [done|].
  split; [done|]. split; [done|]. intros b l c Hb Hl Hc.
  rewrite get_from_fun by (repeat constructor; done). done.
Qed.

Lemma split_heads_ok self B L t :
  shape t = [B; L; num_head self * d_head self] ->
  strides t = contiguous_strides (shape t) ->
  exists y, split_heads self B L t = Ok y
    /\ shape y = [B; num_head self; L; d_head self]
    /\ length (strides y) = 4
    /\ forall b h l d, b < B -> h < num_head self -> l < L ->
         d < d_head self ->
         get y [b; h; l; d] = get t [b; l; h * d_head self + d].
Proof.
  intros Hs Hc. unfold split_heads.
  rewrite (view_contiguous t); [|done|rewrite Hs; simpl; lia].
  rewrite bind_Ok. unfold transpose. simpl.
  eexists. split; [done|]. split; [done|]. split; [done|].
  intros b h l d Hb Hh Hl Hd. unfold get. simpl. rewrite Hc, Hs. simpl.
  f_equal.
  rewrite !Nat.max_l by lia. rewrite (Nat.max_l (_ * _)) by nia. lia.
Qed.

Lemma QKT_ok Q K B H L Dh :
  shape Q = [B; H; L; Dh] -> shape K = [B; H; L; Dh] ->
  exists p, QKT Q K = Ok p /\ shape p = [B; H; L; L]
    /\ strides p = contiguous_strides [B; H; L; L].
Proof.
  intros HQ HK. unfold QKT, transpose. rewrite HK. simpl.
  unfold matmul. simpl. rewrite HQ. simpl.
  rewrite Nat.eqb_refl, bool_decide_eq_true_2 by done. simpl.
  eexists. split; [done|]. by split.
Qed.

Lemma causal_mask_entry L i j :
  i < L -> j < L ->
  get (causal_mask L) [i; j] = if i <? j then NegInf else Fin 0.
Proof.
  intros Hi Hj. unfold causal_mask, triu, full.
  assert (Forall2 lt [i; j] [L; L]) as Hin by (repeat constructor; done).
  rewrite get_from_fun by done. cbn [rev app].
  rewrite get_from_fun by done.
  destruct (Z.leb_spec 1 (Z.of_nat j - Z.of_nat i)),
           (Nat.ltb_spec i j); (done || lia).
Qed.

Lemma unsqueeze_front_entry {A} (t : tensor A) idx :
  get (unsqueeze t 0) (0 :: idx) = get t idx.
Proof. done. Qed.

Lemma broadcast_mask_shape B H L :
  broadcast_rev [L; L; H; B] [L; L; 1] = Ok [L; L; H; B].
Proof.
  simpl. destruct (H =? 1) eqn:E; simpl; rewrite !Nat.eqb_refl; done.
Qed.

Lemma masked_scores_spec Q K B H L Dh D :
  shape Q = [B; H; L; Dh] -> shape K = [B; H; L; Dh] ->
  exists p s, QKT Q K = Ok p /\ masked_scores Q K L D = Ok s
    /\ shape s = [B; H; L; L]
    /\ forall b h i j, b < B -> h < H -> i < L -> j < L ->
         get s [b; h; i; j]
         = xdiv (xadd (Fin (get p [b; h; i; j])) (get (causal_mask L) [i; j]))
                (sqrt (INR D)).
Proof.
  intros HQ HK.
  destruct (QKT_ok Q K B H L Dh HQ HK) as (p & Hp & Hsh & Hst).
  unfold masked_scores. rewrite Hp, bind_Ok.
  unfold broadcast2. rewrite Hsh.
  change (rev (shape (unsqueeze (causal_mask L) 0))) with [L; L; 1].
  change (rev [B; H; L; L]) with [L; L; H; B].
  rewrite broadcast_mask_shape, bind_Ok.
  exists p. eexists. split; [done|]. split; [done|]. split; [done|].
  intros b h i j Hb Hh Hi Hj.
  assert (Forall2 lt [b; h; i; j] [B; H; L; L]) as Hin
    by (repeat constructor; done).
  unfold tmap. cbn [shape from_fun rev app].
  rewrite get_from_fun by done. rewrite get_from_fun by done.
  unfold operand_index.
  change (rev (shape (unsqueeze (causal_mask L) 0))) with [L; L; 1].
  cbn [rev app operand_index_rev].
  rewrite !stretch_index by done. simpl (1 =? 1).
  cbv iota. rewrite unsqueeze_front_entry. done.
Qed.

Lemma project_split self lin x B L :
  in_features lin = d_embed self ->
  out_features lin = num_head self * d_head self ->
  shape x = [B; L; d_embed self] ->
  exists y, (t ← Linear_forward lin x; split_heads self B L t) = Ok y
    /\ shape y = [B; num_head self; L; d_head self]
    /\ length (strides y) = 4
    /\ forall b h l d, b < B -> h < num_head self -> l < L ->
         d < d_head self ->
         get y [b; h; l; d] = projected lin x (d_head self) b h l d.
Proof.
  intros Hi Ho Hx.
  destruct (Linear_forward_3d _ x B L _ Hi Hx) as (t & -> & Ht & Htc & Hte).
  rewrite bind_Ok. rewrite Ho in Ht, Htc.
  destruct (split_heads_ok self B L t) as (y & -> & Hy & Hyl & Hye);
    [done | by rewrite Ht |].
  exists y. split; [done|]. split; [done|]. split; [done|].
  intros b h l d Hb Hh Hl Hd. rewrite Hye by done.
  rewrite Hte; [unfold projected; by rewrite Hi | done | done | rewrite Ho; nia].
Qed.

Lemma qkv_ok self x B L :
  wf self -> shape x = [B; L; d_embed self] ->
  exists Q K V, qkv self x B L = Ok (Q, K, V)
    /\ shape Q = [B; num_head self; L; d_head self]
    /\ shape K = [B; num_head self; L; d_head self]
    /\ shape V = [B; num_head self; L; d_head self]
    /\ length (strides K) = 4
    /\ forall b h l d, b < B -> h < num_head self -> l < L ->
         d < d_head self ->
         get Q [b; h; l; d] = projected (W_q self) x (d_head self) b h l d
         /\ get K [b; h; l; d] = projected (W_k self) x (d_head self) b h l d
         /\ get V [b; h; l; d] = projected (W_v self) x (d_head self) b h l d.
Proof.
  intros (Hq & Hk & Hv & Hqo & Hko & Hvo & _) Hx.
  destruct (project_split self _ x B L Hq Hqo Hx)
    as (Q & HQ & HQs & _ & HQe).
  destruct (project_split self _ x B L Hk Hko Hx)
    as (K & HK & HKs & HKl & HKe).
  destruct (project_split self _ x B L Hv Hvo Hx)
    as (V & HV & HVs & _ & HVe).
  exists Q, K, V. split; [|by auto 10].
  unfold qkv.
  destruct (Linear_forward (W_q self) x) as [Q0|]; [|done].
  destruct (Linear_forward (W_k self) x) as [K0|]; [|done].
  destruct (Linear_forward (W_v self) x) as [V0|]; [|done].
  rewrite !bind_Ok in *. rewrite HQ, HK, HV. done.
Qed.

Local Open Scope R_scope.

Lemma rsum_ext n f g :
  (forall k, (k < n)%nat -> f k = g k) -> rsum n f = rsum n g.
Proof.
  induction n as [|n IH]; intros H; simpl; [done|].
  rewrite IH by (intros; apply H; lia). rewrite H by lia. done.
Qed.

Lemma rsum_div n f c : rsum n (fun k => f k / c) = rsum n f / c.
Proof.
  induction n as [|n IH]; simpl; [unfold Rdiv; ring|].
  rewrite IH. unfold Rdiv. ring.
Qed.

Lemma rsum_nonneg n f : (forall k, 0 <= f k) -> 0 <= rsum n f.
Proof.
  intros H. induction n as [|n IH]; simpl; [lra|]. specialize (H n). lra.
Qed.

Lemma rsum_pos n f i :
  (forall k, 0 <= f k) -> (i < n)%nat -> 0 < f i -> 0 < rsum n f.
Proof.
  intros H Hi Hfi. induction n as [|n IH]; simpl; [lia|].
  destruct (decide (i = n)) as [->|Hne].
  - pose proof (rsum_nonneg n f H). lra.
  - specialize (H n). assert (0 < rsum n f) by (apply IH; lia). lra.
Qed.

Lemma filter_le_seq i n :
  length (List.filter (fun j => j <=? i)%nat (seq 0 n)) = Nat.min (S i) n.
Proof.
  induction n as [|n IH]; [done|].
  rewrite seq_S, List.filter_app, length_app, IH.
  cbn [List.filter Nat.add]. destruct (Nat.leb_spec n i); cbn [length]; lia.
Qed.

Lemma xexp_nonneg a : 0 <= xexp a.
Proof.
  destruct a as [x|]; simpl; [|lra].
  destruct (Rlt_dec x _); [lra | left; apply exp_pos].
Qed.

Lemma ln_2_pos : 0 < ln 2.
Proof. rewrite <- ln_1. apply ln_increasing; lra. Qed.

(** [ln 2 < 121 / 150], from [2 < (1 + 121/600)^4 < exp (121/150)]. *)
Lemma ln_2_upper : ln 2 < 121 / 150.
Proof.
  assert (1 + 121 / 600 < exp (121 / 600)) as He by (apply exp_ineq1; lra).
  assert (exp (121 / 150) = exp (121 / 600) * exp (121 / 600)
                            * (exp (121 / 600) * exp (121 / 600))) as Hq.
  { rewrite <- !exp_plus. f_equal. field. }
  assert (2 < exp (121 / 150)) as H2.
  { rewrite Hq. set (y := exp (121 / 600)) in *.
    assert (1.44 < y * y) by nra. nra. }
  rewrite <- (ln_exp (121 / 150)). apply ln_increasing; lra.
Qed.

Lemma xexp_0 : xexp (Fin 0) = 1.
Proof.
  simpl. pose proof ln_2_pos.
  destruct (Rlt_dec 0 (-150 * ln 2)); [lra | apply exp_0].
Qed.

Lemma xexp_sub_self r : xexp (xsub (Fin r) (Fin r)) = 1.
Proof. cbn [xsub]. replace (r - r) with 0 by ring. apply xexp_0. Qed.

Lemma xexp_sub_NegInf m : xexp (xsub NegInf m) = 0.
Proof. done. Qed.

Lemma xle_refl a : xle a a.
Proof. destruct a; simpl; [lra | done]. Qed.

Lemma xle_trans a b c : xle a b -> xle b c -> xle a c.
Proof. destruct a, b, c; simpl; try done. lra. Qed.

Lemma xle_antisym a b : xle a b -> xle b a -> a = b.
Proof. destruct a, b; simpl; try done. intros. f_equal. lra. Qed.

Lemma xmax_upper_l a b : xle a (xmax a b).
Proof. destruct a, b; simpl; try done; try apply Rmax_l; try lra. Qed.

Lemma xmax_upper_r a b : xle b (xmax a b).
Proof. destruct a, b; simpl; try done; try apply Rmax_r; try lra. Qed.

Lemma xmax_cases a b : xmax a b = a \/ xmax a b = b.
Proof.
  destruct a as [x|], b as [y|]; simpl; auto.
  unfold Rmax. destruct (Rle_dec x y); auto.
Qed.

Lemma xmaximum_ext n f g :
  (forall k, (k < n)%nat -> f k = g k) -> xmaximum n f = xmaximum n g.
Proof.
  induction n as [|n IH]; intros H; [done|]. cbn [xmaximum].
  rewrite IH by (intros; apply H; lia). by rewrite H by lia.
Qed.

Lemma xmaximum_upper n f k : (k < n)%nat -> xle (f k) (xmaximum n f).
Proof.
  induction n as [|n IH]; intros Hk; [lia|]. cbn [xmaximum].
  destruct (decide (k = n)) as [->|Hne]; [apply xmax_upper_r|].
  eapply xle_trans; [apply IH; lia | apply xmax_upper_l].
Qed.

Lemma xmaximum_attained n f :
  (0 < n)%nat -> exists k, (k < n)%nat /\ xmaximum n f = f k.
Proof.
  induction n as [|n IH]; intros Hn; [lia|]. cbn [xmaximum].
  destruct n as [|n]; [exists 0%nat; split; [lia|done]|].
  destruct IH as (k & Hk & Hmax); [lia|].
  destruct (xmax_cases (xmaximum (S n) f) (f (S n))) as [->| ->].
  - exists k. split; [lia|done].
  - exists (S n). split; [lia|done].
Qed.

(** An entry that bounds its row is the largest of the row. *)
Lemma xmaximum_of_upper n f j :
  (j < n)%nat -> (forall k, (k < n)%nat -> xle (f k) (f j)) ->
  xmaximum n f = f j.
Proof.
  intros Hj Hup. destruct (xmaximum_attained n f) as (k & Hk & Hmax); [lia|].
  apply xle_antisym; [rewrite Hmax; by apply Hup | by apply xmaximum_upper].
Qed.

(** The entries of [softmax] on the rank the attention uses. *)
Lemma softmax_entry t B H L b h i j :
  shape t = [B; H; L; L]%nat ->
  (b < B)%nat -> (h < H)%nat -> (i < L)%nat -> (j < L)%nat ->
  get (softmax t) [b; h; i; j]%nat
  = xexp (xsub (get t [b; h; i; j]%nat)
               (xmaximum L (fun k => get t [b; h; i; k]%nat)))
    / rsum L (fun k =>
        xexp (xsub (get t [b; h; i; k]%nat)
                   (xmaximum L (fun k' => get t [b; h; i; k']%nat)))).
Proof.
  intros Hsh Hb Hh Hi Hj. unfold softmax. rewrite Hsh.
  by rewrite get_from_fun by in_bounds.
Qed.

(** A row of scores that is finite at [i] and minus infinity after [i]:
    relative to the largest score, the exponentials are non-negative,
    vanish after [i], and one of them, up to [i], is 1. *)
Lemma causal_row_exponentials L (f : nat -> xreal) i :
  (i < L)%nat ->
  (forall k, (k < L)%nat ->
     exists r, f k = if (i <? k)%nat then NegInf else Fin r) ->
  let E := fun k => xexp (xsub (f k) (xmaximum L f)) in
  (forall k, 0 <= E k)
  /\ (forall k, (k < L)%nat -> (i < k)%nat -> E k = 0)
  /\ (exists k, (k <= i)%nat /\ E k = 1)
  /\ 1 <= rsum L E.
Proof.
  intros Hi Hrow E.
  assert (forall k, 0 <= E k) as HE0 by (intros; apply xexp_nonneg).
  assert (forall k, (k < L)%nat -> (i < k)%nat -> E k = 0) as HEz.
  { intros k Hk Hlt. unfold E. destruct (Hrow k Hk) as (r & ->).
    by destruct (Nat.ltb_spec i k); [|lia]. }
  assert (exists k, (k <= i)%nat /\ E k = 1) as (k0 & Hk0 & HE1).
  { destruct (xmaximum_attained L f) as (k & Hk & Hmax); [lia|].
    pose proof (xmaximum_upper L f i Hi) as Hup.
    destruct (Hrow i Hi) as (ri & Hfi). rewrite Nat.ltb_irrefl in Hfi.
    rewrite Hfi, Hmax in Hup.
    destruct (Hrow k Hk) as (rk & Hfk).
    destruct (Nat.ltb_spec i k) as [Hlt|Hle].
    { by rewrite Hfk in Hup. }
    exists k. split; [done|]. unfold E. rewrite Hmax, Hfk.
    apply xexp_sub_self. }
  split; [done|]. split; [done|]. split; [by exists k0|].
  assert (k0 < L)%nat as Hk0L by lia.
  clear -HE0 HE1 Hk0L. revert Hk0L. generalize L. intros n Hn.
  induction n as [|n IH]; [lia|]. cbn [rsum].
  destruct (decide (k0 = n)) as [->|Hne].
  - pose proof (rsum_nonneg n E HE0). lra.
  - specialize (HE0 n). assert (1 <= rsum n E) by (apply IH; lia). lra.
Qed.

(** When the scores up to [i] lie within 75 of each other, none of
    their exponentials underflows. *)
Lemma causal_row_within_reach L (f : nat -> xreal) i :
  (i < L)%nat ->
  (forall k, (k < L)%nat ->
     exists r, f k = if (i <? k)%nat then NegInf else Fin r) ->
  (forall j k rj rk, (j <= i)%nat -> (k <= i)%nat ->
     f j = Fin rj -> f k = Fin rk -> rk - rj <= 75) ->
  forall j, (j <= i)%nat -> 0 < xexp (xsub (f j) (xmaximum L f)).
Proof.
  intros Hi Hrow Hreach j Hj.
  destruct (xmaximum_attained L f) as (k & Hk & Hmax); [lia|].
  pose proof (xmaximum_upper L f i Hi) as Hup.
  destruct (Hrow i Hi) as (ri & Hfi). rewrite Nat.ltb_irrefl in Hfi.
  rewrite Hfi, Hmax in Hup.
  destruct (Hrow k Hk) as (rk & Hfk).
  destruct (Nat.ltb_spec i k) as [Hlt|Hle]; [by rewrite Hfk in Hup|].
  destruct (Hrow j ltac:(lia)) as (rj & Hfj).
  destruct (Nat.ltb_spec i j) as [Hlt'|_]; [lia|].
  rewrite Hmax, Hfk, Hfj. cbn [xsub xexp].
  pose proof (Hreach j k rj rk Hj Hle Hfj Hfk) as Hgap.
  pose proof ln_lt_2 as Hln.
  destruct (Rlt_dec (rj - rk) (-150 * ln 2)); [lra | apply exp_pos].
Qed.

Lemma scores_ok self x B L :
  wf self -> shape x = [B; L; d_embed self] ->
  exists Q K V p s,
    qkv self x B L = Ok (Q, K, V) /\ QKT Q K = Ok p
    /\ scores self x = Ok s
    /\ shape V = [B; num_head self; L; d_head self]
    /\ shape s = [B; num_head self; L; L]
    /\ forall b h i j, (b < B)%nat -> (h < num_head self)%nat ->
         (i < L)%nat -> (j < L)%nat ->
         get s [b; h; i; j]
         = xdiv (xadd (Fin (get p [b; h; i; j])) (get (causal_mask L) [i; j]))
                (sqrt (INR (d_embed self))).
Proof.
  intros Hwf Hx.
  destruct (qkv_ok self x B L Hwf Hx)
    as (Q & K & V & Hqkv & HQ & HK & HV & _ & _).
  destruct (masked_scores_spec Q K B _ L _ (d_embed self) HQ HK)
    as (p & s & Hp & Hs & Hsh & Hent).
  exists Q, K, V, p, s. unfold scores. rewrite Hx, Hqkv. done.
Qed.

(** The masked scores are minus infinity above the diagonal and finite
    on and below it; the weights are their exponentials, taken relative
    to the largest score of the row, divided by the sum over the
    row. *)
Lemma attentions_weights_entry self x B L :
  wf self -> shape x = [B; L; d_embed self] ->
  exists s w, scores self x = Ok s /\ attentions_weights self x = Ok w
    /\ shape w = [B; num_head self; L; L]
    /\ (forall b h i j, (b < B)%nat -> (h < num_head self)%nat ->
          (i < L)%nat -> (j < L)%nat ->
          exists r, get s [b; h; i; j]
                    = if (i <? j)%nat then NegInf else Fin r)
    /\ forall b h i j, (b < B)%nat -> (h < num_head self)%nat ->
         (i < L)%nat -> (j < L)%nat ->
         get w [b; h; i; j]
         = xexp (xsub (get s [b; h; i; j])
                      (xmaximum L (fun k => get s [b; h; i; k])))
           / rsum L (fun k =>
               xexp (xsub (get s [b; h; i; k])
                          (xmaximum L (fun k' => get s [b; h; i; k'])))).
Proof.
  intros Hwf Hx.
  destruct (scores_ok self x B L Hwf Hx)
    as (Q & K & V & p & s & _ & _ & Hs & _ & Hsh & Hent).
  exists s, (softmax s). split; [done|]. split.
  { unfold attentions_weights. by rewrite Hs. }
  split; [done|]. split.
  - intros b h i j Hb Hh Hi Hj.
    rewrite Hent, causal_mask_entry by done.
    destruct (i <? j)%nat; [by exists 0|]. eexists. reflexivity.
  - intros b h i j Hb Hh Hi Hj. by apply (softmax_entry s B (num_head self)).
Qed.

(** The exponentials of a row of the weights and their sum: the
    exponentials are non-negative and vanish after the diagonal, one of
    them, up to the diagonal, is 1, and each weight is its exponential
    divided by the sum. *)
Lemma attentions_weights_row self x B L :
  wf self -> shape x = [B; L; d_embed self] ->
  exists w, attentions_weights self x = Ok w
    /\ shape w = [B; num_head self; L; L]
    /\ forall b h i, (b < B)%nat -> (h < num_head self)%nat -> (i < L)%nat ->
         exists E : nat -> R,
           (forall k, 0 <= E k)
           /\ (forall k, (k < L)%nat -> (i < k)%nat -> E k = 0)
           /\ (exists k, (k <= i)%nat /\ E k = 1)
           /\ 1 <= rsum L E
           /\ forall j, (j < L)%nat -> get w [b; h; i; j] = E j / rsum L E.
Proof.
  intros Hwf Hx.
  destruct (attentions_weights_entry self x B L Hwf Hx)
    as (s & w & _ & Hw & Hsh & Hs & Hent).
  exists w. split; [done|]. split; [done|]. intros b h i Hb Hh Hi.
  destruct (causal_row_exponentials L (fun k => get s [b; h; i; k]) i Hi)
    as (HE0 & HEz & HE1 & HS).
  { intros k Hk. by apply Hs. }
  eexists. split; [exact HE0|]. split; [exact HEz|]. split; [exact HE1|].
  split; [exact HS|]. intros j Hj. by apply Hent.
Qed.

Lemma matmul_weights_values w V B H L Dh :
  shape w = [B; H; L; L] -> shape V = [B; H; L; Dh] ->
  exists a, matmul w V = Ok a
    /\ shape a = [B; H; L; Dh]
    /\ strides a = contiguous_strides [B; H; L; Dh]
    /\ forall b h i d, (b < B)%nat -> (h < H)%nat -> (i < L)%nat ->
         (d < Dh)%nat ->
         get a [b; h; i; d]
         = rsum L (fun k => get w [b; h; i; k] * get V [b; h; k; d]).
Proof.
  intros Hw HV. unfold matmul. rewrite Hw, HV. simpl.
  rewrite Nat.eqb_refl, bool_decide_eq_true_2 by done. simpl.
  eexists. split; [done|]. split; [done|]. split; [done|].
  intros b h i d Hb Hh Hi Hd.
  rewrite get_from_fun by (repeat constructor; done). done.
Qed.

Lemma head_outputs_ok self x B L :
  wf self -> shape x = [B; L; d_embed self] ->
  exists w a, attentions_weights self x = Ok w
    /\ head_outputs self x = Ok a
    /\ shape a = [B; num_head self; L; d_head self]
    /\ strides a = contiguous_strides [B; num_head self; L; d_head self]
    /\ forall b h i d, (b < B)%nat -> (h < num_head self)%nat ->
         (i < L)%nat -> (d < d_head self)%nat ->
         get a [b; h; i; d]
         = rsum L (fun k => get w [b; h; i; k]
                            * projected (W_v self) x (d_head self) b h k d).
Proof.
  intros Hwf Hx.
  destruct (qkv_ok self x B L Hwf Hx)
    as (Q & K & V & Hqkv & HQ & HK & HV & _ & Hent).
  destruct (masked_scores_spec Q K B _ L _ (d_embed self) HQ HK)
    as (p & s & Hp & Hs & Hsh & _).
  destruct (matmul_weights_values (softmax s) V B _ L _ Hsh HV)
    as (a & Ha & Hash & Hast & Hae).
  exists (softmax s), a.
  unfold attentions_weights, scores, head_outputs.
  rewrite Hx, Hqkv, !bind_Ok. cbn beta iota. rewrite Hs, !bind_Ok.
  repeat (split; [done|]).
  intros b h i d Hb Hh Hi Hd. rewrite Hae by done.
  apply rsum_ext. intros k Hk. f_equal. by apply Hent.
Qed.

Lemma forward_factor self x B L D :
  shape x = [B; L; D] ->
  forward self x
  = (a ← head_outputs self x;
     a' ← merge_heads self B L a;
     Linear_forward (W_o self) a').
Proof.
  intros Hx. unfold forward, head_outputs. rewrite Hx.
  destruct (qkv self x B L) as [[[Q K] V]|e]; [|done].
  rewrite !bind_Ok. cbn beta iota.
  destruct (masked_scores Q K L D) as [s|e]; done.
Qed.

Lemma QKT_entry Q K B H L Dh p :
  shape Q = [B; H; L; Dh] -> shape K = [B; H; L; Dh] ->
  length (strides K) = 4%nat -> QKT Q K = Ok p ->
  forall b h i j, (b < B)%nat -> (h < H)%nat -> (i < L)%nat -> (j < L)%nat ->
    get p [b; h; i; j]
    = rsum Dh (fun d => get Q [b; h; i; d] * get K [b; h; j; d]).
Proof.
  intros HQ HK Hlen. unfold QKT, transpose. rewrite HK.
  change (wrap_dim (length [B; H; L; Dh]) (-2)) with (Ok 2%nat).
  change (wrap_dim (length [B; H; L; Dh]) (-1)) with (Ok 3%nat).
  rewrite !bind_Ok. unfold matmul. cbn [shape]. rewrite HQ.
  destruct (strides K) as [|s0 [|s1 [|s2 [|s3 [|]]]]] eqn:HstK;
    try discriminate Hlen.
  cbn [rev app swap lookup list_lookup insert list_insert].
  rewrite Nat.eqb_refl, bool_decide_eq_true_2 by done. cbn [andb].
  intros [= <-] b h i j Hb Hh Hi Hj.
  rewrite get_from_fun by in_bounds. cbn [rev app].
  apply rsum_ext. intros d Hd. f_equal.
  unfold get. cbn [strides storage]. rewrite HstK. cbn [offset].
  f_equal. lia.
Qed.

Lemma projected_agree lin x x' Dh b h l d D :
  in_features lin = D ->
  (forall c, (c < D)%nat -> get x [b; l; c] = get x' [b; l; c]) ->
  projected lin x Dh b h l d = projected lin x' Dh b h l d.
Proof.
  intros Hin Hrow. unfold projected. f_equal. rewrite Hin.
  apply rsum_ext. intros c Hc. by rewrite Hrow.
Qed.

(** The masked, scaled scores of [forward] are given by the formula. *)
Lemma scores_entry self x B L :
  wf self -> shape x = [B; L; d_embed self] ->
  exists s, scores self x = Ok s
    /\ shape s = [B; num_head self; L; L]
    /\ forall b h i j, (b < B)%nat -> (h < num_head self)%nat ->
         (i < L)%nat -> (j < L)%nat ->
         get s [b; h; i; j] = score_value self x b h i j.
Proof.
  intros Hwf Hx.
  destruct (qkv_ok self x B L Hwf Hx)
    as (Q & K & V & Hqkv & HQ & HK & HV & HKl & Hent).
  destruct (masked_scores_spec Q K B _ L _ (d_embed self) HQ HK)
    as (p & s & Hp & Hs & Hsh & Hse).
  exists s. split; [unfold scores; by rewrite Hx, Hqkv|]. split; [done|].
  intros b h i j Hb Hh Hi Hj. rewrite Hse, causal_mask_entry by done.
  rewrite (QKT_entry Q K B _ L _ p HQ HK HKl Hp) by done.
  unfold score_value.
  rewrite (rsum_ext (d_head self) _ (fun c =>
             projected (W_q self) x (d_head self) b h i c
             * projected (W_k self) x (d_head self) b h j c)); [done|].
  intros c Hc.
  destruct (Hent b h i c) as (-> & _ & _); [done..|].
  destruct (Hent b h j c) as (_ & -> & _); [done..|]. done.
Qed.

(** The per-head results of [forward] are given by the formulas. *)
Lemma head_outputs_value self x B L :
  wf self -> shape x = [B; L; d_embed self] ->
  exists a, head_outputs self x = Ok a
    /\ shape a = [B; num_head self; L; d_head self]
    /\ forall b h i d, (b < B)%nat -> (h < num_head self)%nat ->
         (i < L)%nat -> (d < d_head self)%nat ->
         get a [b; h; i; d] = head_value self x L b h i d.
Proof.
  intros Hwf Hx.
  destruct (qkv_ok self x B L Hwf Hx)
    as (Q & K & V & Hqkv & HQ & HK & HV & HKl & Hent).
  destruct (masked_scores_spec Q K B _ L _ (d_embed self) HQ HK)
    as (p & s & Hp & Hs & Hsh & Hse).
  destruct (matmul_weights_values (softmax s) V B _ L _ Hsh HV)
    as (a & Ha & Hash & Hast & Hae).
  exists a. split.
  { unfold head_outputs. rewrite Hx, Hqkv, !bind_Ok. cbn beta iota.
    by rewrite Hs, !bind_Ok. }
  split; [done|].
  intros b h i d Hb Hh Hi Hd. rewrite Hae by done.
  assert (forall k, (k < L)%nat ->
            get s [b; h; i; k] = score_value self x b h i k)
    as Hscore.
  { intros k Hk. rewrite Hse, causal_mask_entry by done.
    rewrite (QKT_entry Q K B _ L _ p HQ HK HKl Hp) by done.
    unfold score_value.
    rewrite (rsum_ext (d_head self) _ (fun c =>
               projected (W_q self) x (d_head self) b h i c
               * projected (W_k self) x (d_head self) b h k c)); [done|].
    intros c Hc.
    destruct (Hent b h i c) as (-> & _ & _); [done..|].
    destruct (Hent b h k c) as (_ & -> & _); [done..|]. done. }
  unfold head_value. apply rsum_ext. intros k Hk.
  destruct (Hent b h k d) as (_ & _ & ->); [done..|]. f_equal.
  rewrite (softmax_entry s B (num_head self) L) by done.
  unfold weight_value. cbn zeta.
  rewrite (xmaximum_ext L _ (score_value self x b h i)) by exact Hscore.
  rewrite Hscore by done. f_equal.
  apply rsum_ext. intros k' Hk'. by rewrite Hscore.
Qed.

(** The weights of [forward] are given by the formula. *)
Lemma attentions_weights_value self x B L :
  wf self -> shape x = [B; L; d_embed self] ->
  exists w, attentions_weights self x = Ok w
    /\ shape w = [B; num_head self; L; L]
    /\ forall b h i j, (b < B)%nat -> (h < num_head self)%nat ->
         (i < L)%nat -> (j < L)%nat ->
         get w [b; h; i; j] = weight_value self x L b h i j.
Proof.
  intros Hwf Hx.
  destruct (scores_entry self x B L Hwf Hx) as (s & Hs & Hsh & Hscore).
  exists (softmax s). split; [unfold attentions_weights; by rewrite Hs|].
  split; [done|]. intros b h i j Hb Hh Hi Hj.
  rewrite (softmax_entry s B (num_head self) L) by done.
  unfold weight_value. cbn zeta.
  rewrite (xmaximum_ext L _ (score_value self x b h i))
    by (intros; by apply Hscore).
  rewrite Hscore by done. f_equal.
  apply rsum_ext. intros k' Hk'. by rewrite Hscore.
Qed.

(** The score of a position against an earlier one only depends on
    the two positions; against a later one it is minus infinity. *)
Lemma score_value_causal self x x' b h i k :
  wf self ->
  (forall l c, (l <= i)%nat -> (c < d_embed self)%nat ->
     get x [b; l; c] = get x' [b; l; c]) ->
  score_value self x b h i k = score_value self x' b h i k.
Proof.
  intros (Hq & Hk & _) Hagree. unfold score_value.
  destruct (Nat.ltb_spec i k) as [Hlt|Hle]; [done|].
  rewrite (rsum_ext (d_head self) _ (fun c =>
             projected (W_q self) x' (d_head self) b h i c
             * projected (W_k self) x' (d_head self) b h k c)); [done|].
  intros c Hc. f_equal.
  - apply (projected_agree _ _ _ _ _ _ _ _ _ Hq). intros; by apply Hagree.
  - apply (projected_agree _ _ _ _ _ _ _ _ _ Hk). intros; by apply Hagree.
Qed.

Lemma score_value_masked self x b h i k :
  (i < k)%nat -> score_value self x b h i k = NegInf.
Proof. intros Hlt. unfold score_value. by destruct (Nat.ltb_spec i k); [|lia]. Qed.

(** So do the weights of a position, and they vanish on the later
    positions. *)
Lemma weight_value_causal self x x' L b h i k :
  wf self ->
  (forall l c, (l <= i)%nat -> (c < d_embed self)%nat ->
     get x [b; l; c] = get x' [b; l; c]) ->
  weight_value self x L b h i k = weight_value self x' L b h i k.
Proof.
  intros Hwf Hagree. unfold weight_value. cbn zeta.
  rewrite (xmaximum_ext L _ (score_value self x' b h i))
    by (intros; by apply score_value_causal).
  rewrite (score_value_causal self x x' b h i k) by done. f_equal.
  apply rsum_ext. intros k' Hk'.
  by rewrite (score_value_causal self x x' b h i k').
Qed.

Lemma weight_value_masked self x L b h i k :
  (i < k)%nat -> weight_value self x L b h i k = 0.
Proof.
  intros Hlt. unfold weight_value. cbn zeta.
  rewrite (score_value_masked self x b h i k Hlt), xexp_sub_NegInf.
  unfold Rdiv. ring.
Qed.

(** A position whose score is the largest of its row has a positive
    weight. *)
Lemma weight_value_largest_pos self x L b h i j r :
  (j < L)%nat ->
  (forall k, (k < L)%nat ->
     xle (score_value self x b h i k) (score_value self x b h i j)) ->
  score_value self x b h i j = Fin r ->
  0 < weight_value self x L b h i j.
Proof.
  intros Hj Hup Hr. unfold weight_value. cbn zeta.
  rewrite (xmaximum_of_upper L (score_value self x b h i) j Hj Hup), Hr.
  rewrite xexp_sub_self. apply Rdiv_lt_0_compat; [lra|].
  apply (rsum_pos L _ j); [intros; apply xexp_nonneg | done |].
  rewrite Hr, xexp_sub_self. lra.
Qed.

(** The result of a head at position [i] only depends on the
    positions up to [i]. *)
Lemma head_value_causal self x x' L b h i d :
  wf self ->
  (forall l c, (l <= i)%nat -> (c < d_embed self)%nat ->
     get x [b; l; c] = get x' [b; l; c]) ->
  head_value self x L b h i d = head_value self x' L b h i d.
Proof.
  intros Hwf Hagree. unfold head_value. apply rsum_ext. intros k Hk.
  rewrite (weight_value_causal self x x' L b h i k) by done.
  destruct (le_lt_dec k i) as [Hle|Hlt].
  - f_equal. destruct Hwf as (_ & _ & Hv & _).
    apply (projected_agree _ _ _ _ _ _ _ _ _ Hv). intros; by apply Hagree.
  - rewrite weight_value_masked by done. ring.
Qed.

(** X6.  Before the heads are reassembled, attention is causal: the
    result of every head at position [i] of a sequence is the same for
    two inputs that agree at the positions up to [i] of that
    sequence. *)
Lemma head_outputs_causal self x x' B L b i :
  wf self ->
  shape x = [B; L; d_embed self] -> shape x' = [B; L; d_embed self] ->
  (b < B)%nat -> (i < L)%nat ->
  (forall l c, (l <= i)%nat -> (c < d_embed self)%nat ->
     get x [b; l; c] = get x' [b; l; c]) ->
  exists a a', head_outputs self x = Ok a /\ head_outputs self x' = Ok a'
    /\ forall h d, (h < num_head self)%nat -> (d < d_head self)%nat ->
         get a [b; h; i; d] = get a' [b; h; i; d].
Proof.
  intros Hwf Hx Hx' Hb Hi Hagree.
  destruct (head_outputs_value self x B L Hwf Hx) as (a & Ha & _ & Hav).
  destruct (head_outputs_value self x' B L Hwf Hx') as (a' & Ha' & _ & Hav').
  exists a, a'. split; [done|]. split; [done|].
  intros h d Hh Hd. rewrite Hav, Hav' by done.
  by apply head_value_causal.
Qed.

Local Close Scope R_scope.

(** With a single batch the reassembly of [forward] goes through: the
    exchanged layout is packed, and the view keeps the storage order
    head, position, component. *)
Lemma merge_heads_single_batch self L a :
  shape a = [1; num_head self; L; d_head self] ->
  strides a = contiguous_strides [1; num_head self; L; d_head self] ->
  merge_heads self 1 L a
  = Ok {| shape := [1; L; num_head self * d_head self];
          strides := contiguous_strides [1; L; num_head self * d_head self];
          storage := storage a |}.
Proof.
  intros Hsh Hst. unfold merge_heads, transpose. rewrite Hsh, Hst.
  change (wrap_dim _ 0) with (Ok 0%nat).
  change (wrap_dim _ 1) with (Ok 1%nat).
  rewrite !bind_Ok. unfold view.
  cbn [shape strides swap lookup list_lookup insert list_insert
       contiguous_strides].
  set (H := num_head self). set (Dh := d_head self).
  assert (numel [1; L; H * Dh] = numel [H; 1; L; Dh]) as ->
    by (cbn [numel foldr]; lia).
  rewrite Nat.eqb_refl.
  assert (computeStride [H; 1; L; Dh]
            [span [L; Dh]; span [H; L; Dh]; span [Dh]; span []]
            [1; L; H * Dh]
          = Some (contiguous_strides [1; L; H * Dh])) as ->; [|done].
  destruct (decide (numel [H; 1; L; Dh] = 0)) as [H0|Hpos].
  - unfold computeStride. rewrite H0. cbn [Nat.eqb].
    by rewrite bool_decide_eq_false_2.
  - assert (0 < H /\ 0 < L /\ 0 < Dh) as (HH & HL & HDh).
    { cbn [numel foldr] in Hpos. repeat split; nia. }
    apply computeStride_packed; try done.
    + cbn [numel foldr]. lia.
    + cbn [zip zip_with rev app packed span foldr].
      rewrite !Nat.max_l by lia.
      repeat split; (by left) || (right; lia).
Qed.

(** X8.  Where the reassembled tensor of a single batch holds the
    result of head [h] for position [l], component [d]: at the place of
    that value in the order head, position, component, read as a row of
    width [num_head * d_head]. *)
Lemma merge_heads_single_batch_entry self L a a' h l d :
  shape a = [1; num_head self; L; d_head self] ->
  strides a = contiguous_strides [1; num_head self; L; d_head self] ->
  merge_heads self 1 L a = Ok a' ->
  h < num_head self -> l < L -> d < d_head self ->
  let q := (h * L + l) * d_head self + d in
  let width := num_head self * d_head self in
  get a' [0; q / width; q mod width] = get a [0; h; l; d].
Proof.
  intros Hsh Hst Hm Hh Hl Hd q width.
  rewrite (merge_heads_single_batch self L a Hsh Hst) in Hm.
  injection Hm as <-. unfold get. cbn [strides storage]. rewrite Hst.
  f_equal. cbn [contiguous_strides offset span foldr].
  rewrite !Nat.max_l by lia. rewrite (Nat.max_l (_ * _)) by (fold width; nia).
  fold width.
  pose proof (Nat.div_mod_eq q width) as Hq.
  subst q. nia.
Qed.

(** X9.  With a single batch and an embedding width that is the
    product of head count and head width, [forward] returns a tensor of
    the shape of its input. *)
Lemma forward_single_batch self x L :
  wf self -> d_embed self = num_head self * d_head self ->
  shape x = [1; L; d_embed self] ->
  exists out, forward self x = Ok out /\ shape out = [1; L; d_embed self].
Proof.
  intros Hwf HD Hx.
  rewrite (forward_factor self x 1 L _ Hx).
  destruct (head_outputs_ok self x 1 L Hwf Hx)
    as (w & a & _ & -> & Hsh & Hst & _).
  rewrite bind_Ok, (merge_heads_single_batch self L a Hsh Hst), bind_Ok.
  destruct Hwf as (_ & _ & _ & _ & _ & _ & Hoi & Hoo).
  edestruct (Linear_forward_3d (W_o self)
               {| shape := [1; L; num_head self * d_head self];
                  strides :=
                    contiguous_strides [1; L; num_head self * d_head self];
                  storage := storage a |} 1 L (d_embed self))
    as (out & -> & Hout & _); [done | by rewrite HD |].
  exists out. split; [done|]. by rewrite Hout, Hoo.
Qed.

Local Open Scope R_scope.

(** [__init__] gives the layers the widths [wf] asks for. *)
Lemma instantiate_wf config m theta :
  Init.selfAttention_init config = Ok m ->
  (0 <= Init.sa_num_head m)%Z -> (0 <= Init.sa_d_head m)%Z ->
  wf (instantiate m theta).
Proof.
  unfold Init.selfAttention_init. intros H Hh Hd.
  apply bind_Ok_inv in H as (D & _ & H).
  apply bind_Ok_inv in H as (dh & _ & H).
  apply bind_Ok_inv in H as (nh & _ & H).
  apply bind_Ok_inv in H as (dh' & _ & H).
  unfold Init.nn_Linear in H.
  destruct ((D <? 0) || (nh * dh' <? 0))%Z; [done|].
  destruct ((D <? 0) || (D <? 0))%Z; [done|].
  cbn in H. injection H as <-. cbn in Hh, Hd.
  unfold wf, instantiate, Linear_of. cbn.
  rewrite Z2Nat.inj_mul by done. done.
Qed.

Lemma notebook_attention_wf : wf notebook_attention.
Proof. repeat split. Qed.

Lemma two_head_attention_wf : wf two_head_attention.
Proof. repeat split. Qed.

(** Claim C1 fails on the code.  With two or more heads, at least one
    position and a batch of two or more sequences (unless the batch size
    happens to equal the head count), [selfAttention.forward] raises:
    [attn.transpose(0, 1)] exchanges the batch axis with the head axis
    instead of putting the head axis next to the sequence axis, and the
    [view] that follows is refused.  No tensor of shape [[B; L; D]] is
    returned, whatever the weights and the input values. *)
Theorem forward_raises_on_batches self x B L :
  wf self -> (2 <= B)%nat -> (2 <= num_head self)%nat ->
  (1 <= d_head self)%nat -> (1 <= L)%nat ->
  B <> num_head self -> shape x = [B; L; d_embed self] ->
  forward self x = Raise RuntimeError.
Proof.
  intros Hwf HB HH HDh HL Hne Hx.
  rewrite (forward_factor self x B L _ Hx).
  destruct (head_outputs_ok self x B L Hwf Hx)
    as (w & a & _ & -> & Hsh & Hst & _).
  rewrite bind_Ok. unfold merge_heads, transpose. rewrite Hsh.
  change (wrap_dim _ 0) with (Ok 0%nat).
  change (wrap_dim _ 1) with (Ok 1%nat).
  rewrite !bind_Ok. unfold view.
  cbn [shape strides swap lookup list_lookup insert list_insert].
  rewrite Hst.
  cbn [contiguous_strides swap lookup list_lookup insert list_insert
       span foldr].
  rewrite !Nat.max_l by lia. rewrite !Nat.mul_1_r.
  assert (numel [B; L; (num_head self * d_head self)%nat]
          = numel [num_head self; B; L; d_head self]) as ->
    by (cbn [numel foldr]; lia).
  rewrite Nat.eqb_refl, computeStride_exchanged by done. done.
Qed.

Lemma forward_raises_on_batches_witness :
  wf notebook_attention
  /\ (2 <= 2)%nat /\ (2 <= num_head notebook_attention)%nat
  /\ (1 <= d_head notebook_attention)%nat /\ (1 <= 3)%nat
  /\ 2%nat <> num_head notebook_attention
  /\ shape (full [2; 3; 64]%nat 0) = [2; 3; d_embed notebook_attention]%nat
  /\ forward notebook_attention (full [2; 3; 64]%nat 0) = Raise RuntimeError.
Proof.
  split; [exact notebook_attention_wf|].
  split; [lia|]. split; [simpl; lia|]. split; [simpl; lia|]. split; [lia|].
  split; [simpl; lia|]. split; [reflexivity|].
  apply (forward_raises_on_batches notebook_attention _ 2 3);
    [exact notebook_attention_wf | lia | simpl; lia | simpl; lia | lia
    | simpl; lia | reflexivity].
Defined.

(** Output of the two-head attention at position 0, second component,
    in terms of the attention weight of position 1 on itself. *)
Lemma two_head_output x :
  shape x = [1; 2; 2]%nat ->
  exists w out,
    attentions_weights two_head_attention x = Ok w
    /\ forward two_head_attention x = Ok out
    /\ get out [0; 0; 1]%nat
       = get w [0; 0; 1; 0]%nat * get x [0; 0; 0]%nat
         + get w [0; 0; 1; 1]%nat * get x [0; 1; 0]%nat.
Proof.
  intros Hx.
  rewrite (forward_factor _ x 1 2 2 Hx).
  destruct (head_outputs_ok two_head_attention x 1 2 two_head_attention_wf Hx)
    as (w & a & Hw & -> & Hsh & Hst & Hent).
  exists w. rewrite bind_Ok.
  assert (merge_heads two_head_attention 1 2 a
          = Ok {| shape := [1; 2; 2]%nat; strides := [4; 2; 1]%nat;
                  storage := storage a |}) as ->.
  { unfold merge_heads, transpose. rewrite Hsh.
    change (wrap_dim _ 0) with (Ok 0%nat).
    change (wrap_dim _ 1) with (Ok 1%nat).
    rewrite !bind_Ok. unfold view. cbn [shape strides]. rewrite Hst.
    reflexivity. }
  rewrite bind_Ok.
  edestruct (Linear_forward_3d (W_o two_head_attention)
               {| shape := [1; 2; 2]%nat; strides := [4; 2; 1]%nat;
                  storage := storage a |} 1 2 2)
    as (out & -> & _ & _ & Hout); [done | done |].
  exists out. split; [done|]. split; [done|].
  rewrite Hout by (simpl; lia).
  cbn [rsum two_head_attention W_o identity_linear weight bias Nat.eqb].
  change (get {| shape := [1; 2; 2]%nat; strides := [4; 2; 1]%nat;
                 storage := storage a |} [0; 0; 1]%nat)
    with (storage a 1).
  assert (storage a 1 = get a [0; 0; 1; 0]%nat) as ->.
  { unfold get. by rewrite Hst. }
  rewrite Hent by (simpl; lia).
  unfold projected.
  cbn [rsum two_head_attention W_v d_head identity_linear weight bias
       in_features Nat.eqb Nat.mul Nat.add].
  lra.
Qed.

Lemma zero_sequence_entry l c :
  (l < 2)%nat -> (c < 2)%nat -> get zero_sequence [0; l; c]%nat = 0.
Proof.
  intros Hl Hc. unfold zero_sequence, full.
  by rewrite get_from_fun by in_bounds.
Qed.

Lemma late_change_sequence_entry l c :
  (l < 2)%nat -> (c < 2)%nat ->
  get late_change_sequence [0; l; c]%nat
  = match l, c with 1%nat, 0%nat => 2 | _, _ => 0 end.
Proof.
  intros Hl Hc. unfold late_change_sequence.
  rewrite get_from_fun by in_bounds.
  destruct l as [|[|l]], c as [|[|c]]; done.
Qed.

(** With queries and keys that are zero, every score that is not
    masked is zero. *)
Lemma two_head_score x b h i k :
  score_value two_head_attention x b h i k
  = if (i <? k)%nat then NegInf else Fin 0.
Proof.
  unfold score_value, projected.
  cbn [two_head_attention d_head d_embed W_q W_k constant_linear weight bias
       in_features rsum].
  destruct (i <? k)%nat; cbn [xadd xdiv]; [done|].
  f_equal. unfold Rdiv. ring.
Qed.

(** Claim C3 fails on the code.  With one batch, two positions and two
    heads of width 1, two inputs that agree at position 0 and differ
    only at position 1 give different outputs at position 0: the
    reassembly [transpose(0, 1)] then [view] of [forward] lays the
    per-head results out head by head, so that the output row of
    position 0 holds what head 0 computed for position 1. *)
Theorem reassembly_leaks_later_position :
  exists o1 o2,
    forward two_head_attention zero_sequence = Ok o1
    /\ forward two_head_attention late_change_sequence = Ok o2
    /\ (forall c, (c < 2)%nat ->
          get zero_sequence [0; 0; c]%nat
          = get late_change_sequence [0; 0; c]%nat)
    /\ get o1 [0; 0; 1]%nat <> get o2 [0; 0; 1]%nat.
Proof.
  destruct (two_head_output zero_sequence eq_refl)
    as (w1 & o1 & _ & Ho1 & He1).
  destruct (two_head_output late_change_sequence eq_refl)
    as (w2 & o2 & Hw2 & Ho2 & He2).
  exists o1, o2. split; [done|]. split; [done|]. split.
  { intros c Hc.
    rewrite zero_sequence_entry, late_change_sequence_entry by lia. done. }
  rewrite He1, He2.
  rewrite !zero_sequence_entry, !late_change_sequence_entry by lia.
  assert (get w2 [0; 0; 1; 1]%nat <> 0) as Hne.
  { destruct (attentions_weights_value two_head_attention
                late_change_sequence 1 2 two_head_attention_wf eq_refl)
      as (w & Hw & _ & Hwv).
    rewrite Hw2 in Hw. injection Hw as <-.
    rewrite Hwv by (simpl; lia). apply Rgt_not_eq.
    apply (weight_value_largest_pos _ _ _ _ _ _ _ 0); [lia | |].
    - intros k Hk. rewrite !two_head_score.
      by destruct k as [|[|k]]; [apply xle_refl.. | lia].
    - by rewrite two_head_score. }
  lra.
Qed.

Lemma filter_length_mono {A} (p q : A -> bool) (l : list A) :
  (forall a, In a l -> p a = true -> q a = true) ->
  (length (List.filter p l) <= length (List.filter q l))%nat.
Proof.
  induction l as [|a l IH]; intros H; [done|]. cbn [List.filter].
  assert (length (List.filter p l) <= length (List.filter q l))%nat as IH'
    by (apply IH; intros; apply H; [by right | done]).
  destruct (p a) eqn:Hp.
  - rewrite (H a) by (by left || done). cbn [length]. lia.
  - destruct (q a); cbn [length]; lia.
Qed.

Lemma filter_length_pos {A} (p : A -> bool) (l : list A) a :
  In a l -> p a = true -> (1 <= length (List.filter p l))%nat.
Proof.
  induction l as [|a' l IH]; intros Hin Hp; [done|]. cbn [List.filter].
  destruct Hin as [->|Hin].
  - rewrite Hp. cbn [length]. lia.
  - destruct (p a'); cbn [length]; [lia | by apply IH].
Qed.

Lemma steep_attention_wf : wf steep_attention.
Proof. repeat split. Qed.

Lemma steep_sequence_entry l :
  (l < 2)%nat ->
  get steep_sequence [0; l; 0]%nat = match l with 1%nat => 11 | _ => 0 end.
Proof.
  intros Hl. unfold steep_sequence. rewrite get_from_fun by in_bounds.
  by destruct l as [|[|l]].
Qed.

(** The scores of the second position of [steep_sequence]: 0 against
    the first position, 121 against itself. *)
Lemma steep_scores :
  score_value steep_attention steep_sequence 0 0 1 0 = Fin 0
  /\ score_value steep_attention steep_sequence 0 0 1 1 = Fin 121.
Proof.
  unfold score_value, projected.
  cbn [steep_attention d_head d_embed W_q W_k identity_linear weight bias
       in_features rsum Nat.mul Nat.add Nat.eqb Nat.ltb Nat.leb].
  rewrite !steep_sequence_entry by lia.
  cbn [xadd xdiv INR]. rewrite sqrt_1. split; f_equal; field.
Qed.

(** Counterexample to claim C2 as stated: a row can have fewer
    non-zero weights than positions up to its own.  With one head of
    width 1 and identity projections, the sequence [0, 11] gives the
    second position the scores 0 and 121; the softmax takes the
    exponentials of [0 - 121] and [121 - 121], and the first underflows
    to exactly 0 in single precision.  Row 1 holds the weights 0 and 1:
    one non-zero entry, not two. *)
Lemma underflow_leaves_a_zero_weight :
  wf steep_attention
  /\ shape steep_sequence = [1; 2; d_embed steep_attention]%nat
  /\ exists s w,
       scores steep_attention steep_sequence = Ok s
       /\ attentions_weights steep_attention steep_sequence = Ok w
       /\ get s [0; 0; 1; 0]%nat = Fin 0
       /\ get s [0; 0; 1; 1]%nat = Fin 121
       /\ get w [0; 0; 1; 0]%nat = 0
       /\ get w [0; 0; 1; 1]%nat = 1
       /\ count_nonzero 2 (fun j => get w [0; 0; 1; j]%nat) = 1%nat
       /\ count_nonzero 2 (fun j => get w [0; 0; 1; j]%nat) <> (1 + 1)%nat.
Proof.
  split; [exact steep_attention_wf|]. split; [reflexivity|].
  destruct (scores_entry steep_attention steep_sequence 1 2
              steep_attention_wf eq_refl) as (s & Hs & _ & Hsv).
  destruct (attentions_weights_value steep_attention steep_sequence 1 2
              steep_attention_wf eq_refl) as (w & Hw & _ & Hwv).
  destruct steep_scores as (Hs0 & Hs1).
  exists s, w. split; [done|]. split; [done|].
  split; [rewrite Hsv by (simpl; lia); exact Hs0|].
  split; [rewrite Hsv by (simpl; lia); exact Hs1|].
  assert (xexp (Fin (0 - 121)) = 0) as Hlow.
  { cbn [xexp]. pose proof ln_2_upper.
    destruct (Rlt_dec (0 - 121) (-150 * ln 2)); [done | lra]. }
  assert (get w [0; 0; 1; 0]%nat = 0 /\ get w [0; 0; 1; 1]%nat = 1)
    as (Hw0 & Hw1).
  { rewrite !Hwv by (simpl; lia). unfold weight_value. cbn zeta.
    cbn [xmaximum rsum]. rewrite Hs0, Hs1. cbn [xmax xsub].
    rewrite (Rmax_right 0 121) by lra.
    replace (121 - 121) with 0 by ring. rewrite Hlow, xexp_0.
    split; field. }
  split; [done|]. split; [done|].
  assert (count_nonzero 2 (fun j => get w [0; 0; 1; j]%nat) = 1%nat) as Hc.
  { unfold count_nonzero. cbn [seq List.filter]. rewrite Hw0, Hw1.
    destruct (Req_dec_T 0 0) as [_|Hne]; [|done].
    destruct (Req_dec_T 1 0) as [H10|_]; [lra|done]. }
  split; [done|]. rewrite Hc. lia.
Qed.

(** Claim C2, as amended.  For every input of shape [[B; L; D]] with
    [D >= 1] the attention weights computed by [forward] (mask, scaling,
    softmax along the last axis) exist, and in each of their [L] by [L]
    matrices every entry is non-negative, every row sums to 1, and every
    entry after the diagonal is exactly zero.  Row [i] therefore has at
    most [i + 1] non-zero entries, all in the columns [0..i], and it has
    at least one.  It has exactly [i + 1] of them when the scores of
    row [i] up to the diagonal lie within 75 of each other; without
    such a bound an entry up to the diagonal can be zero, as for the
    scores 0 and 121.  (Sums are sums of real numbers.) *)
Theorem attention_weights_row_stochastic self x B L :
  wf self -> (1 <= d_embed self)%nat -> shape x = [B; L; d_embed self] ->
  exists s w, scores self x = Ok s /\ attentions_weights self x = Ok w
    /\ shape w = [B; num_head self; L; L]
    /\ forall b h i, (b < B)%nat -> (h < num_head self)%nat -> (i < L)%nat ->
         (forall j, (j < L)%nat -> 0 <= get w [b; h; i; j])
         /\ rsum L (fun j => get w [b; h; i; j]) = 1
         /\ (forall j, (j < L)%nat -> (i < j)%nat -> get w [b; h; i; j] = 0)
         /\ (exists j, (j <= i)%nat /\ get w [b; h; i; j] <> 0)
         /\ (1 <= count_nonzero L (fun j => get w [b; h; i; j]) <= i + 1)%nat
         /\ ((forall j k rj rk, (j <= i)%nat -> (k <= i)%nat ->
                get s [b; h; i; j] = Fin rj -> get s [b; h; i; k] = Fin rk ->
                rk - rj <= 75) ->
             (forall j, (j <= i)%nat -> get w [b; h; i; j] <> 0)
             /\ count_nonzero L (fun j => get w [b; h; i; j]) = (i + 1)%nat).
Proof.
  intros Hwf HD Hx.
  destruct (attentions_weights_entry self x B L Hwf Hx)
    as (s & w & Hs & Hw & Hsh & Hmask & Hent).
  exists s, w. do 3 (split; [done|]).
  intros b h i Hb Hh Hi.
  set (f := fun k => get s [b; h; i; k]).
  assert (forall k, (k < L)%nat ->
            exists r, f k = if (i <? k)%nat then NegInf else Fin r) as Hrow
    by (intros k Hk; by apply Hmask).
  destruct (causal_row_exponentials L f i Hi Hrow)
    as (HE0 & HEz & (k0 & Hk0 & HE1) & HS).
  pose (E := fun k => xexp (xsub (f k) (xmaximum L f))).
  change (forall k, 0 <= E k) in HE0.
  change (forall k, (k < L)%nat -> (i < k)%nat -> E k = 0) in HEz.
  change (E k0 = 1) in HE1. change (1 <= rsum L E) in HS.
  set (S := rsum L E) in *.
  assert (forall j, (j < L)%nat -> get w [b; h; i; j] = E j / S) as Hwj
    by (intros; by apply Hent).
  assert (forall j, (j < L)%nat -> (i < j)%nat -> get w [b; h; i; j] = 0)
    as Hzero.
  { intros j Hj Hlt. rewrite Hwj, HEz by done. unfold Rdiv. ring. }
  assert (get w [b; h; i; k0] <> 0) as Hk0nz.
  { rewrite Hwj, HE1 by lia. apply Rgt_not_eq. apply Rdiv_lt_0_compat; lra. }
  split; [|split; [|split; [|split; [|split]]]].
  - intros j Hj. rewrite Hwj by done.
    apply Rmult_le_pos; [apply HE0|]. left. apply Rinv_0_lt_compat. lra.
  - rewrite (rsum_ext L _ (fun j => E j / S)) by done.
    rewrite rsum_div. fold S. field. lra.
  - exact Hzero.
  - by exists k0.
  - unfold count_nonzero. split.
    + apply (filter_length_pos _ _ k0).
      * apply in_seq. lia.
      * by destruct (Req_dec_T (get w [b; h; i; k0]) 0).
    + etrans; [apply (filter_length_mono _ (fun j => j <=? i)%nat)|].
      * intros j Hj%in_seq Hnz. apply Nat.leb_le.
        destruct (le_lt_dec j i) as [|Hlt]; [done|].
        rewrite Hzero in Hnz by lia.
        by destruct (Req_dec_T 0 0).
      * rewrite filter_le_seq. lia.
  - intros Hreach.
    assert (forall j, (j <= i)%nat -> get w [b; h; i; j] <> 0) as Hnz.
    { intros j Hj. rewrite Hwj by lia. apply Rgt_not_eq.
      apply Rdiv_lt_0_compat; [|lra].
      by apply (causal_row_within_reach L f i Hi Hrow Hreach). }
    split; [exact Hnz|]. unfold count_nonzero.
    rewrite (List.filter_ext_in _ (fun j => j <=? i)%nat).
    + rewrite filter_le_seq. lia.
    + intros j Hj. apply in_seq in Hj.
      destruct (Req_dec_T (get w [b; h; i; j]) 0) as [Hz|Hnz'].
      * symmetry. apply Nat.leb_gt.
        destruct (le_lt_dec j i) as [Hle|]; [|done].
        by apply Hnz in Hle.
      * symmetry. apply Nat.leb_le.
        destruct (le_lt_dec j i) as [|Hlt]; [done|].
        exfalso. apply Hnz'. apply Hzero; lia.
Qed.

Lemma attention_weights_row_stochastic_witness :
  wf two_head_attention
  /\ (1 <= d_embed two_head_attention)%nat
  /\ shape late_change_sequence = [1; 2; d_embed two_head_attention]%nat
  /\ exists s w,
       scores two_head_attention late_change_sequence = Ok s
       /\ attentions_weights two_head_attention late_change_sequence = Ok w
       /\ shape w = [1; num_head two_head_attention; 2; 2]%nat
       /\ forall b h i, (b < 1)%nat -> (h < num_head two_head_attention)%nat ->
            (i < 2)%nat ->
            (forall j, (j < 2)%nat -> 0 <= get w [b; h; i; j])
            /\ rsum 2 (fun j => get w [b; h; i; j]) = 1
            /\ (forall j, (j < 2)%nat -> (i < j)%nat ->
                  get w [b; h; i; j] = 0)
            /\ (exists j, (j <= i)%nat /\ get w [b; h; i; j] <> 0)
            /\ (1 <= count_nonzero 2 (fun j => get w [b; h; i; j])
                <= i + 1)%nat
            /\ ((forall j k rj rk, (j <= i)%nat -> (k <= i)%nat ->
                   get s [b; h; i; j] = Fin rj ->
                   get s [b; h; i; k] = Fin rk -> rk - rj <= 75) ->
                (forall j, (j <= i)%nat -> get w [b; h; i; j] <> 0)
                /\ count_nonzero 2 (fun j => get w [b; h; i; j])
                   = (i + 1)%nat).
Proof.
  split; [exact two_head_attention_wf|]. split; [simpl; lia|].
  split; [reflexivity|].
  apply attention_weights_row_stochastic;
    [exact two_head_attention_wf | simpl; lia | reflexivity].
Defined.

(** Claim C5.  For an input of shape [[B; L; D]] with [D >= 1], let
    [Q] and [K] be the queries and keys [forward] computes, split into
    heads.  The score of query position [i] against key position [j] in
    any head, as it enters the softmax, is minus infinity for [j > i],
    and for [j <= i] it is the dot product of the head's query at [i]
    and key at [j] divided by the square root of [D], the full
    embedding width read from the last axis of the input.  The
    attention weights are the softmax of exactly these scores.  With
    more than one head this divisor differs from the square root of the
    per-head width. *)
Theorem scores_scaled_by_full_width self x B L D :
  wf self -> D = d_embed self -> (1 <= D)%nat -> shape x = [B; L; D] ->
  exists Q K V s,
    qkv self x B L = Ok (Q, K, V)
    /\ scores self x = Ok s
    /\ attentions_weights self x = Ok (softmax s)
    /\ (forall b h l d, (b < B)%nat -> (h < num_head self)%nat ->
          (l < L)%nat -> (d < d_head self)%nat ->
          get Q [b; h; l; d]
          = rsum D (fun c => get x [b; l; c]
                             * weight (W_q self) (h * d_head self + d) c)
            + bias (W_q self) (h * d_head self + d)
          /\ get K [b; h; l; d]
             = rsum D (fun c => get x [b; l; c]
                                * weight (W_k self) (h * d_head self + d) c)
               + bias (W_k self) (h * d_head self + d))
    /\ (forall b h i j, (b < B)%nat -> (h < num_head self)%nat ->
          (i < L)%nat -> (j < L)%nat ->
          get s [b; h; i; j]
          = if (i <? j)%nat then NegInf
            else Fin (rsum (d_head self)
                           (fun d => get Q [b; h; i; d] * get K [b; h; j; d])
                      / sqrt (INR D)))
    /\ ((1 < num_head self)%nat -> (0 < d_head self)%nat ->
        D = (num_head self * d_head self)%nat ->
        sqrt (INR D) <> sqrt (INR (d_head self))).
Proof.
  intros Hwf -> HD Hx.
  destruct (qkv_ok self x B L Hwf Hx)
    as (Q & K & V & Hqkv & HQ & HK & HV & HKl & Hent).
  destruct (masked_scores_spec Q K B _ L _ (d_embed self) HQ HK)
    as (p & s & Hp & Hs & Hsh & Hse).
  exists Q, K, V, s. split; [done|].
  assert (scores self x = Ok s) as Hscores
    by (unfold scores; by rewrite Hx, Hqkv).
  split; [done|]. split.
  { unfold attentions_weights. by rewrite Hscores. }
  destruct Hwf as (Hq & Hk & _). split; [|split].
  - intros b h l d Hb Hh Hl Hd.
    destruct (Hent b h l d) as (-> & -> & _); [done..|].
    unfold projected. by rewrite Hq, Hk.
  - intros b h i j Hb Hh Hi Hj.
    rewrite Hse, causal_mask_entry by done.
    rewrite (QKT_entry Q K B _ L _ p HQ HK HKl Hp) by done.
    destruct (i <? j)%nat; [done|]. cbn [xadd xdiv].
    by rewrite Rplus_0_r.
  - intros HH HDh HD' Heq.
    apply sqrt_inj in Heq; [|apply pos_INR..].
    apply INR_eq in Heq. nia.
Qed.

Lemma scores_scaled_by_full_width_witness :
  wf two_head_attention
  /\ 2%nat = d_embed two_head_attention
  /\ (1 <= 2)%nat
  /\ shape late_change_sequence = [1; 2; 2]%nat
  /\ exists Q K V s,
       qkv two_head_attention late_change_sequence 1 2 = Ok (Q, K, V)
       /\ scores two_head_attention late_change_sequence = Ok s
       /\ attentions_weights two_head_attention late_change_sequence
          = Ok (softmax s)
       /\ (forall b h l d, (b < 1)%nat ->
             (h < num_head two_head_attention)%nat ->
             (l < 2)%nat -> (d < d_head two_head_attention)%nat ->
             get Q [b; h; l; d]
             = rsum 2 (fun c =>
                 get late_change_sequence [b; l; c]
                 * weight (W_q two_head_attention)
                          (h * d_head two_head_attention + d) c)
               + bias (W_q two_head_attention)
                      (h * d_head two_head_attention + d)
             /\ get K [b; h; l; d]
                = rsum 2 (fun c =>
                    get late_change_sequence [b; l; c]
                    * weight (W_k two_head_attention)
                             (h * d_head two_head_attention + d) c)
                  + bias (W_k two_head_attention)
                         (h * d_head two_head_attention + d))
       /\ (forall b h i j, (b < 1)%nat ->
             (h < num_head two_head_attention)%nat ->
             (i < 2)%nat -> (j < 2)%nat ->
             get s [b; h; i; j]
             = if (i <? j)%nat then NegInf
               else Fin (rsum (d_head two_head_attention)
                              (fun d => get Q [b; h; i; d]
                                        * get K [b; h; j; d])
                         / sqrt (INR 2)))
       /\ ((1 < num_head two_head_attention)%nat ->
           (0 < d_head two_head_attention)%nat ->
           2%nat = (num_head two_head_attention
                    * d_head two_head_attention)%nat ->
           sqrt (INR 2) <> sqrt (INR (d_head two_head_attention))).
Proof.
  split; [exact two_head_attention_wf|]. split; [reflexivity|].
  split; [lia|]. split; [reflexivity|].
  apply scores_scaled_by_full_width;
    [exact two_head_attention_wf | reflexivity | lia | reflexivity].
Defined.

(** Counterexample to claim C4 as stated: the embedding width 10 is not
    divisible by the configured per-head width 4, yet construction
    succeeds (2 heads of width 5) and the first forward pass returns a
    tensor. *)
Lemma indivisible_width_is_accepted :
  (10 mod 4 <> 0)%Z
  /\ Init.selfAttention_init Init.indivisible_config = Ok indivisible_dims
  /\ exists out,
       forward (instantiate indivisible_dims zero_parameters) (full [1; 1; 10]%nat 0)
       = Ok out.
Proof.
  split; [done|]. split; [vm_compute; reflexivity|].
  set (self := instantiate indivisible_dims zero_parameters).
  set (x := full [1; 1; 10]%nat 0).
  assert (wf self) as Hwf by (repeat split).
  assert (shape x = [1; 1; d_embed self]%nat) as Hx by done.
  rewrite (forward_factor self x 1 1 _ Hx).
  destruct (head_outputs_ok self x 1 1 Hwf Hx)
    as (w & a & _ & -> & Hsh & Hst & _).
  rewrite bind_Ok.
  assert (merge_heads self 1 1 a
          = Ok {| shape := [1; 1; 10]%nat; strides := [10; 10; 1]%nat;
                  storage := storage a |}) as ->.
  { unfold merge_heads, transpose. rewrite Hsh.
    change (wrap_dim _ 0) with (Ok 0%nat).
    change (wrap_dim _ 1) with (Ok 1%nat).
    rewrite !bind_Ok. unfold view. cbn [shape strides]. rewrite Hst.
    reflexivity. }
  rewrite bind_Ok.
  edestruct (Linear_forward_3d (W_o self)
               {| shape := [1; 1; 10]%nat; strides := [10; 10; 1]%nat;
                  storage := storage a |} 1 1 10)
    as (out & -> & _); [done | done |].
  by exists out.
Qed.

End AttentionFacts.

(** ** The transformer block *)

Module BlockFacts.
Import Torch TorchFacts Block.

(** Claim C6.  [Transformer.forward] returns [out] on [x] exactly when
    [out = rmsnorm2(y + mlp(y))] for [y = rmsnorm1(x + attention(x))]:
    attention, residual addition, normalisation, feed-forward, residual
    addition, normalisation, in this order and no other. *)
Theorem Transformer_forward_is_post_norm self x out :
  Transformer_forward self x = Ok out <-> post_norm self x out.
Proof.
  unfold Transformer_forward, post_norm. split.
  - intros H.
    apply bind_Ok_inv in H as (a & Ha & H).
    apply bind_Ok_inv in H as (s & Hs & H).
    apply bind_Ok_inv in H as (y & Hy & H).
    apply bind_Ok_inv in H as (f & Hf & H).
    apply bind_Ok_inv in H as (s' & Hs' & H).
    apply bind_Ok_inv in H as (o & Ho & H).
    injection H as <-. by exists a, s, y, f, s'.
  - intros (a & s & y & f & s' & -> & Hs & Hy & Hf & Hs' & Ho).
    cbn. rewrite Hs. cbn. rewrite Hy. cbn. rewrite Hf. cbn.
    rewrite Hs'. cbn. rewrite Ho. done.
Qed.

End BlockFacts.

(** ** The positional encoding *)

Module PositionalFacts.
Import Torch TorchFacts Positional.
Local Open Scope R_scope.

Lemma position_times_div_term max_len (c : nat) (div_term : tensor R) :
  shape div_term = [c] ->
  exists angles,
    broadcast2 Rmult (unsqueeze (arange max_len) 1) div_term = Ok angles
    /\ shape angles = [max_len; c]
    /\ forall i j, (i < max_len)%nat -> (j < c)%nat ->
         get angles [i; j] = INR i * get div_term [j].
Proof.
  intros Hd. unfold broadcast2. rewrite Hd.
  change (rev (shape (unsqueeze (arange max_len) 1))) with [1%nat; max_len].
  assert (broadcast_rev [1%nat; max_len] (rev [c]) = Ok [c; max_len]) as ->.
  { cbn [rev app broadcast_rev]. rewrite bind_Ok.
    destruct (Nat.eqb_spec 1 c) as [Heq|]; [by subst c|done]. }
  rewrite bind_Ok. eexists. split; [done|]. split; [done|].
  intros i j Hi Hj. cbn [rev app].
  rewrite get_from_fun by in_bounds.
  unfold operand_index.
  change (rev (shape (unsqueeze (arange max_len) 1))) with [1%nat; max_len].
  cbn [rev app operand_index_rev Nat.eqb].
  f_equal.
  - assert ((if max_len =? 1 then 0 else i)%nat = i) as ->.
    { destruct (Nat.eqb_spec max_len 1); lia. }
    change (get (unsqueeze (arange max_len) 1) [i; 0%nat])
      with (storage (arange max_len) (i * 1 + (0 * 1 + 0))).
    replace (i * 1 + (0 * 1 + 0))%nat with (offset [i] (strides (arange max_len)))
      by (simpl; lia).
    change (storage (arange max_len) (offset [i] (strides (arange max_len))))
      with (get (arange max_len) [i]).
    unfold arange. by rewrite get_from_fun by in_bounds.
  - assert ((if c =? 1 then 0 else j)%nat = j) as ->.
    { destruct (Nat.eqb_spec c 1); lia. }
    done.
Qed.

Lemma even_half D : Nat.Even D -> ((D + 1) / 2 = (D + 1 - 1) / 2)%nat.
Proof.
  intros [m ->]. replace (2 * m + 1 - 1)%nat with (m * 2)%nat by lia.
  rewrite Nat.div_mul by lia.
  replace (2 * m + 1)%nat with (1 + m * 2)%nat by lia.
  rewrite Nat.div_add by lia. done.
Qed.

Lemma setitem_cols_entry pe start src M D n :
  shape pe = [M; D] -> shape src = [M; n] -> n = ((D + 1 - start) / 2)%nat ->
  exists pe', setitem_cols pe start src = Ok pe'
    /\ shape pe' = [M; D]
    /\ forall i j, (i < M)%nat -> (j < D)%nat ->
         get pe' [i; j]
         = if ((start <=? j) && ((j - start) mod 2 =? 0))%nat
           then get src [i; ((j - start) / 2)%nat]
           else get pe [i; j].
Proof.
  intros Hpe Hsrc Hn. unfold setitem_cols. rewrite Hpe, Hsrc.
  rewrite <- Hn, !Nat.eqb_refl. cbn [orb andb].
  eexists. split; [done|]. split; [done|].
  intros i j Hi Hj. rewrite get_from_fun by in_bounds.
  destruct ((start <=? j) && ((j - start) mod 2 =? 0))%nat eqn:Hsel; [|done].
  apply andb_prop in Hsel as [Hle _]. apply Nat.leb_le in Hle.
  rewrite !stretch_index; [done| |done].
  subst n. apply Nat.Div0.div_lt_upper_bound.
  pose proof (Nat.Div0.div_mod (D + 1 - start) 2) as Hdm.
  pose proof (Nat.mod_upper_bound (D + 1 - start) 2). lia.
Qed.

Lemma table_position_zero max_len D :
  (1 <= max_len)%nat -> Nat.Even D -> D <> 0%nat ->
  exists pe, table max_len D = Ok pe
    /\ shape pe = [1; max_len; D]%nat
    /\ forall k, (k < D)%nat ->
         get pe [0; 0; k]%nat = if Nat.even k then 0 else 1.
Proof.
  intros Hlen Heven HD. unfold table.
  destruct (Nat.eqb_spec D 0) as [|_]; [done|].
  set (div_term := tmap exp _).
  destruct (position_times_div_term max_len ((D + 1) / 2) div_term eq_refl)
    as (angles & -> & Hsh & Hang).
  rewrite !bind_Ok.
  destruct (setitem_cols_entry (full [max_len; D] 0) 0 (tmap sin angles)
              max_len D ((D + 1) / 2))
    as (pe1 & -> & Hsh1 & Hpe1); [done | done | by rewrite Nat.sub_0_r |].
  rewrite !bind_Ok.
  destruct (setitem_cols_entry pe1 1 (tmap cos angles)
              max_len D ((D + 1) / 2))
    as (pe2 & -> & Hsh2 & Hpe2); [done | done | by apply even_half |].
  rewrite bind_Ok. eexists. split; [done|].
  split; [cbn; by rewrite Hsh2|].
  intros k Hk.
  change (get (unsqueeze pe2 0) [0; 0; k]%nat) with (get pe2 [0; k]%nat).
  rewrite Hpe2 by lia.
  assert (forall q, (q < (D + 1) / 2)%nat ->
            get (tmap sin angles) [0%nat; q] = 0
            /\ get (tmap cos angles) [0%nat; q] = 1) as Hrow.
  { intros q Hq. unfold tmap. rewrite Hsh.
    rewrite !get_from_fun by in_bounds.
    rewrite Hang by lia. simpl INR. rewrite Rmult_0_l.
    split; [apply sin_0 | apply cos_0]. }
  assert (forall j, (j < D)%nat -> (j / 2 < (D + 1) / 2)%nat) as Hhalf.
  { intros j Hj. destruct Heven as [m ->].
    replace (2 * m + 1)%nat with (1 + m * 2)%nat by lia.
    rewrite Nat.div_add by lia. simpl (1 / 2)%nat.
    apply Nat.Div0.div_lt_upper_bound. lia. }
  destruct (Nat.even k) eqn:Hev.
  - apply Nat.even_spec in Hev as [m ->].
    assert (((1 <=? 2 * m) && ((2 * m - 1) mod 2 =? 0))%nat = false) as ->.
    { destruct m as [|m]; [done|].
      replace (2 * S m - 1)%nat with (1 + m * 2)%nat by lia.
      rewrite Nat.Div0.mod_add. change (1 mod 2 =? 0)%nat with false.
      apply andb_false_r. }
    rewrite Hpe1 by lia.
    replace (2 * m - 0)%nat with (m * 2)%nat by lia.
    rewrite Nat.Div0.mod_mul. cbn [Nat.leb Nat.eqb andb].
    apply Hrow. rewrite <- (Nat.mul_comm 2 m). apply Hhalf. lia.
  - assert (Nat.odd k = true) as Hodd.
    { rewrite <- Nat.negb_even, Hev. done. }
    apply Nat.odd_spec in Hodd as [m ->].
    assert (((1 <=? 2 * m + 1) && ((2 * m + 1 - 1) mod 2 =? 0))%nat = true)
      as ->.
    { replace (2 * m + 1 - 1)%nat with (m * 2)%nat by lia.
      rewrite Nat.Div0.mod_mul.
      destruct (Nat.leb_spec 1 (2 * m + 1)); [done|lia]. }
    apply Hrow. eapply Nat.le_lt_trans; [|apply (Hhalf (2 * m + 1)%nat Hk)].
    apply Nat.Div0.div_le_mono. lia.
Qed.

(** Claim C9.  For every even embedding width [D] and maximum length of
    at least 1, the row for position 0 of the table built by
    [PositionalEncoding.__init__] holds 0 at every even index (the sines)
    and 1 at every odd index (the cosines); the table is built whenever
    [D] is not 0.  (For [D = 0] the constructor divides by zero and there
    is no table.) *)
Theorem position_zero_is_sine_zero_cosine_one config max_len D :
  config !! "max_len" = Some (Z.of_nat max_len) ->
  config !! "d_embed" = Some (Z.of_nat D) ->
  (1 <= max_len)%nat -> Nat.Even D ->
  (D <> 0%nat -> exists pe, PositionalEncoding_init config = Ok pe)
  /\ forall pe, PositionalEncoding_init config = Ok pe ->
       shape pe = [1; max_len; D]%nat
       /\ forall k, (k < D)%nat ->
            get pe [0; 0; k]%nat = if Nat.even k then 0 else 1.
Proof.
  intros Hm Hd Hlen Heven.
  assert (PositionalEncoding_init config = table max_len D) as ->.
  { unfold PositionalEncoding_init, getitem. rewrite Hm, Hd, !bind_Ok.
    destruct (Z.ltb_spec (Z.of_nat max_len) 0); [lia|].
    destruct (Z.ltb_spec (Z.of_nat D) 0); [lia|].
    cbn [orb]. by rewrite !Nat2Z.id. }
  destruct (decide (D = 0%nat)) as [->|HD].
  - split; [done|]. intros pe Hpe. discriminate Hpe.
  - destruct (table_position_zero max_len D Hlen Heven HD)
      as (pe0 & Hpe0 & Hsh & Hrow).
    split; [by exists pe0|].
    intros pe Hpe. rewrite Hpe0 in Hpe. by injection Hpe as <-.
Qed.

Lemma position_zero_is_sine_zero_cosine_one_witness :
  Init.notebook_config 65 !! "max_len" = Some (Z.of_nat 2048)
  /\ Init.notebook_config 65 !! "d_embed" = Some (Z.of_nat 64)
  /\ (1 <= 2048)%nat /\ Nat.Even 64
  /\ (64%nat <> 0%nat ->
      exists pe, PositionalEncoding_init (Init.notebook_config 65) = Ok pe)
  /\ forall pe, PositionalEncoding_init (Init.notebook_config 65) = Ok pe ->
       shape pe = [1; 2048; 64]%nat
       /\ forall k, (k < 64)%nat ->
            get pe [0; 0; k]%nat = if Nat.even k then 0 else 1.
Proof.
  assert (Nat.Even 64) as Heven by (exists 32%nat; reflexivity).
  split; [reflexivity|]. split; [reflexivity|]. split; [lia|].
  split; [exact Heven|].
  apply position_zero_is_sine_zero_cosine_one;
    [reflexivity | reflexivity | lia | exact Heven].
Defined.

End PositionalFacts.

(** ** Sampling *)

Module SamplingFacts.
Import Torch TorchFacts Sampling.

Example tokenizer_of_abba :
  let t := Tokenizer_init [97; 98; 98; 97]%N in
  vocab_size t = 2
  /\ encode t [98; 97]%N = Ok [1; 0]
  /\ decode t [0; 1; 1] = Ok [97; 98; 98]%N
  /\ encode t [99]%N = Raise KeyError.
Proof. repeat split. Qed.

Lemma argmax_from_lt l i best bestv :
  best < i -> argmax_from l i best bestv < i + length l.
Proof.
  revert i best bestv. induction l as [|v l IH]; intros i best bestv Hb.
  - simpl. lia.
  - simpl. destruct (Rlt_dec bestv v).
    + specialize (IH (S i) i v). lia.
    + specialize (IH (S i) best bestv). lia.
Qed.

Lemma argmax_lt l j : argmax l = Ok j -> j < length l.
Proof.
  destruct l as [|v l]; [done|]. intros [= <-].
  pose proof (argmax_from_lt l 1 0 v). simpl. lia.
Qed.




Section Inference.
Context {rng : Type}.
Variable multinomial : list R -> rng -> nat * rng.
Variable LLM : list nat -> result (tensor R).





End Inference.

(** Claim C10.  The string returned by [inference] does not depend on
    its [model] argument: the loop calls the global [LLM], and the
    argument is only put in evaluation mode.  The generator and the
    printed output do not depend on it either. *)
Theorem inference_ignores_model_argument {rng}
    (multinomial : list R -> rng -> nat * rng)
    (LLM : list nat -> result (tensor R))
    (m1 m2 : nat) tokenizer prompt n top_k w :
  fst (inference multinomial LLM m1 tokenizer prompt n top_k w)
  = fst (inference multinomial LLM m2 tokenizer prompt n top_k w)
  /\ generator (snd (inference multinomial LLM m1 tokenizer prompt n top_k w))
     = generator (snd (inference multinomial LLM m2 tokenizer prompt n top_k w))
  /\ stdout (snd (inference multinomial LLM m1 tokenizer prompt n top_k w))
     = stdout (snd (inference multinomial LLM m2 tokenizer prompt n top_k w)).
Proof.
  unfold inference.
  destruct (encode tokenizer prompt) as [ids|e]; [|done].
  change (generator (eval m1 w)) with (generator w).
  change (generator (eval m2 w)) with (generator w).
  destruct (loop multinomial LLM n top_k ids (generator w)) as [[toks|e] g];
    done.
Qed.

End SamplingFacts.

(** ** The tokenizer *)

Module TokenizerFacts.
Import Torch TorchFacts Sampling Vocabulary.

Lemma mapM_Ok {A B} (f : A -> result B) l k :
  mapM f l = Ok k <-> Forall2 (fun a b => f a = Ok b) l k.
Proof.
  revert k. induction l as [|a l IH]; intros k; cbn [mapM].
  - split; [intros [= <-]; constructor | by inversion 1].
  - split.
    + intros (b & Hb & H)%bind_Ok_inv.
      apply bind_Ok_inv in H as (k' & Hk' & [= <-]).
      constructor; [done | by apply IH].
    + inversion 1 as [|? b ? k' Hb Hk']; subst.
      rewrite Hb, bind_Ok. apply IH in Hk'. by rewrite Hk', bind_Ok.
Qed.

(** A comprehension that raises does so at one of its elements. *)
Lemma mapM_Raise_inv {A B} (f : A -> result B) l e :
  mapM f l = Raise e -> exists a, a ∈ l /\ f a = Raise e.
Proof.
  induction l as [|x l IH]; cbn [mapM]; [done|].
  destruct (f x) as [b|e'] eqn:Hx.
  - rewrite bind_Ok. destruct (mapM f l) as [k|e'] eqn:Hl; [done|].
    intros [= ->]. destruct (IH eq_refl) as (a & Ha & Hfa).
    exists a. split; [by right | done].
  - intros [= ->]. exists x. split; [by left | done].
Qed.

(** A comprehension whose body succeeds on every element succeeds. *)
Lemma mapM_total {A B} (f : A -> result B) l :
  (forall a, a ∈ l -> exists b, f a = Ok b) -> exists k, mapM f l = Ok k.
Proof.
  intros H. destruct (mapM f l) as [k|e] eqn:E; [by exists k|].
  apply mapM_Raise_inv in E as (a & Ha & Hfa).
  destruct (H a Ha) as (b & Hb). congruence.
Qed.

(** [d[k]] returns the value stored under [k], and raises [KeyError]
    when there is none. *)
Lemma subscript_Ok `{Countable K} {A} (d : gmap K A) k v :
  subscript d k = Ok v <-> d !! k = Some v.
Proof. unfold subscript. destruct (d !! k); split; congruence. Qed.

Lemma subscript_Raise `{Countable K} {A} (d : gmap K A) k e :
  subscript d k = Raise e <-> d !! k = None /\ e = KeyError.
Proof.
  unfold subscript. destruct (d !! k); split; try done.
  - by intros [? _].
  - by intros [= <-].
  - by intros [_ ->].
Qed.

(** [chars] holds each character of the data set once. *)
Lemma chars_NoDup dataset : NoDup (chars dataset).
Proof.
  unfold chars. rewrite merge_sort_Permutation. apply NoDup_remove_dups.
Qed.

Lemma elem_of_chars dataset c : c ∈ chars dataset <-> c ∈ dataset.
Proof.
  unfold chars. rewrite merge_sort_Permutation. apply elem_of_remove_dups.
Qed.

(** The two dictionaries are the list [chars] and its inverse. *)
Lemma idx2char_lookup dataset i :
  idx2char (Tokenizer_init dataset) !! i = chars dataset !! i.
Proof.
  unfold Tokenizer_init. cbn [idx2char]. fold (chars dataset).
  by rewrite list_to_map_zip_seq, lookup_map_seq_0.
Qed.

Lemma char2idx_lookup dataset c i :
  char2idx (Tokenizer_init dataset) !! c = Some i
  <-> chars dataset !! i = Some c.
Proof.
  unfold Tokenizer_init. cbn [char2idx]. fold (chars dataset).
  rewrite <- elem_of_list_to_map.
  - rewrite list_elem_of_lookup. setoid_rewrite lookup_zip_Some.
    setoid_rewrite lookup_seq. split.
    + by intros (j & H & -> & _).
    + intros H. exists i. repeat split; try done.
      by apply lookup_lt_Some in H.
  - rewrite fst_zip by (by rewrite length_seq). apply chars_NoDup.
Qed.

(** [encode] and [decode] in terms of the list [chars]. *)
Lemma encode_tokens_of dataset text ids :
  encode (Tokenizer_init dataset) text = Ok ids <-> tokens_of dataset text ids.
Proof.
  unfold encode, tokens_of. rewrite mapM_Ok.
  assert (forall c i, subscript (char2idx (Tokenizer_init dataset)) c = Ok i
                      <-> chars dataset !! i = Some c) as Heq.
  { intros c i. rewrite subscript_Ok. apply char2idx_lookup. }
  split; intros H; (eapply Forall2_impl; [exact H|]); intros c i Hi;
    by apply Heq.
Qed.

Lemma decode_tokens_of dataset text ids :
  decode (Tokenizer_init dataset) ids = Ok text <-> tokens_of dataset text ids.
Proof.
  unfold decode, tokens_of. rewrite mapM_Ok.
  assert (forall c i, subscript (idx2char (Tokenizer_init dataset)) i = Ok c
                      <-> chars dataset !! i = Some c) as Heq.
  { intros c i. by rewrite subscript_Ok, idx2char_lookup. }
  split; intros H; apply Forall2_flip; (eapply Forall2_impl; [exact H|]);
    intros ? ? Hi; by apply Heq.
Qed.

(** Texts over the data set and lists of valid indices have
    counterparts. *)
Lemma tokens_of_known dataset text :
  (forall c, c ∈ text -> c ∈ dataset) -> exists ids, tokens_of dataset text ids.
Proof.
  intros Hin.
  destruct (mapM_total (subscript (char2idx (Tokenizer_init dataset))) text)
    as (ids & Hids).
  { intros c Hc. apply Hin in Hc. rewrite <- elem_of_chars in Hc.
    apply list_elem_of_lookup in Hc as (i & Hi).
    exists i. by apply subscript_Ok, char2idx_lookup. }
  exists ids. by apply encode_tokens_of.
Qed.

Lemma tokens_of_valid dataset ids :
  Forall (fun i => i < vocab_size (Tokenizer_init dataset)) ids ->
  exists text, tokens_of dataset text ids.
Proof.
  intros Hlt.
  destruct (mapM_total (subscript (idx2char (Tokenizer_init dataset))) ids)
    as (text & Htext).
  { intros i Hi. rewrite Forall_forall in Hlt. apply Hlt in Hi.
    apply lookup_lt_is_Some in Hi as (c & Hc).
    exists c. apply subscript_Ok. by rewrite idx2char_lookup. }
  exists text. by apply decode_tokens_of.
Qed.

(** Related texts and index lists have the same length, the indices
    are below [vocab_size], and the characters are of the data set. *)
Lemma tokens_of_bounds dataset text ids :
  tokens_of dataset text ids ->
  length ids = length text
  /\ Forall (fun i => i < vocab_size (Tokenizer_init dataset)) ids
  /\ forall c, c ∈ text -> c ∈ dataset.
Proof.
  intros H. split; [symmetry; by eapply Forall2_length|]. split.
  - apply Forall2_Forall_r with (1 := H). apply Forall_forall.
    intros c _ i Hi. by apply lookup_lt_Some in Hi.
  - intros c Hc. apply list_elem_of_lookup in Hc as (n & Hn).
    destruct (Forall2_lookup_l _ _ _ _ _ H Hn) as (i & _ & Hi).
    apply list_elem_of_lookup_2 in Hi. by rewrite elem_of_chars in Hi.
Qed.

(** X1.  Round trip through the tokenizer.  For the tokenizer built
    from [dataset], every text whose characters all occur in [dataset]
    is encoded, into as many indices as it has characters, all below
    [vocab_size], and decoding these indices gives the text back. *)
Theorem decode_encode dataset text :
  (forall c, c ∈ text -> c ∈ dataset) ->
  exists ids, encode (Tokenizer_init dataset) text = Ok ids
    /\ length ids = length text
    /\ Forall (fun i => i < vocab_size (Tokenizer_init dataset)) ids
    /\ decode (Tokenizer_init dataset) ids = Ok text.
Proof.
  intros Hin. destruct (tokens_of_known dataset text Hin) as (ids & Hids).
  destruct (tokens_of_bounds _ _ _ Hids) as (Hlen & Hlt & _).
  exists ids. split; [by apply encode_tokens_of|].
  split; [done|]. split; [done|]. by apply decode_tokens_of.
Qed.

Lemma decode_encode_witness :
  (forall c, c ∈ [98%N; 97%N] -> c ∈ [97%N; 98%N; 98%N; 97%N])
  /\ exists ids,
       encode (Tokenizer_init [97%N; 98%N; 98%N; 97%N]) [98%N; 97%N] = Ok ids
    /\ length ids = 2
    /\ Forall (fun i => i < vocab_size (Tokenizer_init [97%N; 98%N; 98%N; 97%N]))
              ids
    /\ decode (Tokenizer_init [97%N; 98%N; 98%N; 97%N]) ids = Ok [98%N; 97%N].
Proof.
  assert (forall c, c ∈ [98%N; 97%N] -> c ∈ [97%N; 98%N; 98%N; 97%N]) as H.
  { apply Forall_forall. apply (bool_decide_unpack _). by vm_compute. }
  split; [exact H|]. exact (decode_encode _ _ H).
Defined.

(** X2.  [encode] raises [KeyError] on every text that holds a
    character which does not occur in the data set the tokenizer was
    built from. *)
Theorem encode_unknown_character dataset text c :
  c ∈ text -> c ∉ dataset ->
  encode (Tokenizer_init dataset) text = Raise KeyError.
Proof.
  intros Hc Hnot.
  destruct (encode _ text) as [ids|e] eqn:E.
  - apply encode_tokens_of, tokens_of_bounds in E as (_ & _ & Hin).
    by apply Hin in Hc.
  - apply mapM_Raise_inv in E as (a & _ & Ha).
    apply subscript_Raise in Ha as [_ ->]. done.
Qed.

Lemma encode_unknown_character_witness :
  99%N ∈ [98%N; 99%N] /\ (99%N ∉ [97%N; 98%N; 98%N; 97%N])
  /\ encode (Tokenizer_init [97%N; 98%N; 98%N; 97%N]) [98%N; 99%N]
     = Raise KeyError.
Proof.
  assert (99%N ∈ [98%N; 99%N]) as H1
    by (apply (bool_decide_unpack _); by vm_compute).
  assert (99%N ∉ [97%N; 98%N; 98%N; 97%N]) as H2
    by (apply (bool_decide_unpack _); by vm_compute).
  split; [exact H1|]. split; [exact H2|].
  exact (encode_unknown_character _ _ _ H1 H2).
Defined.

(** X3.  The round trip in the other direction.  A list of indices
    below [vocab_size] is decoded, into as many characters, all of the
    data set, and encoding the result gives the indices back. *)
Theorem encode_decode dataset ids :
  Forall (fun i => i < vocab_size (Tokenizer_init dataset)) ids ->
  exists text, decode (Tokenizer_init dataset) ids = Ok text
    /\ length text = length ids
    /\ (forall c, c ∈ text -> c ∈ dataset)
    /\ encode (Tokenizer_init dataset) text = Ok ids.
Proof.
  intros Hlt. destruct (tokens_of_valid dataset ids Hlt) as (text & Htext).
  destruct (tokens_of_bounds _ _ _ Htext) as (Hlen & _ & Hin).
  exists text. split; [by apply decode_tokens_of|].
  split; [done|]. split; [done|]. by apply encode_tokens_of.
Qed.

Lemma encode_decode_witness :
  Forall (fun i => i < vocab_size (Tokenizer_init [97%N; 98%N; 98%N; 97%N]))
         [1; 0; 1]
  /\ exists text, decode (Tokenizer_init [97%N; 98%N; 98%N; 97%N]) [1; 0; 1]
                  = Ok text
    /\ length text = 3
    /\ (forall c, c ∈ text -> c ∈ [97%N; 98%N; 98%N; 97%N])
    /\ encode (Tokenizer_init [97%N; 98%N; 98%N; 97%N]) text = Ok [1; 0; 1].
Proof.
  assert (Forall (fun i => i < vocab_size
                                (Tokenizer_init [97%N; 98%N; 98%N; 97%N]))
                 [1; 0; 1]) as H
    by (apply (bool_decide_unpack _); by vm_compute).
  split; [exact H|]. exact (encode_decode _ _ H).
Defined.

(** X4.  [decode] raises [KeyError] on every list that holds an index
    which is not below [vocab_size]. *)
Theorem decode_unknown_index dataset ids i :
  i ∈ ids -> vocab_size (Tokenizer_init dataset) <= i ->
  decode (Tokenizer_init dataset) ids = Raise KeyError.
Proof.
  intros Hi Hge.
  destruct (decode _ ids) as [text|e] eqn:E.
  - apply decode_tokens_of, tokens_of_bounds in E as (_ & Hlt & _).
    rewrite Forall_forall in Hlt. apply Hlt in Hi. lia.
  - apply mapM_Raise_inv in E as (a & _ & Ha).
    apply subscript_Raise in Ha as [_ ->]. done.
Qed.

Lemma decode_unknown_index_witness :
  2 ∈ [0; 2] /\ vocab_size (Tokenizer_init [97%N; 98%N; 98%N; 97%N]) <= 2
  /\ decode (Tokenizer_init [97%N; 98%N; 98%N; 97%N]) [0; 2] = Raise KeyError.
Proof.
  assert (2 ∈ [0; 2]) as H1 by (apply (bool_decide_unpack _); by vm_compute).
  assert (vocab_size (Tokenizer_init [97%N; 98%N; 98%N; 97%N]) <= 2) as H2
    by (vm_compute; lia).
  split; [exact H1|]. split; [exact H2|].
  exact (decode_unknown_index _ _ _ H1 H2).
Defined.

(** [chars] is strictly increasing. *)
Lemma StronglySorted_lookup_lt {A} (R : relation A) l i j x y :
  StronglySorted R l -> l !! i = Some x -> l !! j = Some y -> i < j -> R x y.
Proof.
  intros Hs. revert i j. induction Hs as [|a l Hs IH Hall]; intros i j Hi Hj Hlt.
  - done.
  - destruct j as [|j]; [lia|]. destruct i as [|i]; simplify_eq/=.
    + rewrite Forall_forall in Hall. apply Hall.
      by eapply list_elem_of_lookup_2.
    + apply (IH i j); [done..|lia].
Qed.

Lemma chars_sorted dataset : StronglySorted N.le (chars dataset).
Proof. apply StronglySorted_merge_sort; apply _. Qed.

Lemma chars_increasing dataset i j x y :
  chars dataset !! i = Some x -> chars dataset !! j = Some y ->
  i < j -> (x < y)%N.
Proof.
  intros Hi Hj Hlt.
  pose proof (StronglySorted_lookup_lt _ _ _ _ _ _ (chars_sorted dataset)
                Hi Hj Hlt).
  assert (x <> y); [|lia].
  intros ->.
  pose proof (NoDup_lookup _ _ _ _ (chars_NoDup dataset) Hi Hj). lia.
Qed.

(** X5.  The indices follow the order of the code points: of two
    characters of the data set the smaller one has the smaller index,
    and only equal characters have equal indices. *)
Theorem char2idx_order dataset c1 c2 :
  c1 ∈ dataset -> c2 ∈ dataset ->
  exists i1 i2,
    encode (Tokenizer_init dataset) [c1; c2] = Ok [i1; i2]
    /\ ((c1 < c2)%N <-> i1 < i2) /\ (c1 = c2 <-> i1 = i2).
Proof.
  intros H1 H2. rewrite <- elem_of_chars in H1, H2.
  apply list_elem_of_lookup in H1 as (i1 & H1).
  apply list_elem_of_lookup in H2 as (i2 & H2).
  exists i1, i2. split.
  { apply encode_tokens_of. by repeat constructor. }
  destruct (lt_eq_lt_dec i1 i2) as [[Hlt| ->]|Hgt].
  - pose proof (chars_increasing _ _ _ _ _ H1 H2 Hlt). split; split; lia.
  - simplify_eq. split; split; (done || lia).
  - pose proof (chars_increasing _ _ _ _ _ H2 H1 Hgt). split; split; lia.
Qed.

Lemma char2idx_order_witness :
  98%N ∈ [98%N; 97%N] /\ 97%N ∈ [98%N; 97%N]
  /\ exists i1 i2,
    encode (Tokenizer_init [98%N; 97%N]) [98%N; 97%N] = Ok [i1; i2]
    /\ ((98 < 97)%N <-> i1 < i2) /\ (98%N = 97%N <-> i1 = i2).
Proof.
  assert (98%N ∈ [98%N; 97%N]) as H1
    by (apply (bool_decide_unpack _); by vm_compute).
  assert (97%N ∈ [98%N; 97%N]) as H2
    by (apply (bool_decide_unpack _); by vm_compute).
  split; [exact H1|]. split; [exact H2|].
  exact (char2idx_order _ _ _ H1 H2).
Defined.

End TokenizerFacts.

(** ** Attention on a single batch, and widths the heads do not fill *)

Module HeadsFacts.
Import Torch TorchFacts Attention AttentionFacts Heads InitFacts.

(** The reassembly of a batch of two or more sequences is refused by
    [view]. *)
Lemma merge_heads_exchanged_raises self B L a :
  2 <= B -> 2 <= num_head self -> 1 <= d_head self -> 1 <= L ->
  B <> num_head self ->
  shape a = [B; num_head self; L; d_head self] ->
  strides a = contiguous_strides [B; num_head self; L; d_head self] ->
  merge_heads self B L a = Raise RuntimeError.
Proof.
  intros HB HH HDh HL Hne Hsh Hst.
  unfold merge_heads, transpose. rewrite Hsh.
  change (wrap_dim _ 0) with (Ok 0%nat).
  change (wrap_dim _ 1) with (Ok 1%nat).
  rewrite !bind_Ok. unfold view.
  cbn [shape strides swap lookup list_lookup insert list_insert].
  rewrite Hst.
  cbn [contiguous_strides swap lookup list_lookup insert list_insert
       span foldr].
  rewrite !Nat.max_l by lia. rewrite !Nat.mul_1_r.
  assert (numel [B; L; (num_head self * d_head self)%nat]
          = numel [num_head self; B; L; d_head self]) as ->
    by (cbn [numel foldr]; lia).
  rewrite Nat.eqb_refl, computeStride_exchanged by done. done.
Qed.

(** A place in the storage of the per-head results, split into head,
    position and component. *)
Lemma flat_index_split q L Dh H :
  0 < L -> 0 < Dh -> q < H * (L * Dh) ->
  q / (L * Dh) < H /\ q / Dh mod L < L /\ q mod Dh < Dh
  /\ (q / (L * Dh) * L + q / Dh mod L) * Dh + q mod Dh = q.
Proof.
  intros HL HDh Hq.
  split; [apply Nat.Div0.div_lt_upper_bound; lia|].
  split; [apply Nat.mod_upper_bound; lia|].
  split; [apply Nat.mod_upper_bound; lia|].
  rewrite (Nat.mul_comm L Dh), <- Nat.Div0.div_div.
  pose proof (Nat.div_mod_eq q Dh).
  pose proof (Nat.div_mod_eq (q / Dh) L). nia.
Qed.

Local Open Scope R_scope.

(** The output of [forward] on a single batch: the output layer
    applied to the rows of the reassembled tensor. *)
Lemma forward_single_batch_value self x L :
  wf self -> d_embed self = (num_head self * d_head self)%nat ->
  shape x = [1; L; d_embed self]%nat ->
  exists out, forward self x = Ok out
    /\ shape out = [1; L; d_embed self]%nat
    /\ strides out = contiguous_strides [1; L; d_embed self]%nat
    /\ forall r c, (r < L)%nat -> (c < d_embed self)%nat ->
         get out [0; r; c]%nat
         = rsum (d_embed self)
                (fun k => merged_value self x L r k * weight (W_o self) c k)
           + bias (W_o self) c.
Proof.
  intros Hwf HD Hx.
  rewrite (forward_factor self x 1 L _ Hx).
  destruct (head_outputs_ok self x 1 L Hwf Hx)
    as (w & a & _ & Ha & Hsh & Hst & _).
  destruct (head_outputs_value self x 1 L Hwf Hx) as (a2 & Ha2 & _ & Hav).
  rewrite Ha in Ha2. injection Ha2 as <-.
  rewrite Ha, bind_Ok, (merge_heads_single_batch self L a Hsh Hst), bind_Ok.
  pose proof Hwf as (_ & _ & _ & _ & _ & _ & Hoi & Hoo).
  set (a' := {| shape := [1; L; num_head self * d_head self]%nat;
                strides := contiguous_strides
                             [1; L; num_head self * d_head self]%nat;
                storage := storage a |}).
  destruct (Linear_forward_3d (W_o self) a' 1 L (d_embed self))
    as (out & -> & Hout & Hosts & Hoe); [done | by rewrite HD |].
  exists out. split; [done|]. rewrite Hoo in Hout, Hosts, Hoe.
  split; [done|]. split; [done|].
  intros r c Hr Hc. rewrite Hoe by (done || lia). f_equal.
  apply rsum_ext. intros k Hk. f_equal.
  assert (0 < L)%nat as HL by lia.
  assert (0 < d_head self)%nat as HDh by nia.
  set (q := (r * (num_head self * d_head self) + k)%nat).
  destruct (flat_index_split q L (d_head self) (num_head self) HL HDh)
    as (Hh & Hl & Hd & Hq); [subst q; nia|].
  unfold merged_value. fold q.
  rewrite <- Hav by (done || lia).
  unfold get. cbn [strides storage a']. rewrite Hst. f_equal.
  cbn [contiguous_strides offset span foldr].
  rewrite !Nat.max_l by lia.
  rewrite !Nat.mul_1_r, !Nat.add_0_r, !Nat.mul_0_l, !Nat.add_0_l.
  etrans; [symmetry; exact Hq|]. ring.
Qed.

Lemma single_head_attention_wf : wf single_head_attention.
Proof. by repeat split. Qed.

Lemma sequences_agree_at_first_position l c :
  (l <= 0)%nat -> (c < 2)%nat ->
  get zero_sequence [0; l; c]%nat = get late_change_sequence [0; l; c]%nat.
Proof.
  intros Hl Hc. assert (l = 0%nat) as -> by lia.
  rewrite zero_sequence_entry, late_change_sequence_entry by lia. done.
Qed.

(** X10.  With one head and a single batch the reassembly keeps every
    value in its place and [forward] is causal: it returns tensors of
    the shape of its input, and two inputs that agree at the positions up
    to [i] give the same output at position [i]. *)
Theorem forward_single_head_causal self x x' L i :
  wf self -> num_head self = 1%nat -> d_embed self = d_head self ->
  shape x = [1; L; d_embed self]%nat -> shape x' = [1; L; d_embed self]%nat ->
  (i < L)%nat ->
  (forall l c, (l <= i)%nat -> (c < d_embed self)%nat ->
     get x [0; l; c]%nat = get x' [0; l; c]%nat) ->
  exists out out', forward self x = Ok out /\ forward self x' = Ok out'
    /\ shape out = shape x /\ shape out' = shape x
    /\ forall c, (c < d_embed self)%nat ->
         get out [0; i; c]%nat = get out' [0; i; c]%nat.
Proof.
  intros Hwf HH HD Hx Hx' Hi Hagree.
  assert (d_embed self = (num_head self * d_head self)%nat) as HD' by lia.
  destruct (forward_single_batch_value self x L Hwf HD' Hx)
    as (out & Ho & Hsh & _ & Hov).
  destruct (forward_single_batch_value self x' L Hwf HD' Hx')
    as (out' & Ho' & Hsh' & _ & Hov').
  exists out, out'. rewrite Hx. do 4 (split; [done|]).
  intros c Hc. rewrite Hov, Hov' by done. f_equal.
  apply rsum_ext. intros k Hk. f_equal.
  unfold merged_value. apply head_value_causal; [done|].
  intros l c' Hl Hc'. apply Hagree; [|done].
  rewrite HH, Nat.mul_1_l, <- HD in *.
  rewrite Nat.div_add_l, (Nat.div_small k), Nat.add_0_r in Hl by lia.
  rewrite Nat.mod_small in Hl; lia.
Qed.

Lemma forward_single_head_causal_witness :
  wf single_head_attention /\ num_head single_head_attention = 1%nat
  /\ d_embed single_head_attention = d_head single_head_attention
  /\ shape zero_sequence = [1; 2; d_embed single_head_attention]%nat
  /\ shape late_change_sequence = [1; 2; d_embed single_head_attention]%nat
  /\ (0 < 2)%nat
  /\ (forall l c, (l <= 0)%nat -> (c < d_embed single_head_attention)%nat ->
        get zero_sequence [0; l; c]%nat = get late_change_sequence [0; l; c]%nat)
  /\ exists out out',
       forward single_head_attention zero_sequence = Ok out
       /\ forward single_head_attention late_change_sequence = Ok out'
       /\ shape out = shape zero_sequence /\ shape out' = shape zero_sequence
       /\ forall c, (c < d_embed single_head_attention)%nat ->
            get out [0; 0; c]%nat = get out' [0; 0; c]%nat.
Proof.
  split; [exact single_head_attention_wf|].
  split; [reflexivity|]. split; [reflexivity|]. split; [reflexivity|].
  split; [reflexivity|]. split; [lia|].
  split; [exact sequences_agree_at_first_position|].
  apply (forward_single_head_causal single_head_attention _ _ 2 0);
    [exact single_head_attention_wf | reflexivity | reflexivity | reflexivity
    | reflexivity | lia | exact sequences_agree_at_first_position].
Defined.

(** A sum whose terms vanish from index 1 on. *)
Lemma rsum_only_first n f :
  (0 < n)%nat -> (forall k, (0 < k < n)%nat -> f k = 0) -> rsum n f = f 0%nat.
Proof.
  intros Hn Hz. induction n as [|n IH]; [lia|]. cbn [rsum].
  destruct n as [|n]; [cbn [rsum]; lra|].
  rewrite IH by (lia || intros; apply Hz; lia).
  rewrite (Hz (S n)) by lia. lra.
Qed.

(** X7.  The first position attends to itself only: its weight on
    itself is 1, its weight on every other position is 0, and the result
    of every head at position 0 is the value projection of position
    0. *)
Theorem first_position_attends_to_itself self x B L :
  wf self -> shape x = [B; L; d_embed self] ->
  exists w a, attentions_weights self x = Ok w /\ head_outputs self x = Ok a
    /\ forall b h, (b < B)%nat -> (h < num_head self)%nat -> (0 < L)%nat ->
         get w [b; h; 0; 0]%nat = 1
         /\ (forall j, (0 < j < L)%nat -> get w [b; h; 0; j]%nat = 0)
         /\ forall d, (d < d_head self)%nat ->
              get a [b; h; 0; d]%nat
              = projected (W_v self) x (d_head self) b h 0 d.
Proof.
  intros Hwf Hx.
  destruct (attentions_weights_row self x B L Hwf Hx)
    as (w & Hw & Hwsh & Hrow).
  destruct (head_outputs_ok self x B L Hwf Hx)
    as (w2 & a & Hw2 & Ha & _ & _ & Hae).
  rewrite Hw in Hw2. injection Hw2 as <-.
  exists w, a. split; [done|]. split; [done|].
  intros b h Hb Hh HL.
  destruct (Hrow b h 0%nat Hb Hh HL)
    as (E & _ & Hz & (k0 & Hk0 & HE1) & _ & Hwe).
  assert (k0 = 0%nat) as -> by lia.
  assert (rsum L E = 1) as Hsum.
  { rewrite rsum_only_first; [done | done |].
    intros k Hk. apply Hz; lia. }
  assert (get w [b; h; 0; 0]%nat = 1) as H0.
  { rewrite Hwe, Hsum, HE1 by done. field. }
  assert (forall j, (0 < j < L)%nat -> get w [b; h; 0; j]%nat = 0) as Hj.
  { intros j Hj. rewrite Hwe, Hz by (done || lia). unfold Rdiv. ring. }
  split; [done|]. split; [done|].
  intros d Hd. rewrite Hae by done.
  rewrite rsum_only_first; [rewrite H0; ring | done |].
  intros k Hk. rewrite Hj by done. ring.
Qed.

Lemma first_position_attends_to_itself_witness :
  wf two_head_attention
  /\ shape late_change_sequence = [1; 2; d_embed two_head_attention]%nat
  /\ exists w a,
       attentions_weights two_head_attention late_change_sequence = Ok w
       /\ head_outputs two_head_attention late_change_sequence = Ok a
       /\ forall b h, (b < 1)%nat -> (h < num_head two_head_attention)%nat ->
            (0 < 2)%nat ->
            get w [b; h; 0; 0]%nat = 1
            /\ (forall j, (0 < j < 2)%nat -> get w [b; h; 0; j]%nat = 0)
            /\ forall d, (d < d_head two_head_attention)%nat ->
                 get a [b; h; 0; d]%nat
                 = projected (W_v two_head_attention) late_change_sequence
                             (d_head two_head_attention) b h 0 d.
Proof.
  split; [exact two_head_attention_wf|]. split; [reflexivity|].
  exact (first_position_attends_to_itself two_head_attention
           late_change_sequence 1 2 two_head_attention_wf eq_refl).
Defined.

Lemma head_outputs_causal_witness :
  wf two_head_attention
  /\ shape zero_sequence = [1; 2; d_embed two_head_attention]%nat
  /\ shape late_change_sequence = [1; 2; d_embed two_head_attention]%nat
  /\ (0 < 1)%nat /\ (0 < 2)%nat
  /\ (forall l c, (l <= 0)%nat -> (c < d_embed two_head_attention)%nat ->
        get zero_sequence [0; l; c]%nat
        = get late_change_sequence [0; l; c]%nat)
  /\ exists a a',
       head_outputs two_head_attention zero_sequence = Ok a
       /\ head_outputs two_head_attention late_change_sequence = Ok a'
       /\ forall h d, (h < num_head two_head_attention)%nat ->
            (d < d_head two_head_attention)%nat ->
            get a [0; h; 0; d]%nat = get a' [0; h; 0; d]%nat.
Proof.
  split; [exact two_head_attention_wf|]. split; [reflexivity|].
  split; [reflexivity|]. split; [lia|]. split; [lia|].
  split; [exact sequences_agree_at_first_position|].
  apply (head_outputs_causal two_head_attention zero_sequence
           late_change_sequence 1 2 0 0 two_head_attention_wf eq_refl eq_refl);
    [lia | lia | exact sequences_agree_at_first_position].
Defined.

Lemma forward_single_batch_witness :
  wf two_head_attention
  /\ d_embed two_head_attention
     = (num_head two_head_attention * d_head two_head_attention)%nat
  /\ shape late_change_sequence = [1; 2; d_embed two_head_attention]%nat
  /\ exists out, forward two_head_attention late_change_sequence = Ok out
       /\ shape out = [1; 2; d_embed two_head_attention]%nat.
Proof.
  split; [exact two_head_attention_wf|]. split; [reflexivity|].
  split; [reflexivity|].
  exact (forward_single_batch two_head_attention late_change_sequence 2
           two_head_attention_wf eq_refl eq_refl).
Defined.

Local Close Scope R_scope.

(** When the heads do not fill the width, the output layer refuses the
    reassembled tensor (if [view] has not refused it before). *)
Lemma forward_unfilled_raises self x B L :
  wf self -> num_head self * d_head self <> Attention.d_embed self ->
  shape x = [B; L; Attention.d_embed self] ->
  forward self x = Raise RuntimeError.
Proof.
  intros Hwf Hne Hx.
  rewrite (forward_factor self x B L _ Hx).
  destruct (head_outputs_ok self x B L Hwf Hx)
    as (w & a & _ & -> & Hsh & Hst & _).
  rewrite bind_Ok. unfold merge_heads, transpose. rewrite Hsh.
  change (wrap_dim _ 0) with (Ok 0%nat).
  change (wrap_dim _ 1) with (Ok 1%nat).
  rewrite !bind_Ok. unfold view.
  destruct (numel _ =? numel _); [|done].
  destruct (computeStride _ _ _) as [st|]; [|done].
  rewrite bind_Ok. unfold Linear_forward. cbn [shape rev app].
  destruct Hwf as (_ & _ & _ & _ & _ & _ & -> & _).
  by destruct (Nat.eqb_spec (num_head self * d_head self) (Attention.d_embed self)).
Qed.

(** What [selfAttention.__init__] returns for a per-head width
    between 1 and the embedding width. *)
Lemma selfAttention_init_ok config D dh :
  config !! "d_embed" = Some D -> config !! "d_head" = Some dh ->
  (0 < dh <= D)%Z ->
  Init.selfAttention_init config
  = Ok {| Init.sa_d_embed := D; Init.sa_num_head := D / dh;
          Init.sa_d_head := D / (D / dh);
          Init.sa_W_q := {| Init.in_features := D;
                            Init.out_features := D / dh * (D / (D / dh)) |};
          Init.sa_W_k := {| Init.in_features := D;
                            Init.out_features := D / dh * (D / (D / dh)) |};
          Init.sa_W_v := {| Init.in_features := D;
                            Init.out_features := D / dh * (D / (D / dh)) |};
          Init.sa_W_o := {| Init.in_features := D;
                            Init.out_features := D |} |}%Z.
Proof.
  intros HD Hdh [Hpos Hle]. unfold Init.selfAttention_init.
  rewrite (getitem_Some _ _ _ HD), (getitem_Some _ _ _ Hdh), !bind_Ok.
  unfold floordiv.
  destruct (Z.eqb_spec dh 0) as [|_]; [lia|]. rewrite bind_Ok.
  assert (1 <= D / dh)%Z as Hq by (apply Z.div_le_lower_bound; lia).
  destruct (Z.eqb_spec (D / dh) 0) as [|_]; [lia|]. rewrite bind_Ok.
  assert (0 <= D / (D / dh))%Z by (apply Z.div_pos; lia).
  by rewrite !nn_Linear_ok, !bind_Ok by nia.
Qed.

(** X11.  A configuration whose heads do not fill the embedding width
    ([D // dh] heads of width [D // (D // dh)], with a product other
    than [D]) is accepted by [__init__], and [forward] of the module it
    builds raises [RuntimeError] on every input of shape [[B; L; D]],
    whatever the weights: the reassembled tensor has width
    [num_head * d_head], and [W_o] expects [D]. *)
Theorem unfilled_width_always_raises config D dh theta x B L :
  config !! "d_embed" = Some D -> config !! "d_head" = Some dh ->
  (0 < dh <= D)%Z -> (D / dh * (D / (D / dh)) <> D)%Z ->
  shape x = [B; L; Z.to_nat D] ->
  exists m, Init.selfAttention_init config = Ok m
    /\ forward (instantiate m theta) x = Raise RuntimeError.
Proof.
  intros HD Hdh Hrange Hne Hx.
  pose proof (selfAttention_init_ok config D dh HD Hdh Hrange) as Hinit.
  eexists. split; [exact Hinit|].
  assert (1 <= D / dh)%Z as Hq by (apply Z.div_le_lower_bound; lia).
  assert (0 <= D / (D / dh))%Z by (apply Z.div_pos; lia).
  apply (forward_unfilled_raises _ x B L).
  - apply (instantiate_wf config); [done | cbn; lia | cbn; lia].
  - cbn. rewrite <- Z2Nat.inj_mul by lia. intros Heq.
    apply Z2Nat.inj in Heq; [done | nia | lia].
  - done.
Qed.

Lemma unfilled_width_always_raises_witness :
  unfilled_config !! "d_embed" = Some 10%Z
  /\ unfilled_config !! "d_head" = Some 3%Z
  /\ (0 < 3 <= 10)%Z /\ (10 / 3 * (10 / (10 / 3)) <> 10)%Z
  /\ shape (full [1; 2; 10] 0%R) = [1; 2; Z.to_nat 10]
  /\ exists m, Init.selfAttention_init unfilled_config = Ok m
       /\ forward (instantiate m zero_parameters) (full [1; 2; 10] 0%R)
          = Raise RuntimeError.
Proof.
  split; [reflexivity|]. split; [reflexivity|]. split; [lia|].
  split; [discriminate|]. split; [reflexivity|].
  apply (unfilled_width_always_raises unfilled_config 10 3 zero_parameters
           (full [1; 2; 10] 0%R) 1 2 eq_refl eq_refl);
    [lia | discriminate | reflexivity].
Defined.

Lemma merge_heads_single_batch_entry_witness :
  shape (full [1; 2; 2; 1] 0%R)
  = [1; num_head two_head_attention; 2; d_head two_head_attention]
  /\ strides (full [1; 2; 2; 1] 0%R)
     = contiguous_strides
         [1; num_head two_head_attention; 2; d_head two_head_attention]
  /\ merge_heads two_head_attention 1 2 (full [1; 2; 2; 1] 0%R)
     = Ok {| shape := [1; 2; 2]; strides := contiguous_strides [1; 2; 2];
             storage := storage (full [1; 2; 2; 1] 0%R) |}
  /\ 1 < num_head two_head_attention /\ 0 < 2
  /\ 0 < d_head two_head_attention
  /\ get {| shape := [1; 2; 2]; strides := contiguous_strides [1; 2; 2];
            storage := storage (full [1; 2; 2; 1] 0%R) |}
         [0; ((1 * 2 + 0) * 1 + 0) / (2 * 1); ((1 * 2 + 0) * 1 + 0) mod (2 * 1)]
     = get (full [1; 2; 2; 1] 0%R) [0; 1; 0; 0].
Proof.
  assert (merge_heads two_head_attention 1 2 (full [1; 2; 2; 1] 0%R)
          = Ok {| shape := [1; 2; 2]; strides := contiguous_strides [1; 2; 2];
                  storage := storage (full [1; 2; 2; 1] 0%R) |}) as Hm.
  { exact (merge_heads_single_batch two_head_attention 2
             (full [1; 2; 2; 1] 0%R) eq_refl eq_refl). }
  split; [reflexivity|]. split; [reflexivity|]. split; [exact Hm|].
  split; [simpl; lia|]. split; [lia|]. split; [simpl; lia|].
  apply (merge_heads_single_batch_entry two_head_attention 2
           (full [1; 2; 2; 1] 0%R) _ 1 0 0 eq_refl eq_refl Hm);
    simpl; lia.
Defined.

End HeadsFacts.

(** ** Blocks, positions and the language model *)

Module LanguageFacts.
Import Torch TorchFacts Attention AttentionFacts Block Positional
  PositionalFacts Language InitFacts HeadsFacts.

(** Addition of a batch and of one row per position, and of two
    tensors of the same shape. *)
Lemma add_batch_row x p B L D :
  shape x = [B; L; D] -> shape p = [1; L; D] ->
  exists y, add x p = Ok y
    /\ shape y = [B; L; D]
    /\ forall b l c, b < B -> l < L -> c < D ->
         get y [b; l; c] = (get x [b; l; c]%nat + get p [0; l; c]%nat)%R.
Proof.
  intros Hx Hp. unfold add, broadcast2. rewrite Hx, Hp.
  assert (broadcast_rev (rev [B; L; D]) (rev [1; L; D]) = Ok [D; L; B]) as ->.
  { cbn [rev app broadcast_rev]. rewrite !Nat.eqb_refl, !bind_Ok.
    destruct (Nat.eqb_spec B 1) as [->|]; [done|].
    by destruct (B =? 1). }
  rewrite bind_Ok. eexists. split; [done|]. split; [done|].
  intros b l c Hb Hl Hc. cbn [rev app].
  rewrite get_from_fun by in_bounds.
  unfold operand_index. cbn [rev app operand_index_rev Nat.eqb].
  by rewrite !stretch_index.
Qed.

Lemma add_3d x a B L D :
  shape x = [B; L; D] -> shape a = [B; L; D] ->
  exists y, add x a = Ok y
    /\ shape y = [B; L; D]
    /\ forall b l c, b < B -> l < L -> c < D ->
         get y [b; l; c] = (get x [b; l; c]%nat + get a [b; l; c]%nat)%R.
Proof.
  intros Hx Ha. unfold add, broadcast2. rewrite Hx, Ha.
  assert (broadcast_rev (rev [B; L; D]) (rev [B; L; D]) = Ok [D; L; B]) as ->.
  { cbn [rev app broadcast_rev]. by rewrite !Nat.eqb_refl, !bind_Ok. }
  rewrite bind_Ok. eexists. split; [done|]. split; [done|].
  intros b l c Hb Hl Hc. cbn [rev app].
  rewrite get_from_fun by in_bounds.
  unfold operand_index. cbn [rev app operand_index_rev].
  by rewrite !stretch_index.
Qed.

(** The layers of a block keep the shape [[B; L; D]]. *)
Lemma RMSNorm_forward_3d self x B L D :
  normalized_shape self = D -> shape x = [B; L; D] ->
  exists y, RMSNorm_forward self x = Ok y
    /\ shape y = [B; L; D]
    /\ forall b l c, b < B -> l < L -> c < D ->
         get y [b; l; c]
         = (get x [b; l; c]%nat
            * / sqrt (rsum D (fun k => Rsqr (get x [b; l; k]%nat)) / INR D
                      + eps self)
            * gain self c)%R.
Proof.
  intros Hn Hx. unfold RMSNorm_forward. rewrite Hx. cbn [rev app].
  rewrite Hn, Nat.eqb_refl. eexists. split; [done|]. split; [done|].
  intros b l c Hb Hl Hc. by rewrite get_from_fun by in_bounds.
Qed.

Lemma relu_3d x B L D :
  shape x = [B; L; D] ->
  shape (relu x) = [B; L; D]
  /\ forall b l c, b < B -> l < L -> c < D ->
       get (relu x) [b; l; c] = Rmax 0%R (get x [b; l; c]).
Proof.
  intros Hx. unfold relu, tmap. rewrite Hx. split; [done|].
  intros b l c Hb Hl Hc. by rewrite get_from_fun by in_bounds.
Qed.

(** [MLP.forward] entry by entry. *)
Lemma MLP_forward_3d self x B L D :
  MLP_wf self D -> shape x = [B; L; D] ->
  exists y, MLP_forward self x = Ok y
    /\ shape y = [B; L; D]
    /\ forall b l c, b < B -> l < L -> c < D ->
         get y [b; l; c]
         = (rsum (4 * D) (fun j =>
              Rmax 0 (rsum D (fun i =>
                        get x [b; l; i]%nat * weight (up_projection self) j i)
                      + bias (up_projection self) j)
              * weight (down_projection self) c j)
            + bias (down_projection self) c)%R.
Proof.
  intros (Hui & Huo & Hdi & Hdo) Hx. unfold MLP_forward, call, Linear_Module.
  destruct (Linear_forward_3d (up_projection self) x B L D Hui Hx)
    as (u & -> & Hush & _ & Hue).
  rewrite bind_Ok. rewrite Huo in Hush, Hue.
  destruct (relu_3d u B L (4 * D) Hush) as (Hrsh & Hre).
  destruct (Linear_forward_3d (down_projection self) (relu u) B L (4 * D)
              Hdi Hrsh) as (y & -> & Hysh & _ & Hye).
  rewrite bind_Ok. rewrite Hdo in Hysh, Hye.
  exists y. split; [done|]. split; [done|].
  intros b l c Hb Hl Hc. rewrite Hye by done. f_equal.
  apply rsum_ext. intros j Hj. by rewrite Hre, Hue.
Qed.

(** A block, and a stack of blocks, keep the shape of a single
    sequence. *)
Lemma Transformer_forward_single_batch self x L D :
  Transformer_wf self D -> shape x = [1; L; D] ->
  exists out, Transformer_forward self x = Ok out /\ shape out = [1; L; D].
Proof.
  intros (Hwf & HD & HHD & Hn1 & Hmlp & Hn2) Hx.
  unfold Transformer_forward, call, selfAttention_Module, RMSNorm_Module,
    MLP_Module.
  rewrite <- HD in Hx at 1.
  destruct (forward_single_batch_value (attention self) x L Hwf)
    as (a & -> & Hash & _); [congruence | done |].
  rewrite HD in Hx, Hash. rewrite bind_Ok.
  destruct (add_3d x a 1 L D Hx Hash) as (s & -> & Hs & _). rewrite bind_Ok.
  destruct (RMSNorm_forward_3d (rmsnorm1 self) s 1 L D Hn1 Hs)
    as (y & -> & Hy & _). rewrite bind_Ok.
  destruct (MLP_forward_3d (mlp self) y 1 L D Hmlp Hy) as (m & -> & Hm & _).
  rewrite bind_Ok.
  destruct (add_3d y m 1 L D Hy Hm) as (s' & -> & Hs' & _). rewrite bind_Ok.
  destruct (RMSNorm_forward_3d (rmsnorm2 self) s' 1 L D Hn2 Hs')
    as (out & -> & Hout & _). rewrite bind_Ok.
  by exists out.
Qed.

Lemma through_single_batch layers x L D :
  Forall (fun t => Transformer_wf t D) layers -> shape x = [1; L; D] ->
  exists out, through layers x = Ok out /\ shape out = [1; L; D].
Proof.
  intros Hall. revert x. induction Hall as [|t layers Ht _ IH]; intros x Hx.
  - by exists x.
  - cbn [through]. change (call t x) with (Transformer_forward t x).
    destruct (Transformer_forward_single_batch t x L D Ht Hx)
      as (y & -> & Hy). rewrite bind_Ok. by apply IH.
Qed.

(** The index of the [k]-th entry of a matrix. *)
Lemma unravel_2d B L k :
  k < B * L -> unravel [B; L] k = [k / L; k mod L].
Proof.
  intros Hk. assert (0 < L) by nia.
  cbn [unravel span foldr]. rewrite !Nat.max_l by lia.
  by rewrite !Nat.mul_1_r, Nat.div_1_r.
Qed.

(** The embedding of a matrix of tokens that all have a row, and of
    one with a token that has none. *)
Lemma Embedding_forward_2d self x B L :
  shape x = [B; L] ->
  (forall b l, b < B -> l < L -> get x [b; l] < num_embeddings self) ->
  exists e, Embedding_forward self x = Ok e
    /\ shape e = [B; L; embedding_dim self]
    /\ forall b l c, b < B -> l < L -> c < embedding_dim self ->
         get e [b; l; c] = rows self (get x [b; l]) c.
Proof.
  intros Hx Hlt. unfold Embedding_forward. rewrite Hx.
  assert (forallb (fun k => get x (unravel [B; L] k) <? num_embeddings self)
                  (seq 0 (numel [B; L])) = true) as ->.
  { apply forallb_forall. intros k Hk%in_seq. cbn [numel foldr] in Hk.
    rewrite unravel_2d by lia. apply Nat.ltb_lt, Hlt.
    - apply Nat.Div0.div_lt_upper_bound. lia.
    - apply Nat.mod_upper_bound. nia. }
  eexists. split; [done|]. split; [done|].
  intros b l c Hb Hl Hc. cbn [app]. by rewrite get_from_fun by in_bounds.
Qed.

Lemma Embedding_forward_unknown self x B L b l :
  shape x = [B; L] -> b < B -> l < L ->
  num_embeddings self <= get x [b; l] ->
  Embedding_forward self x = Raise IndexError.
Proof.
  intros Hx Hb Hl Hge. unfold Embedding_forward. rewrite Hx.
  destruct (forallb _ _) eqn:E; [|done].
  rewrite forallb_forall in E.
  specialize (E (offset [b; l] (contiguous_strides [B; L]))).
  rewrite unravel_offset in E by in_bounds.
  apply Nat.ltb_lt in E; [lia|].
  apply in_seq. split; [lia|].
  pose proof (offset_lt [b; l] [B; L]) as Hlt.
  rewrite span_numel in Hlt by (repeat constructor; lia).
  cbn [plus]. apply Hlt. in_bounds.
Qed.

Lemma batch_of_one_entry ids l :
  l < length ids -> get (batch_of_one ids) [0; l] = nth l ids 0.
Proof. intros Hl. unfold batch_of_one. by rewrite get_from_fun by in_bounds. Qed.

Local Open Scope R_scope.

(** The table of [PositionalEncoding.__init__], entry by entry. *)
Lemma table_entry max_len D :
  Nat.Even D -> D <> 0%nat ->
  exists pe, table max_len D = Ok pe
    /\ shape pe = [1; max_len; D]%nat
    /\ forall p m, (p < max_len)%nat -> (2 * m < D)%nat ->
         get pe [0; p; 2 * m]%nat = sin (angle D p m)
         /\ get pe [0; p; 2 * m + 1]%nat = cos (angle D p m).
Proof.
  intros Heven HD. unfold table.
  destruct (Nat.eqb_spec D 0) as [|_]; [done|].
  set (div_term := tmap exp _).
  destruct (position_times_div_term max_len ((D + 1) / 2) div_term eq_refl)
    as (angles & -> & Hsh & Hang).
  rewrite !bind_Ok.
  destruct (setitem_cols_entry (full [max_len; D] 0) 0 (tmap sin angles)
              max_len D ((D + 1) / 2))
    as (pe1 & -> & Hsh1 & Hpe1); [done | done | by rewrite Nat.sub_0_r |].
  rewrite !bind_Ok.
  destruct (setitem_cols_entry pe1 1 (tmap cos angles)
              max_len D ((D + 1) / 2))
    as (pe2 & -> & Hsh2 & Hpe2); [done | done | by apply even_half |].
  rewrite bind_Ok. eexists. split; [done|].
  split; [cbn; by rewrite Hsh2|].
  intros p m Hp Hm.
  assert (m < (D + 1) / 2)%nat as Hhalf.
  { destruct Heven as [n ->].
    replace (2 * n + 1)%nat with (1 + n * 2)%nat by lia.
    rewrite Nat.div_add by lia. simpl (1 / 2)%nat. lia. }
  assert (get angles [p; m] = angle D p m) as Hangle.
  { rewrite Hang by done. unfold angle. f_equal.
    unfold div_term, tmap. cbn [shape arange_by_2 from_fun].
    rewrite !get_from_fun by in_bounds. unfold arange_by_2.
    by rewrite get_from_fun by in_bounds. }
  assert (get (tmap sin angles) [p; m] = sin (angle D p m)
          /\ get (tmap cos angles) [p; m] = cos (angle D p m)) as [Hsin Hcos].
  { unfold tmap. rewrite Hsh. rewrite !get_from_fun by in_bounds.
    by rewrite Hangle. }
  rewrite !unsqueeze_front_entry.
  assert (2 * m + 1 < D)%nat as Hm'.
  { destruct Heven as [n ->]. lia. }
  split.
  - rewrite Hpe2 by lia.
    assert (((1 <=? 2 * m) && ((2 * m - 1) mod 2 =? 0))%nat = false) as ->.
    { destruct m as [|m]; [done|].
      replace (2 * S m - 1)%nat with (1 + m * 2)%nat by lia.
      rewrite Nat.Div0.mod_add. change (1 mod 2 =? 0)%nat with false.
      apply andb_false_r. }
    rewrite Hpe1 by lia.
    replace (2 * m - 0)%nat with (m * 2)%nat by lia.
    rewrite Nat.Div0.mod_mul, Nat.div_mul by lia.
    cbn [Nat.leb Nat.eqb andb]. done.
  - rewrite Hpe2 by lia.
    replace (2 * m + 1 - 1)%nat with (m * 2)%nat by lia.
    rewrite Nat.Div0.mod_mul, Nat.div_mul by lia.
    destruct (Nat.leb_spec 1 (2 * m + 1)); [|lia].
    cbn [Nat.eqb andb]. done.
Qed.

Lemma setitem_cols_shape pe start src pe' :
  setitem_cols pe start src = Ok pe' -> shape pe' = shape pe.
Proof.
  unfold setitem_cols.
  destruct (shape pe) as [|M [|D [|]]] eqn:Hpe; try done.
  destruct (shape src) as [|M' [|n [|]]]; try done.
  destruct (_ && _); [|done]. by intros [= <-].
Qed.

(** A table that was built has one row per position. *)
Lemma table_shape max_len D pe :
  table max_len D = Ok pe -> shape pe = [1; max_len; D]%nat.
Proof.
  unfold table. destruct (D =? 0)%nat; [done|].
  intros (angles & _ & H)%bind_Ok_inv.
  apply bind_Ok_inv in H as (pe1 & H1 & H).
  apply bind_Ok_inv in H as (angles' & _ & H).
  apply bind_Ok_inv in H as (pe2 & H2 & [= <-]).
  apply setitem_cols_shape in H1, H2. cbn [unsqueeze shape].
  rewrite H2, H1. done.
Qed.

(** With an odd width of 3 or more the cosines do not fit. *)
Lemma table_odd_width max_len D :
  Nat.Odd D -> (3 <= D)%nat -> table max_len D = Raise RuntimeError.
Proof.
  intros [n ->] HD. unfold table.
  destruct (Nat.eqb_spec (2 * n + 1) 0) as [|_]; [lia|].
  set (div_term := tmap exp _).
  destruct (position_times_div_term max_len ((2 * n + 1 + 1) / 2) div_term
              eq_refl) as (angles & -> & Hsh & Hang).
  rewrite !bind_Ok.
  destruct (setitem_cols_entry (full [max_len; (2 * n + 1)%nat] 0) 0
              (tmap sin angles) max_len (2 * n + 1) ((2 * n + 1 + 1) / 2))
    as (pe1 & -> & Hsh1 & Hpe1); [done | done | by rewrite Nat.sub_0_r |].
  rewrite !bind_Ok. unfold setitem_cols. rewrite Hsh1.
  cbn [tmap shape from_fun]. rewrite Hsh.
  assert (((2 * n + 1 + 1 - 1) / 2)%nat = n) as ->.
  { replace (2 * n + 1 + 1 - 1)%nat with (1 + n * 2)%nat by lia.
    by rewrite Nat.div_add by lia. }
  assert (((2 * n + 1 + 1) / 2)%nat = (n + 1)%nat) as ->.
  { replace (2 * n + 1 + 1)%nat with ((n + 1) * 2)%nat by lia.
    by rewrite Nat.div_mul by lia. }
  destruct (Nat.eqb_spec (n + 1) n); [lia|].
  destruct (Nat.eqb_spec (n + 1) 1); [lia|].
  by rewrite andb_false_r.
Qed.

Lemma slice_entry {A} (t t' : tensor A) n idx :
  slice_axis1 t n = Ok t' -> get t' idx = get t idx.
Proof.
  unfold slice_axis1. destruct (shape t) as [|? [|? ?]]; try done.
  by intros [= <-].
Qed.

(** [PositionalEncoding.forward] within and beyond [max_len]. *)
Lemma PositionalEncoding_forward_ok self x max_len B L D :
  shape (pe self) = [1; max_len; D]%nat -> shape x = [B; L; D]%nat ->
  (L <= max_len)%nat ->
  exists y, PositionalEncoding_forward self x = Ok y
    /\ shape y = [B; L; D]%nat
    /\ forall b l c, (b < B)%nat -> (l < L)%nat -> (c < D)%nat ->
         get y [b; l; c]%nat = get x [b; l; c]%nat + get (pe self) [0; l; c]%nat.
Proof.
  intros Hpe Hx HL. unfold PositionalEncoding_forward. rewrite Hx.
  destruct (slice_axis1 (pe self) L) as [p|] eqn:Hp;
    [|unfold slice_axis1 in Hp; by rewrite Hpe in Hp].
  rewrite bind_Ok.
  assert (shape p = [1; L; D]%nat) as Hpsh.
  { unfold slice_axis1 in Hp. rewrite Hpe in Hp. injection Hp as <-.
    cbn [shape]. by rewrite Nat.min_l. }
  destruct (add_batch_row x p B L D Hx Hpsh) as (y & -> & Hy & Hye).
  exists y. split; [done|]. split; [done|].
  intros b l c Hb Hl Hc. rewrite Hye by done. f_equal.
  by apply (slice_entry _ _ L).
Qed.

Lemma PositionalEncoding_forward_too_long self x max_len B L D :
  shape (pe self) = [1; max_len; D]%nat -> shape x = [B; L; D]%nat ->
  (2 <= max_len < L)%nat ->
  PositionalEncoding_forward self x = Raise RuntimeError.
Proof.
  intros Hpe Hx HL. unfold PositionalEncoding_forward, slice_axis1.
  rewrite Hx, Hpe, bind_Ok. unfold add, broadcast2. cbn [shape].
  rewrite Hx, Nat.min_r by lia. cbn [rev app broadcast_rev].
  rewrite Nat.eqb_refl.
  assert ((if B =? 1 then Ok [B] else if B =? 1 then Ok [1%nat]
           else if 1 =? 1 then Ok [B] else Raise RuntimeError)%nat
          = Ok [B]) as Hb.
  { by destruct (B =? 1)%nat. }
  destruct (Nat.eqb_spec L max_len); [lia|].
  destruct (Nat.eqb_spec L 1); [lia|].
  destruct (Nat.eqb_spec max_len 1); [lia|].
  destruct (B =? 1)%nat eqn:E; by rewrite ?bind_Ok.
Qed.

Local Close Scope R_scope.

(** [LanguageModel.forward] on one sequence within [max_len], and on
    sequences beyond it. *)
Lemma LanguageModel_forward_single model max_len x L :
  LanguageModel_wf model max_len -> shape x = [1; L] ->
  (forall b l, b < 1 -> l < L -> get x [b; l] < vocab_size model) ->
  L <= max_len ->
  exists logits, LanguageModel_forward model x = Ok logits
    /\ shape logits = [1; L; vocab_size model].
Proof.
  intros (Hnum & Hdim & Hpe & _ & Hlayers & Hin & Hout) Hx Hids Hlen.
  unfold LanguageModel_forward.
  destruct (Embedding_forward_2d (embedding model) x 1 L)
    as (e & -> & He & _); [done | by rewrite Hnum |].
  rewrite bind_Ok. rewrite Hdim in He.
  change (call (posEnc model) e)
    with (PositionalEncoding_forward (posEnc model) e).
  destruct (PositionalEncoding_forward_ok (posEnc model) e max_len 1
              L (d_embed model)) as (y & -> & Hy & _);
    [by apply table_shape | done | done |].
  rewrite bind_Ok.
  destruct (through_single_batch (transformers model) y L
              (d_embed model) Hlayers Hy) as (z & -> & Hz).
  rewrite bind_Ok. unfold call, Linear_Module.
  destruct (Linear_forward_3d (head model) z 1 L (d_embed model)
              Hin Hz) as (logits & -> & Hl & _).
  rewrite bind_Ok. exists logits. split; [done|]. by rewrite Hl, Hout.
Qed.

Lemma LanguageModel_forward_too_long model max_len x B L :
  LanguageModel_wf model max_len -> shape x = [B; L] ->
  (forall b l, b < B -> l < L -> get x [b; l] < vocab_size model) ->
  2 <= max_len < L ->
  LanguageModel_forward model x = Raise RuntimeError.
Proof.
  intros (Hnum & Hdim & Hpe & _ & Hlayers & Hin & Hout) Hx Hids Hlen.
  unfold LanguageModel_forward.
  destruct (Embedding_forward_2d (embedding model) x B L)
    as (e & -> & He & _); [done | by rewrite Hnum |].
  rewrite bind_Ok. rewrite Hdim in He.
  change (call (posEnc model) e)
    with (PositionalEncoding_forward (posEnc model) e).
  rewrite (PositionalEncoding_forward_too_long (posEnc model) e max_len B
             L (d_embed model)); [done| |done|done].
  by apply table_shape.
Qed.

Lemma batch_of_one_valid ids V b l :
  Forall (fun t => t < V) ids -> b < 1 -> l < length ids ->
  get (batch_of_one ids) [b; l] < V.
Proof.
  intros Hids Hb Hl. assert (b = 0) as -> by lia.
  rewrite batch_of_one_entry by done. by apply Forall_nth.
Qed.

(** The same for the model as [inference] calls it. *)
Lemma LLM_of_nonempty model ids :
  1 <= length ids ->
  LLM_of model ids = LanguageModel_forward model (batch_of_one ids).
Proof. destruct ids; [simpl; lia | done]. Qed.

(** The empty row is a float tensor, which the embedding refuses. *)
Lemma LLM_of_empty model : LLM_of model [] = Raise RuntimeError.
Proof. done. Qed.

Lemma LLM_of_single_sequence model max_len ids :
  LanguageModel_wf model max_len ->
  Forall (fun t => t < vocab_size model) ids ->
  1 <= length ids <= max_len ->
  exists logits, LLM_of model ids = Ok logits
    /\ shape logits = [1; length ids; vocab_size model].
Proof.
  intros Hwf Hids Hlen. rewrite LLM_of_nonempty by lia.
  apply (LanguageModel_forward_single model max_len); try done; [|lia].
  intros b l. by apply batch_of_one_valid.
Qed.

Lemma LLM_of_too_long model max_len ids :
  LanguageModel_wf model max_len ->
  Forall (fun t => t < vocab_size model) ids ->
  2 <= max_len < length ids ->
  LLM_of model ids = Raise RuntimeError.
Proof.
  intros Hwf Hids Hlen. rewrite LLM_of_nonempty by lia.
  apply (LanguageModel_forward_too_long model max_len _ 1 (length ids));
    try done.
  intros b l. by apply batch_of_one_valid.
Qed.

Lemma table_width_nonzero max_len D pe :
  table max_len D = Ok pe -> D <> 0.
Proof. unfold table. by destruct (Nat.eqb_spec D 0). Qed.

(** A block raises on a batch as its attention does, and so does a
    model whose first block does. *)
Lemma Transformer_forward_raises_on_batches self x B L D :
  Transformer_wf self D -> D <> 0 ->
  2 <= B -> 1 <= L -> 2 <= num_head (attention self) ->
  B <> num_head (attention self) -> shape x = [B; L; D] ->
  Transformer_forward self x = Raise RuntimeError.
Proof.
  intros (Hwf & HD & HHD & _) HD0 HB HL HH Hne Hx.
  unfold Transformer_forward.
  change (call (attention self) x) with (forward (attention self) x).
  rewrite <- HD in Hx.
  rewrite (forward_factor _ x B L _ Hx).
  destruct (head_outputs_ok _ x B L Hwf Hx)
    as (w & a & _ & -> & Hsh & Hst & _).
  rewrite bind_Ok, merge_heads_exchanged_raises; [done|try done..].
  destruct (d_head (attention self)); lia.
Qed.

Lemma LanguageModel_forward_raises_on_batches model max_len x B L t rest :
  LanguageModel_wf model max_len ->
  transformers model = t :: rest ->
  shape x = [B; L] ->
  (forall b l, b < B -> l < L -> get x [b; l] < vocab_size model) ->
  2 <= B -> 1 <= L <= max_len -> 2 <= num_head (attention t) ->
  B <> num_head (attention t) ->
  LanguageModel_forward model x = Raise RuntimeError.
Proof.
  intros (Hnum & Hdim & Hpe & _ & Hlayers & Hin & Hout) Ht Hx Hids HB HL HH Hne.
  unfold LanguageModel_forward.
  destruct (Embedding_forward_2d (embedding model) x B L) as (e & -> & He & _);
    [done | by rewrite Hnum |].
  rewrite bind_Ok. rewrite Hdim in He.
  change (call (posEnc model) e)
    with (PositionalEncoding_forward (posEnc model) e).
  destruct (PositionalEncoding_forward_ok (posEnc model) e max_len B
              L (d_embed model)) as (y & -> & Hy & _);
    [by apply table_shape | done | lia |].
  rewrite bind_Ok, Ht. cbn [through].
  change (call t y) with (Transformer_forward t y).
  rewrite Ht in Hlayers. apply Forall_cons in Hlayers as [Hwf _].
  rewrite (Transformer_forward_raises_on_batches t y B L (d_embed model));
    try done; [|lia].
  by eapply table_width_nonzero.
Qed.

(** [PositionalEncoding.__init__] on sizes that are not negative. *)
Lemma init_is_table config max_len D :
  config !! "max_len" = Some (Z.of_nat max_len) ->
  config !! "d_embed" = Some (Z.of_nat D) ->
  PositionalEncoding_init config = table max_len D.
Proof.
  intros Hm Hd. unfold PositionalEncoding_init, getitem.
  rewrite Hm, Hd, !bind_Ok.
  destruct (Z.ltb_spec (Z.of_nat max_len) 0); [lia|].
  destruct (Z.ltb_spec (Z.of_nat D) 0); [lia|].
  cbn [orb]. by rewrite !Nat2Z.id.
Qed.

Lemma toy_pe_table : table 4 2 = Ok toy_pe.
Proof.
  unfold toy_pe.
  destruct (table_entry 4 2) as (pe & -> & _); [by exists 1 | done | done].
Qed.

Lemma toy_block_wf : Transformer_wf toy_block 2.
Proof. by repeat split. Qed.

Lemma toy_model_wf : LanguageModel_wf toy_model 4.
Proof.
  split; [done|]. split; [done|]. split; [exact toy_pe_table|].
  split; [done|]. split; [|done].
  constructor; [exact toy_block_wf | constructor].
Qed.

Local Open Scope R_scope.

(** X14.  For an even, non-zero embedding width the table built by
    [PositionalEncoding.__init__] holds the sinusoids: at position [p],
    column [2m] the sine and column [2m + 1] the cosine of
    [p * exp(2m * -(ln 10000 / D))]; every entry lies between -1 and
    1. *)
Theorem PositionalEncoding_init_sinusoids config max_len D :
  config !! "max_len" = Some (Z.of_nat max_len) ->
  config !! "d_embed" = Some (Z.of_nat D) ->
  Nat.Even D -> D <> 0%nat ->
  exists pe, PositionalEncoding_init config = Ok pe
    /\ shape pe = [1; max_len; D]%nat
    /\ (forall p m, (p < max_len)%nat -> (2 * m < D)%nat ->
          get pe [0; p; 2 * m]%nat = sin (angle D p m)
          /\ get pe [0; p; 2 * m + 1]%nat = cos (angle D p m))
    /\ forall p c, (p < max_len)%nat -> (c < D)%nat ->
         -1 <= get pe [0; p; c]%nat <= 1.
Proof.
  intros Hm Hd Heven HD. rewrite (init_is_table config max_len D Hm Hd).
  destruct (table_entry max_len D Heven HD) as (pe & Hpe & Hsh & Hent).
  exists pe. split; [done|]. split; [done|]. split; [done|].
  intros p c Hp Hc.
  destruct (Nat.Even_or_Odd c) as [[m ->]|[m ->]].
  - destruct (Hent p m Hp Hc) as [-> _]. apply SIN_bound.
  - destruct (Hent p m Hp) as [_ ->]; [lia|]. apply COS_bound.
Qed.

Lemma PositionalEncoding_init_sinusoids_witness :
  Init.notebook_config 65 !! "max_len" = Some (Z.of_nat 2048)
  /\ Init.notebook_config 65 !! "d_embed" = Some (Z.of_nat 64)
  /\ Nat.Even 64 /\ 64%nat <> 0%nat
  /\ exists pe, PositionalEncoding_init (Init.notebook_config 65) = Ok pe
    /\ shape pe = [1; 2048; 64]%nat
    /\ (forall p m, (p < 2048)%nat -> (2 * m < 64)%nat ->
          get pe [0; p; 2 * m]%nat = sin (angle 64 p m)
          /\ get pe [0; p; 2 * m + 1]%nat = cos (angle 64 p m))
    /\ forall p c, (p < 2048)%nat -> (c < 64)%nat ->
         -1 <= get pe [0; p; c]%nat <= 1.
Proof.
  assert (Nat.Even 64) as Heven by (exists 32%nat; reflexivity).
  split; [reflexivity|]. split; [reflexivity|]. split; [exact Heven|].
  split; [discriminate|].
  apply PositionalEncoding_init_sinusoids;
    [reflexivity | reflexivity | exact Heven | discriminate].
Defined.

(** X15.  Widths [PositionalEncoding.__init__] does not accept: with
    width 0 it divides by zero, and with an odd width of 3 or more the
    assignment of the cosines raises [RuntimeError], because there is
    one column less to fill than there are angles.  Width 1 is
    accepted. *)
Theorem PositionalEncoding_init_rejects config max_len D :
  config !! "max_len" = Some (Z.of_nat max_len) ->
  config !! "d_embed" = Some (Z.of_nat D) ->
  (D = 0%nat -> PositionalEncoding_init config = Raise ZeroDivisionError)
  /\ (Nat.Odd D -> (3 <= D)%nat ->
      PositionalEncoding_init config = Raise RuntimeError)
  /\ (D = 1%nat -> exists pe, PositionalEncoding_init config = Ok pe
                     /\ shape pe = [1; max_len; 1]%nat).
Proof.
  intros Hm Hd. rewrite (init_is_table config max_len D Hm Hd).
  split; [by intros ->|]. split; [apply table_odd_width|].
  intros ->. unfold table. cbn [Nat.eqb].
  set (div_term := tmap exp _).
  destruct (position_times_div_term max_len ((1 + 1) / 2) div_term eq_refl)
    as (angles & -> & Hsh & Hang).
  rewrite !bind_Ok.
  destruct (setitem_cols_entry (full [max_len; 1%nat] 0) 0 (tmap sin angles)
              max_len 1 ((1 + 1) / 2))
    as (pe1 & -> & Hsh1 & Hpe1); [done | done | done |].
  rewrite !bind_Ok. unfold setitem_cols at 1. rewrite Hsh1.
  cbn [tmap shape from_fun]. rewrite Hsh, Nat.eqb_refl.
  cbn [orb andb Nat.div Nat.divmod fst Nat.eqb Nat.add Nat.sub].
  rewrite bind_Ok. eexists. split; [done|]. done.
Qed.

Lemma PositionalEncoding_init_rejects_witness :
  odd_width_config !! "max_len" = Some (Z.of_nat 4)
  /\ odd_width_config !! "d_embed" = Some (Z.of_nat 3)
  /\ Nat.Odd 3 /\ (3 <= 3)%nat
  /\ PositionalEncoding_init odd_width_config = Raise RuntimeError.
Proof.
  assert (Nat.Odd 3) as Hodd by (exists 1%nat; reflexivity).
  split; [reflexivity|]. split; [reflexivity|]. split; [exact Hodd|].
  split; [lia|].
  apply (PositionalEncoding_init_rejects odd_width_config 4 3 eq_refl eq_refl);
    [exact Hodd | lia].
Defined.

(** X16.  [PositionalEncoding.forward] adds to every sequence of the
    batch the first rows of the table and keeps the shape of its input,
    as long as the sequences are not longer than [max_len]; on longer
    sequences (with a table of two rows or more) it raises
    [RuntimeError]. *)
Theorem PositionalEncoding_forward_adds_positions config max_len D pe x B L :
  config !! "max_len" = Some (Z.of_nat max_len) ->
  config !! "d_embed" = Some (Z.of_nat D) ->
  PositionalEncoding_init config = Ok pe ->
  shape x = [B; L; D]%nat ->
  ((L <= max_len)%nat ->
     exists y, PositionalEncoding_forward {| Language.pe := pe |} x = Ok y
       /\ shape y = shape x
       /\ forall b l c, (b < B)%nat -> (l < L)%nat -> (c < D)%nat ->
            get y [b; l; c]%nat
            = get x [b; l; c]%nat + get pe [0; l; c]%nat)
  /\ ((2 <= max_len < L)%nat ->
      PositionalEncoding_forward {| Language.pe := pe |} x
      = Raise RuntimeError).
Proof.
  intros Hm Hd Hpe Hx. rewrite (init_is_table config max_len D Hm Hd) in Hpe.
  apply table_shape in Hpe. split.
  - intros HL. rewrite Hx.
    by apply (PositionalEncoding_forward_ok {| Language.pe := pe |} x max_len
                B L D).
  - intros HL. by apply (PositionalEncoding_forward_too_long {| Language.pe := pe |} x
                            max_len B L D).
Qed.

Lemma PositionalEncoding_forward_adds_positions_witness :
  toy_config !! "max_len" = Some (Z.of_nat 4)
  /\ toy_config !! "d_embed" = Some (Z.of_nat 2)
  /\ PositionalEncoding_init toy_config = Ok toy_pe
  /\ shape (full [1; 3; 2]%nat 0) = [1; 3; 2]%nat
  /\ (3 <= 4)%nat
  /\ exists y,
       PositionalEncoding_forward {| Language.pe := toy_pe |}
                                  (full [1; 3; 2]%nat 0) = Ok y
       /\ shape y = shape (full [1; 3; 2]%nat 0)
       /\ forall b l c, (b < 1)%nat -> (l < 3)%nat -> (c < 2)%nat ->
            get y [b; l; c]%nat
            = get (full [1; 3; 2]%nat 0) [b; l; c]%nat
              + get toy_pe [0; l; c]%nat.
Proof.
  assert (PositionalEncoding_init toy_config = Ok toy_pe) as Hinit.
  { rewrite (init_is_table toy_config 4 2 eq_refl eq_refl).
    exact toy_pe_table. }
  split; [reflexivity|]. split; [reflexivity|]. split; [exact Hinit|].
  split; [reflexivity|]. split; [lia|].
  apply (PositionalEncoding_forward_adds_positions toy_config 4 2 toy_pe
           (full [1; 3; 2]%nat 0) 1 3 eq_refl eq_refl Hinit eq_refl).
  lia.
Defined.

Local Close Scope R_scope.

(** What [MLP.__init__] returns for a width that is not negative. *)
Lemma MLP_init_ok config D :
  config !! "d_embed" = Some D -> (0 <= D)%Z ->
  Init.MLP_init config
  = Ok {| Init.mlp_d_embed := D; Init.mlp_d_mlp := 4 * D;
          Init.mlp_up_projection :=
            {| Init.in_features := D; Init.out_features := 4 * D |};
          Init.mlp_down_projection :=
            {| Init.in_features := 4 * D; Init.out_features := D |} |}.
Proof.
  intros HD Hpos. unfold Init.MLP_init.
  rewrite (getitem_Some _ _ _ HD), bind_Ok.
  by rewrite !nn_Linear_ok, !bind_Ok by lia.
Qed.

(** X12.  [MLP.__init__] succeeds on every configuration that gives
    a width [D], and [forward] of the module it builds keeps the shape of
    every input [[B; L; D]] and works on each position by itself: the
    output at position [(b, l)] is computed from the input at [(b, l)]
    alone, through [4 * D] hidden units. *)
Theorem MLP_forward_position_wise config D theta :
  config !! "d_embed" = Some (Z.of_nat D) ->
  exists m, Init.MLP_init config = Ok m
    /\ forall x B L, shape x = [B; L; D] ->
         exists y, MLP_forward (MLP_of m theta) x = Ok y
           /\ shape y = shape x
           /\ forall b l c, b < B -> l < L -> c < D ->
                get y [b; l; c]
                = (rsum (4 * D) (fun j =>
                     Rmax 0 (rsum D (fun i =>
                               get x [b; l; i]%nat
                               * weight_of theta "up_projection" j i)
                             + bias_of theta "up_projection" j)
                     * weight_of theta "down_projection" c j)
                   + bias_of theta "down_projection" c)%R.
Proof.
  intros HD. eexists. split; [apply (MLP_init_ok _ _ HD); lia|].
  intros x B L Hx. rewrite Hx.
  match goal with
  | |- exists y, MLP_forward ?self x = _ /\ _ =>
      destruct (MLP_forward_3d self x B L D) as (y & Hy & Hsh & He);
        [|done|by exists y]
  end.
  unfold MLP_wf, MLP_of, Linear_of. cbn.
  rewrite !Nat2Z.id. replace 4%Z with (Z.of_nat 4) by done.
  rewrite <- Nat2Z.inj_mul, Nat2Z.id. done.
Qed.

Lemma MLP_forward_position_wise_witness :
  Init.notebook_config 65 !! "d_embed" = Some (Z.of_nat 64)
  /\ exists m, Init.MLP_init (Init.notebook_config 65) = Ok m
    /\ forall x B L, shape x = [B; L; 64] ->
         exists y, MLP_forward (MLP_of m zero_parameters) x = Ok y
           /\ shape y = shape x
           /\ forall b l c, b < B -> l < L -> c < 64 ->
                get y [b; l; c]
                = (rsum (4 * 64) (fun j =>
                     Rmax 0 (rsum 64 (fun i =>
                               get x [b; l; i]%nat
                               * weight_of zero_parameters "up_projection" j i)
                             + bias_of zero_parameters "up_projection" j)
                     * weight_of zero_parameters "down_projection" c j)
                   + bias_of zero_parameters "down_projection" c)%R.
Proof.
  split; [reflexivity|].
  exact (MLP_forward_position_wise (Init.notebook_config 65) 64
           zero_parameters eq_refl).
Defined.

(** X13.  [Transformer.forward] on a block whose heads fill the width:
    a single sequence is mapped to a tensor of the same shape; with two
    or more heads, a batch of two or more sequences (other than as many
    as there are heads) makes the block raise [RuntimeError], as its
    attention does. *)
Theorem Transformer_forward_batches self D x B L :
  Transformer_wf self D -> shape x = [B; L; D] ->
  (B = 1 -> exists out, Transformer_forward self x = Ok out
              /\ shape out = shape x)
  /\ (2 <= B -> 1 <= L -> D <> 0 -> 2 <= num_head (attention self) ->
      B <> num_head (attention self) ->
      Transformer_forward self x = Raise RuntimeError).
Proof.
  intros Hwf Hx. split.
  - intros ->. rewrite Hx. by apply Transformer_forward_single_batch.
  - intros HB HL HD HH Hne.
    by apply (Transformer_forward_raises_on_batches self x B L D).
Qed.

Lemma Transformer_forward_batches_witness :
  Transformer_wf toy_block 2
  /\ shape (full [3; 2; 2] 0%R) = [3; 2; 2]
  /\ 2 <= 3 /\ 1 <= 2 /\ 2 <> 0 /\ 2 <= num_head (attention toy_block)
  /\ 3 <> num_head (attention toy_block)
  /\ Transformer_forward toy_block (full [3; 2; 2] 0%R) = Raise RuntimeError.
Proof.
  split; [exact toy_block_wf|]. split; [reflexivity|].
  split; [lia|]. split; [lia|]. split; [lia|]. split; [simpl; lia|].
  split; [simpl; lia|].
  apply (Transformer_forward_batches toy_block 2 (full [3; 2; 2] 0%R) 3 2
           toy_block_wf eq_refl); [lia | lia | lia | simpl; lia | simpl; lia].
Defined.

(** X17.  Which token tensors [LanguageModel.forward] accepts, for
    tokens below [vocab_size]: one sequence of at most [max_len] tokens
    gives logits of shape [[1; L; vocab_size]]; sequences longer than
    [max_len] raise [RuntimeError]; so does a batch of two or more
    sequences once the model has a block (with two or more heads, the
    batch size not being the head count). *)
Theorem LanguageModel_forward_accepts model max_len x B L :
  LanguageModel_wf model max_len -> shape x = [B; L] ->
  (forall b l, b < B -> l < L -> get x [b; l] < vocab_size model) ->
  (B = 1 -> L <= max_len ->
     exists logits, LanguageModel_forward model x = Ok logits
       /\ shape logits = [1; L; vocab_size model])
  /\ (2 <= max_len < L -> LanguageModel_forward model x = Raise RuntimeError)
  /\ (2 <= B -> 1 <= L <= max_len ->
      forall t rest, transformers model = t :: rest ->
        2 <= num_head (attention t) -> B <> num_head (attention t) ->
        LanguageModel_forward model x = Raise RuntimeError).
Proof.
  intros Hwf Hx Hids. split; [|split].
  - intros -> HL. by apply (LanguageModel_forward_single model max_len).
  - intros HL. by apply (LanguageModel_forward_too_long model max_len x B L).
  - intros HB HL t rest Ht HH Hne.
    by apply (LanguageModel_forward_raises_on_batches model max_len x B L
                t rest).
Qed.

Lemma LanguageModel_forward_accepts_witness :
  LanguageModel_wf toy_model 4
  /\ shape (batch_of_one [0; 1; 1]) = [1; 3]
  /\ (forall b l, b < 1 -> l < 3 ->
        get (batch_of_one [0; 1; 1]) [b; l] < vocab_size toy_model)
  /\ 1 = 1 /\ 3 <= 4
  /\ exists logits,
       LanguageModel_forward toy_model (batch_of_one [0; 1; 1]) = Ok logits
       /\ shape logits = [1; 3; vocab_size toy_model].
Proof.
  assert (forall b l, b < 1 -> l < 3 ->
            get (batch_of_one [0; 1; 1]) [b; l] < vocab_size toy_model) as H.
  { intros b l. apply (batch_of_one_valid [0; 1; 1] 2).
    repeat constructor. }
  split; [exact toy_model_wf|]. split; [reflexivity|]. split; [exact H|].
  split; [reflexivity|]. split; [lia|].
  apply (LanguageModel_forward_accepts toy_model 4 (batch_of_one [0; 1; 1])
           1 3 toy_model_wf eq_refl H); [reflexivity | lia].
Defined.

(** X18.  [LanguageModel.forward] raises [IndexError] as soon as one
    token of its input is not below [vocab_size]. *)
Theorem LanguageModel_forward_unknown_token model max_len x B L b l :
  LanguageModel_wf model max_len -> shape x = [B; L] ->
  b < B -> l < L -> vocab_size model <= get x [b; l] ->
  LanguageModel_forward model x = Raise IndexError.
Proof.
  intros (Hnum & _) Hx Hb Hl Hge. unfold LanguageModel_forward.
  rewrite (Embedding_forward_unknown (embedding model) x B L b l);
    [done | done | done | done |]. by rewrite Hnum.
Qed.

Lemma LanguageModel_forward_unknown_token_witness :
  LanguageModel_wf toy_model 4
  /\ shape (batch_of_one [0; 2]) = [1; 2]
  /\ 0 < 1 /\ 1 < 2
  /\ vocab_size toy_model <= get (batch_of_one [0; 2]) [0; 1]
  /\ LanguageModel_forward toy_model (batch_of_one [0; 2]) = Raise IndexError.
Proof.
  assert (vocab_size toy_model <= get (batch_of_one [0; 2]) [0; 1]) as H.
  { rewrite batch_of_one_entry by (simpl; lia). simpl. lia. }
  split; [exact toy_model_wf|]. split; [reflexivity|].
  split; [lia|]. split; [lia|]. split; [exact H|].
  apply (LanguageModel_forward_unknown_token toy_model 4
           (batch_of_one [0; 2]) 1 2 0 1 toy_model_wf eq_refl);
    [lia | lia | exact H].
Defined.

(** A comprehension over a body that always succeeds with the same
    value. *)
Lemma mapM_constant {A B} (f : A -> result B) (b : B) l :
  (forall a, f a = Ok b) -> mapM f l = Ok (replicate (length l) b).
Proof.
  intros Hf. induction l as [|a l IH]; [done|].
  cbn [mapM length replicate]. by rewrite Hf, bind_Ok, IH, bind_Ok.
Qed.

Lemma nn_RMSNorm_ok d : (0 <= d)%Z -> nn_RMSNorm d = Ok d.
Proof. intros Hd. unfold nn_RMSNorm. by destruct (Z.ltb_spec d 0); [lia|]. Qed.

(** [Transformer.__init__] succeeds for a per-head width between 1
    and the embedding width, and gives the layers these widths. *)
Lemma Transformer_init_ok config D dh :
  config !! "d_embed" = Some D -> config !! "d_head" = Some dh ->
  (0 < dh <= D)%Z ->
  exists t, Transformer_init config = Ok t
    /\ forall theta gains e,
         Attention.wf (attention (Transformer_of t theta gains e))
         /\ Attention.d_embed (attention (Transformer_of t theta gains e))
            = Z.to_nat D
         /\ Attention.num_head (attention (Transformer_of t theta gains e))
            = Z.to_nat (D / dh)
         /\ Attention.d_head (attention (Transformer_of t theta gains e))
            = Z.to_nat (D / (D / dh))
         /\ normalized_shape (rmsnorm1 (Transformer_of t theta gains e))
            = Z.to_nat D
         /\ MLP_wf (mlp (Transformer_of t theta gains e)) (Z.to_nat D)
         /\ normalized_shape (rmsnorm2 (Transformer_of t theta gains e))
            = Z.to_nat D.
Proof.
  intros HD Hdh Hrange. unfold Transformer_init.
  pose proof (selfAttention_init_ok config D dh HD Hdh Hrange) as Hinit.
  rewrite Hinit, (getitem_Some _ _ _ HD), !bind_Ok.
  rewrite (nn_RMSNorm_ok D), bind_Ok by lia.
  rewrite (MLP_init_ok config D HD), !bind_Ok by lia.
  rewrite (nn_RMSNorm_ok D), bind_Ok by lia.
  eexists. split; [done|]. intros theta gains e.
  assert (1 <= D / dh)%Z as Hq by (apply Z.div_le_lower_bound; lia).
  assert (0 <= D / (D / dh))%Z by (apply Z.div_pos; lia).
  split.
  { apply (instantiate_wf config); [done | cbn; lia | cbn; lia]. }
  do 4 (split; [done|]). split; [|done].
  unfold MLP_wf, MLP_of, Linear_of. cbn.
  replace 4%Z with (Z.of_nat 4) by done.
  rewrite Z2Nat.inj_mul, Nat2Z.id by lia. done.
Qed.

(** A per-head width that divides the embedding width is kept, and
    the heads fill the width. *)
Lemma heads_fill_width (D dh : Z) :
  (0 < dh)%Z -> (0 < D)%Z -> (D mod dh = 0)%Z ->
  (D / dh * (D / (D / dh)) = D)%Z.
Proof.
  intros Hdh HD Hmod.
  assert (D = dh * (D / dh))%Z as Heq by (apply Z.div_exact; lia).
  assert (0 < D / dh)%Z as Hq by nia.
  remember (D / dh)%Z as q eqn:Hqdef. clear Hqdef.
  rewrite Heq, Z.div_mul by lia. lia.
Qed.

(** X30.  [LanguageModel.__init__] succeeds on every configuration
    with an even, non-zero width, a per-head width that divides it and
    sizes that are not negative; whatever the parameters, the model it
    builds has the layers the statements above ask for: [num_layers]
    blocks whose heads fill the width, an embedding and an output layer
    over [vocab_size] tokens, and the table of [max_len] positions. *)
Theorem LanguageModel_init_builds_the_model config n V D dh M :
  config !! "num_layers" = Some (Z.of_nat n) ->
  config !! "vocab_size" = Some (Z.of_nat V) ->
  config !! "d_embed" = Some (Z.of_nat D) ->
  config !! "d_head" = Some (Z.of_nat dh) ->
  config !! "max_len" = Some (Z.of_nat M) ->
  Nat.Even D -> D <> 0 -> dh <> 0 -> D mod dh = 0 ->
  exists dims, LanguageModel_init config = Ok dims
    /\ forall w,
         LanguageModel_wf (LanguageModel_of dims w) M
         /\ num_layers (LanguageModel_of dims w) = n
         /\ vocab_size (LanguageModel_of dims w) = V
         /\ Language.d_embed (LanguageModel_of dims w) = D.
Proof.
  intros Hn HV HD Hdh HM Heven HD0 Hdh0 Hmod.
  assert (0 < Z.of_nat dh <= Z.of_nat D)%Z as Hrange.
  { split; [lia|]. apply Nat2Z.inj_le.
    apply Nat.Div0.mod_divides in Hmod as [c ->]. destruct c; [lia|nia]. }
  assert ((Z.of_nat D mod Z.of_nat dh)%Z = 0%Z) as HmodZ.
  { rewrite <- Nat2Z.inj_mod, Hmod. done. }
  destruct (Transformer_init_ok config _ _ HD Hdh Hrange)
    as (t & Ht & Htwf).
  destruct (table_entry M D Heven HD0) as (pe & Hpe & Hsh & _).
  unfold LanguageModel_init.
  rewrite (getitem_Some _ _ _ Hn), (getitem_Some _ _ _ HV),
    (getitem_Some _ _ _ HD), !bind_Ok.
  unfold nn_Embedding.
  destruct (Z.ltb_spec (Z.of_nat V) 0); [lia|].
  destruct (Z.ltb_spec (Z.of_nat D) 0); [lia|]. cbn [orb].
  rewrite bind_Ok, (init_is_table config M D HM HD), Hpe, bind_Ok.
  rewrite (mapM_constant _ t) by done.
  rewrite bind_Ok, nn_Linear_ok, bind_Ok by lia.
  eexists. split; [reflexivity|]. intros w.
  split; [|cbn; by rewrite !Nat2Z.id].
  unfold LanguageModel_of, LanguageModel_wf. cbn.
  rewrite !Nat2Z.id, length_imap, length_replicate, length_seq.
  do 4 (split; [done|]). split; [|done].
  apply Forall_lookup. intros i t' Hi.
  rewrite list_lookup_imap in Hi.
  destruct (replicate n t !! i) as [t0|] eqn:Hrep; [|done].
  apply lookup_replicate in Hrep as [-> _]. injection Hi as <-.
  destruct (Htwf (block_parameters w i) (block_gains w i) (norm_eps w))
    as (Hwf & Hd & Hh & Hdh' & Hn1 & Hmlp & Hn2).
  rewrite Nat2Z.id in Hd, Hn1, Hmlp, Hn2.
  split; [done|]. split; [done|]. split; [|done].
  rewrite Hh, Hdh'. rewrite <- Z2Nat.inj_mul.
  - rewrite heads_fill_width by lia. by rewrite Nat2Z.id.
  - apply Z.div_pos; lia.
  - apply Z.div_pos; [lia|]. apply Z.div_str_pos. lia.
Qed.

Lemma LanguageModel_init_builds_the_model_witness :
  toy_config !! "num_layers" = Some (Z.of_nat 1)
  /\ toy_config !! "vocab_size" = Some (Z.of_nat 2)
  /\ toy_config !! "d_embed" = Some (Z.of_nat 2)
  /\ toy_config !! "d_head" = Some (Z.of_nat 1)
  /\ toy_config !! "max_len" = Some (Z.of_nat 4)
  /\ Nat.Even 2 /\ 2 <> 0 /\ 1 <> 0 /\ 2 mod 1 = 0
  /\ exists dims, LanguageModel_init toy_config = Ok dims
       /\ forall w,
            LanguageModel_wf (LanguageModel_of dims w) 4
            /\ num_layers (LanguageModel_of dims w) = 1
            /\ vocab_size (LanguageModel_of dims w) = 2
            /\ Language.d_embed (LanguageModel_of dims w) = 2.
Proof.
  assert (Nat.Even 2) as Heven by (exists 1; reflexivity).
  split; [reflexivity|]. split; [reflexivity|]. split; [reflexivity|].
  split; [reflexivity|]. split; [reflexivity|]. split; [exact Heven|].
  split; [discriminate|]. split; [discriminate|]. split; [reflexivity|].
  apply (LanguageModel_init_builds_the_model toy_config 1 2 2 1 4);
    [reflexivity | reflexivity | reflexivity | reflexivity | reflexivity
    | exact Heven | discriminate | discriminate | reflexivity].
Defined.

End LanguageFacts.

(** ** [inference] on the language model *)

Module InferenceFacts.
Import Torch TorchFacts Sampling SamplingFacts Vocabulary TokenizerFacts
  Language LanguageFacts.

(** [logits[0, -1, :]] of a tensor with a batch and a position. *)
Lemma last_logits_ok logits B L V :
  shape logits = [B; L; V] -> 1 <= B -> 1 <= L ->
  exists row, last_logits logits = Ok row /\ length row = V.
Proof.
  intros Hsh HB HL. unfold last_logits. rewrite Hsh.
  destruct (Nat.eqb_spec B 0); [lia|]. destruct (Nat.eqb_spec L 0); [lia|].
  eexists. split; [done|]. by rewrite length_map, length_seq.
Qed.

Lemma argmax_nonempty l : l <> [] -> exists j, argmax l = Ok j.
Proof. destruct l; [done|]. by eexists. Qed.

(** [torch.topk(v, k)] returns [k] values and [k] indices into [v]
    when [v] has [k] entries, and raises when it has fewer. *)
Lemma select_length k (cands : list (nat * R)) :
  k <= length cands -> length (select k cands) = k.
Proof.
  revert cands. induction k as [|k IH]; intros cands Hk; [done|].
  cbn [select].
  destruct (argmax_nonempty (cands.*2)) as (j & Hj).
  { destruct cands; [simpl in Hk; lia | done]. }
  rewrite Hj. pose proof (argmax_lt _ _ Hj) as Hlt.
  rewrite length_fmap in Hlt.
  destruct (lookup_lt_is_Some_2 cands j Hlt) as [c Hc]. rewrite Hc.
  cbn [length]. rewrite IH; [done|].
  rewrite length_delete by eauto. lia.
Qed.

Lemma select_subset k (cands : list (nat * R)) c :
  c ∈ select k cands -> c ∈ cands.
Proof.
  revert cands. induction k as [|k IH]; intros cands; cbn [select].
  - by intros ?%elem_of_nil.
  - destruct (argmax (cands.*2)) as [j|]; [|by intros ?%elem_of_nil].
    destruct (cands !! j) as [c0|] eqn:Hc0; [|by intros ?%elem_of_nil].
    intros [->|Hin]%elem_of_cons.
    + by eapply list_elem_of_lookup_2.
    + apply IH in Hin. eapply elem_of_submseteq; [done|].
      apply submseteq_delete.
Qed.

Lemma topk_ok v k :
  k <= length v ->
  exists vals idxs, topk v k = Ok (vals, idxs)
    /\ length vals = k /\ length idxs = k
    /\ Forall (fun i => i < length v) idxs.
Proof.
  intros Hk. unfold topk.
  destruct (Nat.ltb_spec (length v) k); [lia|].
  eexists _, _. split; [done|].
  rewrite !length_fmap, select_length
    by (rewrite length_zip_with, length_seq; lia).
  split; [done|]. split; [done|].
  apply Forall_fmap, Forall_forall. intros [i x] Hin%select_subset.
  apply elem_of_zip_l, elem_of_seq in Hin. simpl. lia.
Qed.

Lemma topk_too_many v k : length v < k -> topk v k = Raise RuntimeError.
Proof. intros Hk. unfold topk. by destruct (Nat.ltb_spec (length v) k); [|lia]. Qed.

Section Loop.
Context {rng : Type}.
Variable multinomial : list R -> rng -> nat * rng.
Variable LLM : list nat -> result (tensor R).

(** One turn of the loop appends a token below the vocabulary size,
    for every draw of the generator. *)
Lemma step_ok top_k generated g logits B L V :
  in_range multinomial ->
  LLM generated = Ok logits -> shape logits = [B; L; V] ->
  1 <= B -> 1 <= L -> 1 <= top_k <= V ->
  exists next_token g',
    step multinomial LLM top_k generated g
    = (Ok (generated ++ [next_token]), g')
    /\ next_token < V.
Proof.
  intros Hrange HLLM Hsh HB HL Hk. unfold step. rewrite HLLM, bind_Ok.
  destruct (last_logits_ok logits B L V Hsh HB HL) as (row & -> & Hrow).
  rewrite bind_Ok.
  destruct (topk_ok row top_k) as (vals & idxs & -> & Hvals & Hidxs & Hlt);
    [lia|].
  cbn zeta.
  assert (length (softmax_list vals) = top_k) as Hprobs
    by (unfold softmax_list; by rewrite !length_map).
  destruct (softmax_list vals) as [|p0 probs'] eqn:Hp;
    [simpl in Hprobs; lia|].
  pose proof (Hrange (p0 :: probs') g ltac:(done)) as Hi.
  destruct (multinomial (p0 :: probs') g) as [i g'].
  cbn [fst] in Hi. rewrite Hprobs, <- Hidxs in Hi.
  destruct (lookup_lt_is_Some_2 idxs i Hi) as [t Ht]. rewrite Ht.
  exists t, g'. split; [done|].
  rewrite Forall_lookup in Hlt. apply Hlt in Ht. lia.
Qed.

(** The loop appends [n] tokens as long as the model answers every
    sequence it is called on. *)
Lemma loop_ok V top_k n generated g :
  in_range multinomial ->
  1 <= top_k <= V ->
  (forall gen k, k < n -> length gen = length generated + k ->
     Forall (fun t => t < V) gen ->
     exists logits, LLM gen = Ok logits
       /\ shape logits = [1; length gen; V]) ->
  1 <= length generated ->
  Forall (fun t => t < V) generated ->
  exists new g',
    loop multinomial LLM n top_k generated g = (Ok (generated ++ new), g')
    /\ length new = n /\ Forall (fun t => t < V) new.
Proof.
  intros Hrange Hk. revert generated g.
  induction n as [|n IH]; intros generated g HLLM Hlen Hgen.
  - exists [], g. by rewrite app_nil_r.
  - cbn [loop].
    destruct (HLLM generated 0) as (logits & Hl & Hsh); [lia | lia | done |].
    destruct (step_ok top_k generated g logits 1 (length generated) V)
      as (t & g1 & -> & Ht); [done..|lia|done|done|].
    destruct (IH (generated ++ [t]) g1) as (new & g' & -> & Hnew & Hall).
    + intros gen k Hk' Hgl. apply (HLLM gen (S k)); [lia|].
      rewrite Hgl, length_app. simpl. lia.
    + rewrite length_app. simpl. lia.
    + apply Forall_app. split; [done|]. by repeat constructor.
    + exists (t :: new), g'. rewrite <- app_assoc. split; [done|].
      split; [simpl; lia|]. by constructor.
Qed.


(** The ways one turn of the loop raises. *)
Lemma step_LLM_raises top_k generated g e :
  LLM generated = Raise e ->
  step multinomial LLM top_k generated g = (Raise e, g).
Proof. intros H. unfold step. by rewrite H. Qed.

Lemma step_top_k_out_of_range top_k generated g logits B L V :
  LLM generated = Ok logits -> shape logits = [B; L; V] ->
  1 <= B -> 1 <= L -> top_k = 0 \/ V < top_k ->
  step multinomial LLM top_k generated g = (Raise RuntimeError, g).
Proof.
  intros H Hsh HB HL Hk. unfold step. rewrite H, bind_Ok.
  destruct (last_logits_ok logits B L V Hsh HB HL) as (row & -> & Hrow).
  rewrite bind_Ok. destruct Hk as [->|Hk].
  - unfold topk. by destruct (Nat.ltb_spec (length row) 0); [lia|].
  - by rewrite topk_too_many by lia.
Qed.

End Loop.

Lemma toy_multinomial_in_range : in_range toy_multinomial.
Proof.
  intros p g Hp. unfold toy_multinomial. simpl.
  apply Nat.mod_upper_bound. by destruct p.
Qed.

(** A loop that needs more than [max_len + 1] positions raises. *)
Lemma loop_beyond_max_len {rng} (multinomial : list R -> rng -> nat * rng)
    model max_len top_k n generated g :
  in_range multinomial -> LanguageModel_wf model max_len ->
  1 <= top_k <= vocab_size model -> 2 <= max_len ->
  Forall (fun t => t < vocab_size model) generated ->
  1 <= length generated -> 1 <= n -> max_len + 1 < length generated + n ->
  exists g', loop multinomial (LLM_of model) n top_k generated g
             = (Raise RuntimeError, g').
Proof.
  intros Hrange Hwf Hk Hmax. revert generated g.
  induction n as [|n IH]; intros generated g Hgen Hlen Hn Hover; [lia|].
  cbn [loop]. destruct (le_lt_dec (length generated) max_len) as [Hle|Hgt].
  - destruct (LLM_of_single_sequence model max_len generated Hwf Hgen)
      as (logits & Hl & Hsh); [lia|].
    destruct (step_ok multinomial (LLM_of model) top_k generated g logits 1
                (length generated) (vocab_size model))
      as (t & g1 & -> & Ht); [done..|lia|done|done|].
    apply IH.
    + apply Forall_app. split; [done|]. by repeat constructor.
    + rewrite length_app. simpl. lia.
    + lia.
    + rewrite length_app. simpl. lia.
  - rewrite step_LLM_raises with (e := RuntimeError); [by eexists|].
    apply (LLM_of_too_long model max_len); [done..|lia].
Qed.

(** [encode] raises nothing but [KeyError]. *)
Lemma encode_raises_KeyError tokenizer text e :
  encode tokenizer text = Raise e -> e = KeyError.
Proof.
  intros (a & _ & Ha)%mapM_Raise_inv.
  by apply subscript_Raise in Ha as [_ ->].
Qed.

(** X19.  [inference] on the language model itself.  With a tokenizer
    and a model over the same vocabulary, a non-empty prompt in the
    characters of the data set, room for the new tokens within
    [max_len] and [top_k] between 1 and the vocabulary size, [inference]
    returns the prompt followed by exactly [n] characters of the data
    set, whatever the generator draws; it prints the generated row once
    and leaves the module passed as [model] in evaluation mode. *)
Theorem inference_on_single_sequence {rng}
    (multinomial : list R -> rng -> nat * rng)
    model_id model max_len dataset prompt n top_k w :
  in_range multinomial ->
  LanguageModel_wf model max_len ->
  Language.vocab_size model = Sampling.vocab_size (Tokenizer_init dataset) ->
  (forall c, c ∈ prompt -> c ∈ dataset) ->
  1 <= length prompt -> length prompt + n <= max_len + 1 ->
  1 <= top_k <= Language.vocab_size model ->
  exists new printed w',
    inference multinomial (LLM_of model) model_id (Tokenizer_init dataset)
              prompt n top_k w
    = (Ok (prompt ++ new), w')
    /\ length new = n
    /\ (forall c, c ∈ new -> c ∈ dataset)
    /\ training w' = <[model_id := false]> (training w)
    /\ stdout w' = stdout w ++ [printed]
    /\ decode (Tokenizer_init dataset) printed = Ok (prompt ++ new).
Proof.
  intros Hrange Hwf HV Hin Hlen Hmax Hk.
  destruct (tokens_of_known dataset prompt Hin) as (ids & Hids).
  destruct (tokens_of_bounds _ _ _ Hids) as (Hidlen & Hidlt & _).
  rewrite <- HV in Hidlt.
  unfold inference. rewrite (proj2 (encode_tokens_of _ _ _) Hids).
  destruct (loop_ok multinomial (LLM_of model) (Language.vocab_size model)
              top_k n ids (generator (eval model_id w)))
    as (new_ids & g' & -> & Hnew & Hnewlt); [done | done | | lia | done |].
  { intros gen k Hk' Hgl Hgen.
    apply (LLM_of_single_sequence model max_len); [done | done | lia]. }
  rewrite HV in Hnewlt.
  destruct (tokens_of_valid dataset new_ids Hnewlt) as (new & Hnewtok).
  destruct (tokens_of_bounds _ _ _ Hnewtok) as (Hlen' & _ & Hin').
  assert (decode (Tokenizer_init dataset) (ids ++ new_ids)
          = Ok (prompt ++ new)) as Hdec.
  { apply decode_tokens_of. by apply Forall2_app. }
  rewrite Hdec. eexists new, (ids ++ new_ids), _. split; [done|].
  split; [lia|]. done.
Qed.

Lemma inference_on_single_sequence_witness :
  in_range toy_multinomial
  /\ LanguageModel_wf toy_model 4
  /\ Language.vocab_size toy_model = Sampling.vocab_size (Tokenizer_init [97%N; 98%N])
  /\ (forall c, c ∈ [98%N; 97%N] -> c ∈ [97%N; 98%N])
  /\ 1 <= length [98%N; 97%N] /\ length [98%N; 97%N] + 3 <= 4 + 1
  /\ 1 <= 2 <= Language.vocab_size toy_model
  /\ exists new printed w',
       inference toy_multinomial (LLM_of toy_model) 0
                 (Tokenizer_init [97%N; 98%N]) [98%N; 97%N] 3 2
                 (World ∅ 0 [])
       = (Ok ([98%N; 97%N] ++ new), w')
       /\ length new = 3
       /\ (forall c, c ∈ new -> c ∈ [97%N; 98%N])
       /\ training w' = <[0 := false]> ∅
       /\ stdout w' = [] ++ [printed]
       /\ decode (Tokenizer_init [97%N; 98%N]) printed
          = Ok ([98%N; 97%N] ++ new).
Proof.
  assert (forall c, c ∈ [98%N; 97%N] -> c ∈ [97%N; 98%N]) as Hin.
  { apply Forall_forall. apply (bool_decide_unpack _). by vm_compute. }
  split; [exact toy_multinomial_in_range|]. split; [exact toy_model_wf|].
  split; [reflexivity|]. split; [exact Hin|].
  split; [simpl; lia|]. split; [simpl; lia|]. split; [simpl; lia|].
  apply (inference_on_single_sequence toy_multinomial 0 toy_model 4
           [97%N; 98%N] [98%N; 97%N] 3 2 (World ∅ 0 [])
           toy_multinomial_in_range toy_model_wf eq_refl Hin);
    simpl; lia.
Defined.

(** X20.  With [max_new_tokens = 0] the model is not called:
    [inference] returns the prompt unchanged and prints its encoding,
    for every model and every [top_k]. *)
Theorem inference_without_new_tokens {rng}
    (multinomial : list R -> rng -> nat * rng)
    (LLM : list nat -> result (tensor R))
    model_id dataset prompt top_k w :
  (forall c, c ∈ prompt -> c ∈ dataset) ->
  exists ids,
    encode (Tokenizer_init dataset) prompt = Ok ids
    /\ inference multinomial LLM model_id (Tokenizer_init dataset) prompt
                 0 top_k w
       = (Ok prompt,
          {| training := <[model_id := false]> (training w);
             generator := generator w;
             stdout := stdout w ++ [ids] |}).
Proof.
  intros Hin. destruct (tokens_of_known dataset prompt Hin) as (ids & Hids).
  exists ids. split; [by apply encode_tokens_of|].
  unfold inference. rewrite (proj2 (encode_tokens_of _ _ _) Hids).
  cbn [loop]. by rewrite (proj2 (decode_tokens_of _ _ _) Hids).
Qed.

Lemma inference_without_new_tokens_witness :
  (forall c, c ∈ [98%N; 97%N] -> c ∈ [97%N; 98%N])
  /\ exists ids,
       encode (Tokenizer_init [97%N; 98%N]) [98%N; 97%N] = Ok ids
       /\ inference toy_multinomial toy_LLM 0 (Tokenizer_init [97%N; 98%N])
                    [98%N; 97%N] 0 4 (World ∅ 0 [])
          = (Ok [98%N; 97%N],
             {| training := <[0 := false]> ∅; generator := 0;
                stdout := [] ++ [ids] |}).
Proof.
  assert (forall c, c ∈ [98%N; 97%N] -> c ∈ [97%N; 98%N]) as Hin.
  { apply Forall_forall. apply (bool_decide_unpack _). by vm_compute. }
  split; [exact Hin|].
  exact (inference_without_new_tokens toy_multinomial toy_LLM 0
           [97%N; 98%N] [98%N; 97%N] 4 (World ∅ 0 []) Hin).
Defined.

(** X21.  A prompt with a character that is not in the data set makes
    [inference] raise [KeyError] before the model is called: nothing is
    printed, no random number is drawn, and the module passed as
    [model] is in evaluation mode already. *)
Theorem inference_unknown_character {rng}
    (multinomial : list R -> rng -> nat * rng)
    (LLM : list nat -> result (tensor R))
    model_id dataset prompt c n top_k w :
  c ∈ prompt -> c ∉ dataset ->
  inference multinomial LLM model_id (Tokenizer_init dataset) prompt
            n top_k w
  = (Raise KeyError, eval model_id w).
Proof.
  intros Hc Hnot. unfold inference.
  destruct (encode _ prompt) as [ids|e] eqn:E.
  - apply encode_tokens_of, tokens_of_bounds in E as (_ & _ & Hin).
    by apply Hin in Hc.
  - by rewrite (encode_raises_KeyError _ _ _ E).
Qed.

Lemma inference_unknown_character_witness :
  99%N ∈ [98%N; 99%N] /\ (99%N ∉ [97%N; 98%N])
  /\ inference toy_multinomial toy_LLM 0 (Tokenizer_init [97%N; 98%N])
               [98%N; 99%N] 5 4 (World ∅ 0 [])
     = (Raise KeyError, eval 0 (World ∅ 0 [])).
Proof.
  assert (99%N ∈ [98%N; 99%N]) as H1
    by (apply (bool_decide_unpack _); by vm_compute).
  assert (99%N ∉ [97%N; 98%N]) as H2
    by (apply (bool_decide_unpack _); by vm_compute).
  split; [exact H1|]. split; [exact H2|].
  exact (inference_unknown_character toy_multinomial toy_LLM 0 [97%N; 98%N]
           [98%N; 99%N] 99%N 5 4 (World ∅ 0 []) H1 H2).
Defined.

(** X22.  On the empty prompt [inference] raises [RuntimeError] at its
    first new token: [torch.tensor([])] is a float tensor, which the
    embedding of the model refuses, so that no logits are computed.
    Nothing is printed and no random number is drawn.  (When no new
    token is asked for, the model is not called and the empty prompt is
    returned, see X20.) *)
Theorem inference_empty_prompt {rng}
    (multinomial : list R -> rng -> nat * rng)
    model_id model tokenizer n top_k w :
  1 <= n ->
  inference multinomial (LLM_of model) model_id tokenizer [] n top_k w
  = (Raise RuntimeError, eval model_id w).
Proof.
  intros Hn. unfold inference. cbn [encode mapM mret result_ret].
  destruct n as [|n]; [lia|]. cbn [loop].
  by rewrite (step_LLM_raises multinomial (LLM_of model) top_k [] _
                RuntimeError (LLM_of_empty model)).
Qed.

Lemma inference_empty_prompt_witness :
  1 <= 3
  /\ inference toy_multinomial (LLM_of toy_model) 0
               (Tokenizer_init [97%N; 98%N]) [] 3 2 (World ∅ 0 [])
     = (Raise RuntimeError, eval 0 (World ∅ 0 [])).
Proof.
  split; [lia|].
  apply (inference_empty_prompt toy_multinomial 0 toy_model); lia.
Defined.

(** X23.  [top_k = 0] and a [top_k] above the vocabulary size make
    [inference] raise [RuntimeError] at its first new token. *)
Theorem inference_top_k_out_of_range {rng}
    (multinomial : list R -> rng -> nat * rng)
    model_id model max_len dataset prompt n top_k w :
  LanguageModel_wf model max_len ->
  Sampling.vocab_size (Tokenizer_init dataset) <= Language.vocab_size model ->
  (forall c, c ∈ prompt -> c ∈ dataset) ->
  1 <= length prompt <= max_len -> 1 <= n ->
  top_k = 0 \/ Language.vocab_size model < top_k ->
  inference multinomial (LLM_of model) model_id (Tokenizer_init dataset)
            prompt n top_k w
  = (Raise RuntimeError, eval model_id w).
Proof.
  intros Hwf HV Hin Hlen Hn Hk.
  destruct (tokens_of_known dataset prompt Hin) as (ids & Hids).
  destruct (tokens_of_bounds _ _ _ Hids) as (Hidlen & Hidlt & _).
  unfold inference. rewrite (proj2 (encode_tokens_of _ _ _) Hids).
  destruct n as [|n]; [lia|]. cbn [loop].
  destruct (LLM_of_single_sequence model max_len ids Hwf)
    as (logits & Hl & Hsh); [|lia|].
  { eapply Forall_impl; [exact Hidlt|]. intros i Hi. simpl in *. lia. }
  by rewrite (step_top_k_out_of_range multinomial (LLM_of model) top_k ids _
                logits 1 (length ids) (Language.vocab_size model) Hl Hsh)
    by (done || lia).
Qed.

Lemma inference_top_k_out_of_range_witness :
  LanguageModel_wf toy_model 4
  /\ Sampling.vocab_size (Tokenizer_init [97%N; 98%N]) <= Language.vocab_size toy_model
  /\ (forall c, c ∈ [98%N; 97%N] -> c ∈ [97%N; 98%N])
  /\ 1 <= length [98%N; 97%N] <= 4 /\ 1 <= 3
  /\ (4 = 0 \/ Language.vocab_size toy_model < 4)
  /\ inference toy_multinomial (LLM_of toy_model) 0
               (Tokenizer_init [97%N; 98%N]) [98%N; 97%N] 3 4 (World ∅ 0 [])
     = (Raise RuntimeError, eval 0 (World ∅ 0 [])).
Proof.
  assert (forall c, c ∈ [98%N; 97%N] -> c ∈ [97%N; 98%N]) as Hin.
  { apply Forall_forall. apply (bool_decide_unpack _). by vm_compute. }
  assert (Sampling.vocab_size (Tokenizer_init [97%N; 98%N])
          <= Language.vocab_size toy_model) as HV by (vm_compute; lia).
  split; [exact toy_model_wf|]. split; [exact HV|]. split; [exact Hin|].
  split; [simpl; lia|]. split; [lia|]. split; [right; simpl; lia|].
  apply (inference_top_k_out_of_range toy_multinomial 0 toy_model 4
           [97%N; 98%N] [98%N; 97%N] 3 4 (World ∅ 0 []) toy_model_wf HV Hin);
    [simpl; lia | lia | right; simpl; lia].
Defined.

(** X24.  Generation cannot run past [max_len]: when the prompt and
    the new tokens together need more than [max_len + 1] positions,
    [inference] raises [RuntimeError] and prints nothing, whatever the
    generator draws. *)
Theorem inference_beyond_max_len {rng}
    (multinomial : list R -> rng -> nat * rng)
    model_id model max_len dataset prompt n top_k w :
  in_range multinomial ->
  LanguageModel_wf model max_len ->
  Sampling.vocab_size (Tokenizer_init dataset) <= Language.vocab_size model ->
  (forall c, c ∈ prompt -> c ∈ dataset) ->
  1 <= length prompt -> 2 <= max_len -> 1 <= n ->
  max_len + 1 < length prompt + n ->
  1 <= top_k <= Language.vocab_size model ->
  exists w',
    inference multinomial (LLM_of model) model_id (Tokenizer_init dataset)
              prompt n top_k w
    = (Raise RuntimeError, w')
    /\ training w' = <[model_id := false]> (training w)
    /\ stdout w' = stdout w.
Proof.
  intros Hrange Hwf HV Hin Hlen Hmax Hn Hover Hk.
  destruct (tokens_of_known dataset prompt Hin) as (ids & Hids).
  destruct (tokens_of_bounds _ _ _ Hids) as (Hidlen & Hidlt & _).
  unfold inference. rewrite (proj2 (encode_tokens_of _ _ _) Hids).
  destruct (loop_beyond_max_len multinomial model max_len top_k n ids
              (generator (eval model_id w))) as (g' & ->);
    try done; try lia.
  - eapply Forall_impl; [exact Hidlt|]. intros i Hi. simpl in *. lia.
  - by eexists.
Qed.

Lemma inference_beyond_max_len_witness :
  in_range toy_multinomial
  /\ LanguageModel_wf toy_model 4
  /\ Sampling.vocab_size (Tokenizer_init [97%N; 98%N]) <= Language.vocab_size toy_model
  /\ (forall c, c ∈ [98%N; 97%N] -> c ∈ [97%N; 98%N])
  /\ 1 <= length [98%N; 97%N] /\ 2 <= 4 /\ 1 <= 4
  /\ 4 + 1 < length [98%N; 97%N] + 4
  /\ 1 <= 2 <= Language.vocab_size toy_model
  /\ exists w',
       inference toy_multinomial (LLM_of toy_model) 0
                 (Tokenizer_init [97%N; 98%N]) [98%N; 97%N] 4 2
                 (World ∅ 0 [])
       = (Raise RuntimeError, w')
       /\ training w' = <[0 := false]> ∅
       /\ stdout w' = [].
Proof.
  assert (forall c, c ∈ [98%N; 97%N] -> c ∈ [97%N; 98%N]) as Hin.
  { apply Forall_forall. apply (bool_decide_unpack _). by vm_compute. }
  assert (Sampling.vocab_size (Tokenizer_init [97%N; 98%N])
          <= Language.vocab_size toy_model) as HV by (vm_compute; lia).
  split; [exact toy_multinomial_in_range|]. split; [exact toy_model_wf|].
  split; [exact HV|]. split; [exact Hin|].
  split; [simpl; lia|]. split; [lia|]. split; [lia|]. split; [simpl; lia|].
  split; [simpl; lia|].
  apply (inference_beyond_max_len toy_multinomial 0 toy_model 4
           [97%N; 98%N] [98%N; 97%N] 4 2 (World ∅ 0 [])
           toy_multinomial_in_range toy_model_wf HV Hin);
    simpl; lia.
Defined.





End InferenceFacts.

(** ** The Boltzmann machine *)

Module EnergyFacts.
Import Torch TorchFacts AttentionFacts Energy.
Local Open Scope R_scope.

(** Element-wise operations on two tensors of the same shape. *)
Lemma broadcast2_same_2d {A B C} (op : A -> B -> C) a b n m :
  shape a = [n; m]%nat -> shape b = [n; m]%nat ->
  exists t, broadcast2 op a b = Ok t
    /\ shape t = [n; m]%nat
    /\ forall i j, (i < n)%nat -> (j < m)%nat ->
         get t [i; j] = op (get a [i; j]) (get b [i; j]).
Proof.
  intros Ha Hb. unfold broadcast2. rewrite Ha, Hb.
  assert (broadcast_rev (rev [n; m]%nat) (rev [n; m]%nat) = Ok [m; n]) as ->.
  { cbn [rev app broadcast_rev]. by rewrite !Nat.eqb_refl, !bind_Ok. }
  rewrite bind_Ok. eexists. split; [done|]. split; [done|].
  intros i j Hi Hj. cbn [rev app].
  rewrite get_from_fun by in_bounds.
  unfold operand_index. cbn [rev app operand_index_rev].
  by rewrite !stretch_index.
Qed.

Lemma broadcast2_same_1d {A B C} (op : A -> B -> C) a b n :
  shape a = [n]%nat -> shape b = [n]%nat ->
  exists t, broadcast2 op a b = Ok t
    /\ shape t = [n]%nat
    /\ forall i, (i < n)%nat -> get t [i] = op (get a [i]) (get b [i]).
Proof.
  intros Ha Hb. unfold broadcast2. rewrite Ha, Hb.
  assert (broadcast_rev (rev [n]%nat) (rev [n]%nat) = Ok [n]) as ->.
  { cbn [rev app broadcast_rev]. by rewrite !Nat.eqb_refl, !bind_Ok. }
  rewrite bind_Ok. eexists. split; [done|]. split; [done|].
  intros i Hi. cbn [rev app].
  rewrite get_from_fun by in_bounds.
  unfold operand_index. cbn [rev app operand_index_rev].
  by rewrite !stretch_index.
Qed.

(** The matrix operations of the machine, entry by entry. *)
Lemma matmul_2d a b N D P :
  shape a = [N; D]%nat -> shape b = [D; P]%nat ->
  exists t, matmul a b = Ok t
    /\ shape t = [N; P]%nat
    /\ forall n p, (n < N)%nat -> (p < P)%nat ->
         get t [n; p] = rsum D (fun d => get a [n; d] * get b [d; p]).
Proof.
  intros Ha Hb. unfold matmul. rewrite Ha, Hb. cbn [rev app].
  rewrite Nat.eqb_refl, bool_decide_eq_true_2 by done. cbn [andb].
  eexists. split; [done|]. split; [done|].
  intros n p Hn Hp. by rewrite get_from_fun by in_bounds.
Qed.

Lemma sum_dim1_2d t N D :
  shape t = [N; D]%nat ->
  exists s, sum_dim1 t = Ok s /\ shape s = [N]%nat
    /\ forall n, (n < N)%nat -> get s [n] = rsum D (fun d => get t [n; d]).
Proof.
  intros Ht. unfold sum_dim1. rewrite Ht.
  eexists. split; [done|]. split; [done|].
  intros n Hn. by rewrite get_from_fun by in_bounds.
Qed.

Lemma matvec_ok a v N D :
  shape a = [N; D]%nat -> shape v = [D]%nat ->
  exists s, matvec a v = Ok s /\ shape s = [N]%nat
    /\ forall n, (n < N)%nat ->
         get s [n] = rsum D (fun d => get a [n; d] * get v [d]).
Proof.
  intros Ha Hv. unfold matvec. rewrite Ha, Hv, Nat.eqb_refl.
  eexists. split; [done|]. split; [done|].
  intros n Hn. by rewrite get_from_fun by in_bounds.
Qed.

Lemma column_ok t N D l :
  shape t = [N; D]%nat -> (l < D)%nat ->
  exists c, column t l = Ok c /\ shape c = [N]%nat
    /\ forall n, (n < N)%nat -> get c [n] = get t [n; l].
Proof.
  intros Ht Hl. unfold column. rewrite Ht.
  destruct (Nat.ltb_spec l D); [|lia].
  eexists. split; [done|]. split; [done|].
  intros n Hn. by rewrite get_from_fun by in_bounds.
Qed.

Lemma tmap_1d {A B} (f : A -> B) t N :
  shape t = [N]%nat ->
  shape (tmap f t) = [N]%nat
  /\ forall n, (n < N)%nat -> get (tmap f t) [n] = f (get t [n]).
Proof.
  intros Ht. unfold tmap. rewrite Ht. split; [done|].
  intros n Hn. by rewrite get_from_fun by in_bounds.
Qed.

Lemma tmap_2d {A B} (f : A -> B) t N D :
  shape t = [N; D]%nat ->
  shape (tmap f t) = [N; D]%nat
  /\ forall n d, (n < N)%nat -> (d < D)%nat ->
       get (tmap f t) [n; d] = f (get t [n; d]).
Proof.
  intros Ht. unfold tmap. rewrite Ht. split; [done|].
  intros n d Hn Hd. by rewrite get_from_fun by in_bounds.
Qed.

(** The mask is 0 on the diagonal and 1 elsewhere. *)
Lemma mask_entry n i j :
  (i < n)%nat -> (j < n)%nat ->
  get (tmap (fun x => 1 - x) (eye n)) [i; j] = offdiag i j.
Proof.
  intros Hi Hj.
  destruct (tmap_2d (fun x => 1 - x) (eye n) n n eq_refl) as [_ ->];
    [|done..].
  unfold eye. rewrite get_from_fun by in_bounds. unfold offdiag.
  destruct (i =? j)%nat; lra.
Qed.

Lemma W_masked_ok self n :
  wf self n ->
  exists Wm, mul (W self) (mask self) = Ok Wm
    /\ shape Wm = [n; n]%nat
    /\ forall i j, (i < n)%nat -> (j < n)%nat ->
         get Wm [i; j] = get (W self) [i; j] * offdiag i j.
Proof.
  intros (HW & Hmask & _).
  destruct (broadcast2_same_2d Rmult (W self) (mask self) n n HW)
    as (Wm & HWm & Hsh & Hent); [by rewrite Hmask|].
  exists Wm. split; [done|]. split; [done|].
  intros i j Hi Hj. by rewrite Hent, Hmask, mask_entry.
Qed.

(** [energy] and [cond_prob] are given by the closed forms. *)
Lemma energy_entry self v n N :
  wf self n -> shape v = [N; n]%nat ->
  exists e, energy self v = Ok e /\ shape e = [N]%nat
    /\ forall k, (k < N)%nat -> get e [k] = energy_value self v n k.
Proof.
  intros Hwf Hv. unfold energy.
  destruct (W_masked_ok self n Hwf) as (Wm & -> & HWm & HWme).
  rewrite bind_Ok.
  destruct (matmul_2d v Wm N n n Hv HWm) as (vW & -> & HvW & HvWe).
  rewrite bind_Ok.
  destruct (broadcast2_same_2d Rmult vW v N n HvW Hv)
    as (q & Hq & Hqsh & Hqe).
  unfold mul at 1. rewrite Hq, bind_Ok.
  destruct (sum_dim1_2d q N n Hqsh) as (s & -> & Hs & Hse).
  rewrite bind_Ok.
  destruct Hwf as (_ & _ & Hb).
  destruct (matvec_ok v (v_bias self) N n Hv Hb) as (l & -> & Hl & Hle).
  rewrite bind_Ok.
  destruct (tmap_1d (Rmult (-0.5)) s N Hs) as [Hquad Hquade].
  destruct (tmap_1d Ropp l N Hl) as [Hlin Hline].
  destruct (broadcast2_same_1d Rplus _ _ N Hquad Hlin)
    as (e & He & Hesh & Hee).
  unfold Block.add. rewrite He. exists e. split; [done|]. split; [done|].
  intros k Hk. rewrite Hee, Hquade, Hline, Hse, Hle by done.
  unfold energy_value. f_equal. f_equal.
  apply rsum_ext. intros j Hj. rewrite Hqe, HvWe by done. f_equal.
  apply rsum_ext. intros i Hi. by rewrite HWme.
Qed.

Lemma cond_prob_entry self v n N l :
  wf self n -> shape v = [N; n]%nat -> (l < n)%nat ->
  exists p, cond_prob self v l = Ok p /\ shape p = [N]%nat
    /\ forall k, (k < N)%nat ->
         get p [k] = sigmoid (activation_value self v n k l).
Proof.
  intros Hwf Hv Hl. unfold cond_prob.
  destruct (W_masked_ok self n Hwf) as (Wm & -> & HWm & HWme).
  rewrite bind_Ok.
  destruct (column_ok Wm n n l HWm Hl) as (c & -> & Hc & Hce).
  rewrite bind_Ok.
  destruct (matvec_ok v c N n Hv Hc) as (a & -> & Ha & Hae).
  rewrite bind_Ok.
  destruct (tmap_1d sigmoid a N Ha) as [Hp Hpe].
  eexists. split; [done|]. split; [done|].
  intros k Hk. rewrite Hpe, Hae by done. unfold activation_value. f_equal.
  apply rsum_ext. intros j Hj. by rewrite Hce, HWme.
Qed.

(** [v[:, i] = src] replaces column [i] and nothing else. *)
Lemma setitem_column_ok v i src N D :
  shape v = [N; D]%nat -> shape src = [N]%nat -> (i < D)%nat ->
  exists v', setitem_column v i src = Ok v'
    /\ shape v' = [N; D]%nat
    /\ forall n d, (n < N)%nat -> (d < D)%nat ->
         get v' [n; d] = if (d =? i)%nat then get src [n] else get v [n; d].
Proof.
  intros Hv Hs Hi. unfold setitem_column. rewrite Hv, Hs.
  destruct (Nat.ltb_spec i D); [|lia]. rewrite Nat.eqb_refl. cbn [orb].
  eexists. split; [done|]. split; [done|].
  intros n d Hn Hd. rewrite get_from_fun by in_bounds.
  by rewrite stretch_index.
Qed.

Lemma clone_entry t idx :
  Forall2 lt idx (shape t) -> get (clone t) idx = get t idx.
Proof. intros H. unfold clone. by rewrite get_from_fun. Qed.

Section Chain.
Context {rng : Type}.
Variable bernoulli : tensor R -> rng -> tensor R * rng.

(** A sweep over the columns [cols] leaves zeros and ones in these
    columns and keeps the others. *)
Lemma sweep_ok self n N cols v g :
  binary_sampler bernoulli -> wf self n -> shape v = [N; n]%nat -> Forall (fun i => (i < n)%nat) cols ->
  exists v' g', sweep bernoulli self cols v g = (Ok v', g')
    /\ shape v' = [N; n]%nat
    /\ forall k d, (k < N)%nat -> (d < n)%nat ->
         (d ∈ cols -> get v' [k; d] = 0 \/ get v' [k; d] = 1)
         /\ (d ∉ cols -> get v' [k; d] = get v [k; d]).
Proof.
  intros Hsampler Hwf Hv Hcols. revert v g Hv.
  induction Hcols as [|i rest Hi _ IH]; intros v g Hv.
  - exists v, g. split; [done|]. split; [done|].
    intros k d _ _. split; [by intros ?%elem_of_nil | done].
  - cbn [sweep].
    destruct (cond_prob_entry self v n N i Hwf Hv Hi) as (p & -> & Hp & _).
    destruct (Hsampler p g) as [Hssh Hsbin].
    destruct (bernoulli p g) as [s g1]. cbn [fst] in Hssh, Hsbin.
    rewrite Hp in Hssh, Hsbin.
    destruct (setitem_column_ok v i s N n Hv Hssh Hi)
      as (v1 & -> & Hv1 & Hv1e).
    destruct (IH v1 g1 Hv1) as (v' & g' & -> & Hv' & Hv'e).
    exists v', g'. split; [done|]. split; [done|].
    intros k d Hk Hd. destruct (Hv'e k d Hk Hd) as [Hin Hout].
    destruct (decide (d ∈ rest)) as [Hr|Hr].
    + split; [by intros _; apply Hin|].
      intros Hnot. exfalso. apply Hnot. by right.
    + split.
      * intros [->|?]%elem_of_cons; [|done].
        rewrite (Hout Hr), Hv1e, Nat.eqb_refl by done.
        apply Hsbin. in_bounds.
      * intros Hnot. rewrite (Hout Hr), Hv1e by done.
        destruct (Nat.eqb_spec d i) as [->|]; [|done].
        exfalso. apply Hnot. by left.
Qed.

(** After one sweep or more over all columns, every unit is 0 or
    1. *)
Lemma sweeps_ok self n N k v g :
  binary_sampler bernoulli -> wf self n -> shape v = [N; n]%nat ->
  exists v' g', sweeps bernoulli self k v g = (Ok v', g')
    /\ shape v' = [N; n]%nat
    /\ forall i d, (i < N)%nat -> (d < n)%nat ->
         (k = 0%nat -> get v' [i; d] = get v [i; d])
         /\ ((1 <= k)%nat -> get v' [i; d] = 0 \/ get v' [i; d] = 1).
Proof.
  intros Hsampler Hwf. revert v g. induction k as [|k IH]; intros v g Hv.
  - exists v, g. split; [done|]. split; [done|].
    intros i d _ _. split; [done | lia].
  - cbn [sweeps]. rewrite Hv.
    destruct (sweep_ok self n N (seq 0 n) v g Hsampler Hwf Hv)
      as (v1 & g1 & -> & Hv1 & Hv1e).
    { apply Forall_forall. intros i Hi%elem_of_seq. lia. }
    destruct (IH v1 g1 Hv1) as (v' & g' & -> & Hv' & Hv'e).
    exists v', g'. split; [done|]. split; [done|].
    intros i d Hi Hd. split; [lia|]. intros _.
    destruct (Hv'e i d Hi Hd) as [Hzero Hpos].
    destruct k as [|k]; [|apply Hpos; lia].
    rewrite Hzero by done. apply (Hv1e i d Hi Hd).
    apply elem_of_seq. lia.
Qed.

Lemma gibbs_sample_shape self n N k v0 g :
  binary_sampler bernoulli -> wf self n -> shape v0 = [N; n]%nat ->
  exists v g', gibbs_sample bernoulli self v0 k g = (Ok v, g')
    /\ shape v = [N; n]%nat.
Proof.
  intros Hsampler Hwf Hv0. unfold gibbs_sample.
  destruct (sweeps_ok self n N k (clone v0) g Hsampler Hwf)
    as (v & g' & -> & Hv & _); [unfold clone; by rewrite Hv0|].
  by exists v, g'.
Qed.

Lemma mean_dim0_2d t N D :
  shape t = [N; D]%nat ->
  exists m, mean_dim0 t = Ok m /\ shape m = [D]%nat.
Proof. intros Ht. unfold mean_dim0. rewrite Ht. by eexists. Qed.

(** The correlations are symmetric. *)
Lemma correlations_ok t N D :
  shape t = [N; D]%nat ->
  exists c, correlations t = Ok c /\ shape c = [D; D]%nat
    /\ forall d e, (d < D)%nat -> (e < D)%nat ->
         get c [d; e] = get c [e; d].
Proof.
  intros Ht. unfold correlations. rewrite Ht.
  eexists. split; [done|]. split; [done|].
  intros d e Hd He. rewrite !get_from_fun by in_bounds. f_equal.
  apply rsum_ext. intros n _. ring.
Qed.

(** [opt.step()] on a parameter and a gradient of its shape. *)
Lemma sgd_step_ok lr p grad sh :
  shape p = sh -> shape grad = sh ->
  exists p', sgd_step lr p grad = Ok p' /\ shape p' = sh
    /\ forall idx, Forall2 lt idx sh ->
         get p' idx = get p idx - lr * get grad idx.
Proof.
  intros Hp Hg. unfold sgd_step.
  rewrite bool_decide_eq_true_2 by congruence.
  eexists. split; [done|]. split; [by rewrite Hp|].
  intros idx Hidx. rewrite Hp. by rewrite get_from_fun.
Qed.

(** One epoch moves every weight by a symmetric amount that is zero
    on the diagonal. *)
Lemma epoch_ok data bm g n N :
  binary_sampler bernoulli -> wf bm n -> shape data = [N; n]%nat ->
  exists bm' g' (C : nat -> nat -> R),
    epoch bernoulli data bm g = (Ok bm', g')
    /\ wf bm' n
    /\ (forall i j, C i j = C j i)
    /\ forall i j, (i < n)%nat -> (j < n)%nat ->
         get (W bm') [i; j] = get (W bm) [i; j] + C i j * offdiag i j.
Proof.
  intros Hsampler Hwf Hdata. unfold epoch.
  destruct (mean_dim0_2d data N n Hdata) as (dm & -> & Hdm).
  destruct (correlations_ok data N n Hdata) as (dc & -> & Hdc & Hdcs).
  rewrite !bind_Ok.
  destruct (Hsampler (full (shape data) 0.5) g) as [Hish _].
  destruct (bernoulli (full (shape data) 0.5) g) as [init g1].
  cbn [fst] in Hish. change (shape (full (shape data) 0.5)) with (shape data)
    in Hish. rewrite Hdata in Hish.
  destruct (gibbs_sample_shape bm n N 10 init g1 Hsampler Hwf Hish)
    as (vm & g2 & -> & Hvm).
  rewrite bind_Ok.
  destruct (mean_dim0_2d vm N n Hvm) as (mm & -> & Hmm).
  destruct (correlations_ok vm N n Hvm) as (mc & -> & Hmc & Hmcs).
  rewrite !bind_Ok.
  destruct (broadcast2_same_2d Rminus dc mc n n Hdc Hmc)
    as (gW & HgW & HgWsh & HgWe).
  change (sub dc mc) with (broadcast2 Rminus dc mc). rewrite HgW, bind_Ok.
  destruct (broadcast2_same_1d Rminus dm mm n Hdm Hmm)
    as (gb & Hgb & Hgbsh & _).
  change (sub dm mm) with (broadcast2 Rminus dm mm). rewrite Hgb, bind_Ok.
  destruct (tmap_2d Ropp gW n n HgWsh) as [Hnsh Hne].
  pose proof Hwf as (HW & Hmask & Hb).
  destruct (broadcast2_same_2d Rmult (tmap Ropp gW) (mask bm) n n Hnsh)
    as (Wg & HWg & HWgsh & HWge); [by rewrite Hmask|].
  change (mul (tmap Ropp gW) (mask bm))
    with (broadcast2 Rmult (tmap Ropp gW) (mask bm)).
  rewrite HWg, bind_Ok.
  destruct (sgd_step_ok 0.1 (W bm) Wg [n; n]%nat HW HWgsh)
    as (W' & -> & HW' & HW'e).
  rewrite bind_Ok.
  destruct (tmap_1d Ropp gb n Hgbsh) as [Hvgsh _].
  destruct (sgd_step_ok 0.1 (v_bias bm) (tmap Ropp gb) [n]%nat Hb Hvgsh)
    as (b' & -> & Hb' & _).
  rewrite bind_Ok.
  eexists _, g2,
    (fun i j => if ((i <? n) && (j <? n))%nat
                then 0.1 * (get dc [i; j] - get mc [i; j]) else 0).
  split; [done|]. split; [done|]. split.
  - intros i j.
    destruct (Nat.ltb_spec i n), (Nat.ltb_spec j n); cbn [andb]; try done.
    by rewrite Hdcs, Hmcs.
  - intros i j Hi Hj. cbn [W].
    rewrite HW'e by in_bounds. rewrite HWge, Hne, HgWe, Hmask by done.
    rewrite mask_entry by done.
    destruct (Nat.ltb_spec i n), (Nat.ltb_spec j n); try lia.
    cbn [andb]. ring.
Qed.

(** The same for any number of epochs. *)
Lemma train_ok epochs data bm g n N :
  binary_sampler bernoulli -> wf bm n -> shape data = [N; n]%nat ->
  exists bm' g' (C : nat -> nat -> R),
    train bernoulli epochs data bm g = (Ok bm', g')
    /\ wf bm' n
    /\ (forall i j, C i j = C j i)
    /\ forall i j, (i < n)%nat -> (j < n)%nat ->
         get (W bm') [i; j] = get (W bm) [i; j] + C i j * offdiag i j.
Proof.
  intros Hsampler Hwf Hdata. revert bm g Hwf.
  induction epochs as [|epochs IH]; intros bm g Hwf.
  - exists bm, g, (fun _ _ => 0). split; [done|]. split; [done|].
    split; [done|]. intros. ring.
  - cbn [train].
    destruct (epoch_ok data bm g n N Hsampler Hwf Hdata)
      as (bm1 & g1 & C1 & -> & Hwf1 & Hsym1 & HW1).
    destruct (IH bm1 g1 Hwf1) as (bm' & g' & C & -> & Hwf' & Hsym & HW').
    exists bm', g', (fun i j => C1 i j + C i j).
    split; [done|]. split; [done|]. split.
    + intros i j. by rewrite Hsym1, Hsym.
    + intros i j Hi Hj. rewrite HW', HW1 by done. ring.
Qed.

End Chain.

Lemma toy_bernoulli_binary : binary_sampler toy_bernoulli.
Proof.
  intros p g. unfold toy_bernoulli. cbn [fst]. split; [done|].
  intros idx Hidx. unfold tmap. rewrite get_from_fun by done.
  destruct (Rle_dec 0.5 (get p idx)); auto.
Qed.

(** Sums are linear, and double sums can be exchanged. *)
Lemma rsum_plus n f g :
  rsum n (fun k => f k + g k) = rsum n f + rsum n g.
Proof. induction n as [|n IH]; cbn [rsum]; [lra | rewrite IH; lra]. Qed.

Lemma rsum_scal n c f : rsum n (fun k => c * f k) = c * rsum n f.
Proof. induction n as [|n IH]; cbn [rsum]; [lra | rewrite IH; lra]. Qed.

Lemma rsum_zero n : rsum n (fun _ => 0) = 0.
Proof. induction n as [|n IH]; cbn [rsum]; [lra | rewrite IH; lra]. Qed.

Lemma rsum_swap n m (a : nat -> nat -> R) :
  rsum n (fun j => rsum m (fun i => a i j))
  = rsum m (fun i => rsum n (fun j => a i j)).
Proof.
  induction n as [|n IH]; cbn [rsum].
  - by rewrite rsum_zero.
  - by rewrite IH, rsum_plus.
Qed.

(** Only the term of index [l] survives a sum against the indicator
    of [l]. *)
Lemma rsum_delta n l f :
  (l < n)%nat ->
  rsum n (fun j => f j * (if (j =? l)%nat then 1 else 0)) = f l.
Proof.
  intros Hl. induction n as [|n IH]; [lia|]. cbn [rsum].
  destruct (Nat.eqb_spec n l) as [->|Hne].
  - rewrite (rsum_ext l _ (fun _ => 0)), rsum_zero; [lra|].
    intros k Hk. destruct (Nat.eqb_spec k l); [lia | lra].
  - rewrite IH by lia. lra.
Qed.

Lemma offdiag_sym i j : offdiag i j = offdiag j i.
Proof. unfold offdiag. by rewrite Nat.eqb_sym. Qed.

Lemma offdiag_diag i : offdiag i i = 0.
Proof. unfold offdiag. by rewrite Nat.eqb_refl. Qed.

Lemma offdiag_ne i j : i <> j -> offdiag i j = 1.
Proof. intros H. unfold offdiag. by destruct (Nat.eqb_spec i j). Qed.

(** A double sum only sees the symmetric part of its terms. *)
Lemma rsum_symmetrise n (a : nat -> nat -> R) :
  rsum n (fun j => rsum n (fun i => a i j))
  = rsum n (fun j => rsum n (fun i => (a i j + a j i) / 2)).
Proof.
  assert (rsum n (fun j => rsum n (fun i => (a i j + a j i) / 2))
          = (rsum n (fun j => rsum n (fun i => a i j))
             + rsum n (fun j => rsum n (fun i => a j i))) / 2) as ->.
  { rewrite <- rsum_plus. unfold Rdiv. rewrite Rmult_comm, <- rsum_scal.
    apply rsum_ext. intros j _. rewrite <- rsum_plus, <- rsum_scal.
    apply rsum_ext. intros i _. lra. }
  rewrite (rsum_swap n n (fun i j => a j i)). lra.
Qed.

(** X25.  The energy only sees the symmetric, off-diagonal part of
    the weights: two machines whose weights have the same sums
    [W[i, j] + W[j, i]] off the diagonal, and the same biases, give
    every configuration the same energy. *)
Theorem energy_depends_on_symmetric_part self self' v n N :
  wf self n -> wf self' n -> shape v = [N; n]%nat ->
  (forall i j, (i < n)%nat -> (j < n)%nat -> i <> j ->
     get (W self) [i; j] + get (W self) [j; i]
     = get (W self') [i; j] + get (W self') [j; i]) ->
  (forall d, (d < n)%nat -> get (v_bias self) [d] = get (v_bias self') [d]) ->
  exists e e', energy self v = Ok e /\ energy self' v = Ok e'
    /\ shape e = [N]%nat /\ shape e' = [N]%nat
    /\ forall k, (k < N)%nat -> get e [k] = get e' [k].
Proof.
  intros Hwf Hwf' Hv HW Hb.
  destruct (energy_entry self v n N Hwf Hv) as (e & He & Hsh & Hee).
  destruct (energy_entry self' v n N Hwf' Hv) as (e' & He' & Hsh' & Hee').
  exists e, e'. do 4 (split; [done|]).
  intros k Hk. rewrite Hee, Hee' by done. unfold energy_value. f_equal.
  - f_equal.
    rewrite (rsum_ext n _ (fun j => rsum n (fun i =>
               get v [k; i] * (get (W self) [i; j] * offdiag i j)
               * get v [k; j])))
      by (intros j _; unfold Rdiv; rewrite Rmult_comm, <- rsum_scal;
          apply rsum_ext; intros; ring).
    rewrite (rsum_ext n (fun j => rsum n _ * _) (fun j => rsum n (fun i =>
               get v [k; i] * (get (W self') [i; j] * offdiag i j)
               * get v [k; j])))
      by (intros j _; unfold Rdiv; rewrite Rmult_comm, <- rsum_scal;
          apply rsum_ext; intros; ring).
    rewrite (rsum_symmetrise n (fun i j =>
               get v [k; i] * (get (W self) [i; j] * offdiag i j)
               * get v [k; j])).
    rewrite (rsum_symmetrise n (fun i j =>
               get v [k; i] * (get (W self') [i; j] * offdiag i j)
               * get v [k; j])).
    apply rsum_ext. intros j Hj. apply rsum_ext. intros i Hi.
    rewrite (offdiag_sym j i).
    destruct (decide (i = j)) as [->|Hne].
    + rewrite offdiag_diag. lra.
    + specialize (HW i j Hi Hj Hne). rewrite offdiag_ne by done. nra.
  - f_equal. apply rsum_ext. intros d Hd. by rewrite Hb.
Qed.

Lemma toy_bm_wf : wf toy_bm 3.
Proof. by repeat split. Qed.

Lemma toy_bm_diagonal_wf : wf toy_bm_diagonal 3.
Proof. by repeat split. Qed.

(** The two machines of the concrete runs differ on the diagonal
    only. *)
Lemma toy_weights_agree i j :
  (i < 3)%nat -> (j < 3)%nat -> i <> j ->
  get (W toy_bm) [i; j] = get (W toy_bm_diagonal) [i; j].
Proof.
  intros Hi Hj Hne.
  unfold toy_bm, toy_bm_diagonal, FullyVisibleBM_init, tmap, full, eye.
  cbn [W shape from_fun]. rewrite !get_from_fun by in_bounds.
  destruct (Nat.eqb_spec i j); [done | lra].
Qed.

(** [data_off] and [data_on] differ in unit 0 only. *)
Lemma data_off_on_agree k j :
  (k < 4)%nat -> (j < 3)%nat -> j <> 0%nat ->
  get data_off [k; j] = get data_on [k; j].
Proof.
  intros Hk Hj Hne. unfold data_off, data_on.
  rewrite !get_from_fun by in_bounds. by destruct j.
Qed.

Lemma data_off_on_unit k :
  (k < 4)%nat -> get data_off [k; 0%nat] = 0 /\ get data_on [k; 0%nat] = 1.
Proof.
  intros Hk. unfold data_off, data_on.
  by rewrite !get_from_fun by in_bounds.
Qed.

(** The logistic function takes its values between 0 and 1. *)
Lemma sigmoid_bounds x : 0 <= sigmoid x <= 1.
Proof.
  unfold sigmoid. pose proof (exp_pos (- x)) as He.
  split.
  - left. apply Rdiv_lt_0_compat; lra.
  - left. apply (Rmult_lt_reg_r (1 + exp (- x))); [lra|].
    unfold Rdiv. rewrite Rmult_assoc, Rinv_l by lra. lra.
Qed.

(** X26.  [cond_prob(v, l)] is a probability, a number between 0 and
    1 (both bounds can be reached in single precision, where the
    logistic function saturates), that depends neither on the state of
    unit [l] itself, nor on the biases, nor on any weight outside column
    [l] (the diagonal included). *)
Theorem cond_prob_ignores_own_unit_and_bias self self' v v' n N l :
  wf self n -> wf self' n ->
  shape v = [N; n]%nat -> shape v' = [N; n]%nat -> (l < n)%nat ->
  (forall k j, (k < N)%nat -> (j < n)%nat -> j <> l ->
     get v [k; j] = get v' [k; j]) ->
  (forall j, (j < n)%nat -> j <> l ->
     get (W self) [j; l] = get (W self') [j; l]) ->
  exists p p', cond_prob self v l = Ok p /\ cond_prob self' v' l = Ok p'
    /\ shape p = [N]%nat /\ shape p' = [N]%nat
    /\ forall k, (k < N)%nat ->
         get p [k] = get p' [k] /\ 0 <= get p [k] <= 1.
Proof.
  intros Hwf Hwf' Hv Hv' Hl Hvv HWW.
  destruct (cond_prob_entry self v n N l Hwf Hv Hl) as (p & Hp & Hsh & Hpe).
  destruct (cond_prob_entry self' v' n N l Hwf' Hv' Hl)
    as (p' & Hp' & Hsh' & Hpe').
  exists p, p'. do 4 (split; [done|]).
  intros k Hk. rewrite Hpe, Hpe' by done. split; [|apply sigmoid_bounds].
  f_equal. unfold activation_value. apply rsum_ext. intros j Hj.
  destruct (decide (j = l)) as [->|Hne].
  - rewrite offdiag_diag. ring.
  - by rewrite Hvv, HWW.
Qed.

Lemma cond_prob_ignores_own_unit_and_bias_witness :
  wf toy_bm 3 /\ wf toy_bm_diagonal 3
  /\ shape data_off = [4; 3]%nat /\ shape data_on = [4; 3]%nat /\ (0 < 3)%nat
  /\ (forall k j, (k < 4)%nat -> (j < 3)%nat -> j <> 0%nat ->
        get data_off [k; j] = get data_on [k; j])
  /\ (forall j, (j < 3)%nat -> j <> 0%nat ->
        get (W toy_bm) [j; 0%nat] = get (W toy_bm_diagonal) [j; 0%nat])
  /\ exists p p', cond_prob toy_bm data_off 0 = Ok p
       /\ cond_prob toy_bm_diagonal data_on 0 = Ok p'
       /\ shape p = [4]%nat /\ shape p' = [4]%nat
       /\ forall k, (k < 4)%nat ->
            get p [k] = get p' [k] /\ 0 <= get p [k] <= 1.
Proof.
  assert (forall j, (j < 3)%nat -> j <> 0%nat ->
            get (W toy_bm) [j; 0%nat] = get (W toy_bm_diagonal) [j; 0%nat])
    as HW by (intros j Hj Hne; apply toy_weights_agree; lia).
  split; [exact toy_bm_wf|]. split; [exact toy_bm_diagonal_wf|].
  split; [reflexivity|]. split; [reflexivity|]. split; [lia|].
  split; [exact data_off_on_agree|]. split; [exact HW|].
  apply (cond_prob_ignores_own_unit_and_bias toy_bm toy_bm_diagonal
           data_off data_on 3 4 0 toy_bm_wf toy_bm_diagonal_wf
           eq_refl eq_refl);
    [lia | exact data_off_on_agree | exact HW].
Defined.

(** Switching unit [l] on adds to the quadratic form of a matrix
    with a zero at [(l, l)] the sum of its row and of its column
    [l]. *)
Lemma quadratic_form_switch n l (u : nat -> R) (M : nat -> nat -> R) :
  (l < n)%nat -> M l l = 0 ->
  rsum n (fun j =>
    rsum n (fun i => (u i + (if (i =? l)%nat then 1 else 0)) * M i j)
    * (u j + (if (j =? l)%nat then 1 else 0)))
  = rsum n (fun j => rsum n (fun i => u i * M i j) * u j)
    + rsum n (fun i => u i * M i l) + rsum n (fun j => M l j * u j).
Proof.
  intros Hl Hll.
  rewrite (rsum_ext n _ (fun j =>
             (rsum n (fun i => u i * M i j) * u j + M l j * u j)
             + (rsum n (fun i => u i * M i j) + M l j)
               * (if (j =? l)%nat then 1 else 0))).
  - rewrite rsum_plus, rsum_plus.
    rewrite (rsum_delta n l (fun j => rsum n (fun i => u i * M i j) + M l j))
      by done.
    rewrite Hll. lra.
  - intros j Hj.
    rewrite (rsum_ext n _ (fun i =>
               u i * M i j + M i j * (if (i =? l)%nat then 1 else 0)))
      by (intros; ring).
    rewrite rsum_plus, (rsum_delta n l (fun i => M i j)) by done. ring.
Qed.

(** Switching unit [l] on adds [b l] to the linear form. *)
Lemma linear_form_switch n l (u b : nat -> R) :
  (l < n)%nat ->
  rsum n (fun d => (u d + (if (d =? l)%nat then 1 else 0)) * b d)
  = rsum n (fun d => u d * b d) + b l.
Proof.
  intros Hl.
  rewrite (rsum_ext n _ (fun d =>
             u d * b d + b d * (if (d =? l)%nat then 1 else 0)))
    by (intros; ring).
  by rewrite rsum_plus, (rsum_delta n l b).
Qed.

(** X27.  How [cond_prob] relates to [energy].  Switching unit [l]
    from 0 to 1 lowers the energy by the mean of row [l] and column
    [l] of the weights, applied to the other units, plus the bias of
    [l].  So [cond_prob(v, l)] is the conditional probability of the
    Boltzmann distribution of [energy] when row and column [l] agree
    and the bias of [l] is 0. *)
Theorem cond_prob_is_conditional_of_energy self v0 v1 n N l :
  wf self n -> shape v0 = [N; n]%nat -> shape v1 = [N; n]%nat ->
  (l < n)%nat ->
  (forall k j, (k < N)%nat -> (j < n)%nat -> j <> l ->
     get v0 [k; j] = get v1 [k; j]) ->
  (forall k, (k < N)%nat -> get v0 [k; l] = 0 /\ get v1 [k; l] = 1) ->
  exists e0 e1 p,
    energy self v0 = Ok e0 /\ energy self v1 = Ok e1
    /\ cond_prob self v0 l = Ok p
    /\ forall k, (k < N)%nat ->
         get e0 [k] - get e1 [k]
         = rsum n (fun j =>
             get v0 [k; j]
             * ((get (W self) [j; l] + get (W self) [l; j]) / 2
                * offdiag j l))
           + get (v_bias self) [l]
         /\ ((forall j, (j < n)%nat ->
                get (W self) [j; l] = get (W self) [l; j]) ->
             get (v_bias self) [l] = 0 ->
             get p [k] = sigmoid (get e0 [k] - get e1 [k])).
Proof.
  intros Hwf Hv0 Hv1 Hl Hagree Hunit.
  destruct (energy_entry self v0 n N Hwf Hv0) as (e0 & He0 & _ & He0e).
  destruct (energy_entry self v1 n N Hwf Hv1) as (e1 & He1 & _ & He1e).
  destruct (cond_prob_entry self v0 n N l Hwf Hv0 Hl) as (p & Hp & _ & Hpe).
  exists e0, e1, p. do 3 (split; [done|]).
  intros k Hk. destruct (Hunit k Hk) as [Hoff Hon].
  assert (forall j, (j < n)%nat ->
            get v1 [k; j]
            = get v0 [k; j] + (if (j =? l)%nat then 1 else 0)) as Hshift.
  { intros j Hj. destruct (Nat.eqb_spec j l) as [->|Hne].
    - rewrite Hoff, Hon. lra.
    - rewrite Hagree by done. lra. }
  assert (get e0 [k] - get e1 [k]
          = rsum n (fun j =>
              get v0 [k; j]
              * ((get (W self) [j; l] + get (W self) [l; j]) / 2
                 * offdiag j l))
            + get (v_bias self) [l]) as Hgap.
  { rewrite He0e, He1e by done. unfold energy_value.
    rewrite (rsum_ext n (fun j => rsum n (fun i => get v1 [k; i] * _) * _)
               (fun j =>
                  rsum n (fun i =>
                    (get v0 [k; i] + (if (i =? l)%nat then 1 else 0))
                    * (get (W self) [i; j] * offdiag i j))
                  * (get v0 [k; j] + (if (j =? l)%nat then 1 else 0)))).
    2:{ intros j Hj. rewrite Hshift by done. f_equal.
        apply rsum_ext. intros i Hi. by rewrite Hshift. }
    rewrite (quadratic_form_switch n l (fun j => get v0 [k; j])
               (fun i j => get (W self) [i; j] * offdiag i j))
      by (done || (rewrite offdiag_diag; ring)).
    rewrite (rsum_ext n (fun d => get v1 [k; d] * _)
               (fun d => (get v0 [k; d] + (if (d =? l)%nat then 1 else 0))
                         * get (v_bias self) [d]))
      by (intros d Hd; by rewrite Hshift).
    rewrite (linear_form_switch n l (fun d => get v0 [k; d])
               (fun d => get (v_bias self) [d])) by done.
    rewrite (rsum_ext n (fun j => get v0 [k; j] * ((_ + _) / 2 * _))
               (fun j => 0.5 * (get v0 [k; j]
                                * (get (W self) [j; l] * offdiag j l))
                         + 0.5 * (get (W self) [l; j] * offdiag l j
                                  * get v0 [k; j])))
      by (intros j _; rewrite (offdiag_sym l j); lra).
    rewrite rsum_plus, !rsum_scal. lra. }
  split; [done|].
  intros Hsym Hb. rewrite Hgap, Hpe, Hb by done. f_equal.
  unfold activation_value. rewrite Rplus_0_r.
  apply rsum_ext. intros j Hj. rewrite <- Hsym by done. lra.
Qed.

Lemma cond_prob_is_conditional_of_energy_witness :
  wf toy_bm 3 /\ shape data_off = [4; 3]%nat /\ shape data_on = [4; 3]%nat
  /\ (0 < 3)%nat
  /\ (forall k j, (k < 4)%nat -> (j < 3)%nat -> j <> 0%nat ->
        get data_off [k; j] = get data_on [k; j])
  /\ (forall k, (k < 4)%nat ->
        get data_off [k; 0%nat] = 0 /\ get data_on [k; 0%nat] = 1)
  /\ exists e0 e1 p,
       energy toy_bm data_off = Ok e0 /\ energy toy_bm data_on = Ok e1
       /\ cond_prob toy_bm data_off 0 = Ok p
       /\ forall k, (k < 4)%nat ->
            get e0 [k] - get e1 [k]
            = rsum 3 (fun j =>
                get data_off [k; j]
                * ((get (W toy_bm) [j; 0%nat] + get (W toy_bm) [0%nat; j]) / 2
                   * offdiag j 0))
              + get (v_bias toy_bm) [0%nat]
            /\ ((forall j, (j < 3)%nat ->
                   get (W toy_bm) [j; 0%nat] = get (W toy_bm) [0%nat; j]) ->
                get (v_bias toy_bm) [0%nat] = 0 ->
                get p [k] = sigmoid (get e0 [k] - get e1 [k])).
Proof.
  split; [exact toy_bm_wf|]. split; [reflexivity|]. split; [reflexivity|].
  split; [lia|]. split; [exact data_off_on_agree|].
  split; [exact data_off_on_unit|].
  apply (cond_prob_is_conditional_of_energy toy_bm data_off data_on 3 4 0
           toy_bm_wf eq_refl eq_refl);
    [lia | exact data_off_on_agree | exact data_off_on_unit].
Defined.

Lemma energy_depends_on_symmetric_part_witness :
  wf toy_bm 3 /\ wf toy_bm_diagonal 3 /\ shape data = [4; 3]%nat
  /\ (forall i j, (i < 3)%nat -> (j < 3)%nat -> i <> j ->
        get (W toy_bm) [i; j] + get (W toy_bm) [j; i]
        = get (W toy_bm_diagonal) [i; j] + get (W toy_bm_diagonal) [j; i])
  /\ (forall d, (d < 3)%nat ->
        get (v_bias toy_bm) [d] = get (v_bias toy_bm_diagonal) [d])
  /\ exists e e', energy toy_bm data = Ok e
       /\ energy toy_bm_diagonal data = Ok e'
       /\ shape e = [4]%nat /\ shape e' = [4]%nat
       /\ forall k, (k < 4)%nat -> get e [k] = get e' [k].
Proof.
  assert (forall i j, (i < 3)%nat -> (j < 3)%nat -> i <> j ->
            get (W toy_bm) [i; j] + get (W toy_bm) [j; i]
            = get (W toy_bm_diagonal) [i; j]
              + get (W toy_bm_diagonal) [j; i]) as HW.
  { intros i j Hi Hj Hne.
    rewrite (toy_weights_agree i j), (toy_weights_agree j i);
      [reflexivity | lia | lia | congruence | lia | lia | congruence]. }
  split; [exact toy_bm_wf|]. split; [exact toy_bm_diagonal_wf|].
  split; [reflexivity|]. split; [exact HW|]. split; [reflexivity|].
  apply (energy_depends_on_symmetric_part toy_bm toy_bm_diagonal data 3 4
           toy_bm_wf toy_bm_diagonal_wf eq_refl); [exact HW | reflexivity].
Defined.

(** X28.  [gibbs_sample] returns a tensor of the shape of [v0]; with
    no sweep it holds the values of [v0], and after one sweep or more
    every unit is 0 or 1, whatever [v0] held. *)
Theorem gibbs_sample_returns_binary_units {rng}
    (bernoulli : tensor R -> rng -> tensor R * rng) self n N k v0 g :
  binary_sampler bernoulli -> wf self n -> shape v0 = [N; n]%nat ->
  exists v g', gibbs_sample bernoulli self v0 k g = (Ok v, g')
    /\ shape v = shape v0
    /\ forall i d, (i < N)%nat -> (d < n)%nat ->
         (k = 0%nat -> get v [i; d] = get v0 [i; d])
         /\ ((1 <= k)%nat -> get v [i; d] = 0 \/ get v [i; d] = 1).
Proof.
  intros Hsampler Hwf Hv0. unfold gibbs_sample.
  destruct (sweeps_ok bernoulli self n N k (clone v0) g Hsampler Hwf)
    as (v & g' & -> & Hv & Hve); [unfold clone; by rewrite Hv0|].
  exists v, g'. split; [done|]. split; [congruence|].
  intros i d Hi Hd. destruct (Hve i d Hi Hd) as [Hzero Hpos].
  split; [|done]. intros Hk. rewrite Hzero by done.
  apply clone_entry. rewrite Hv0. in_bounds.
Qed.

Lemma gibbs_sample_returns_binary_units_witness :
  binary_sampler toy_bernoulli /\ wf toy_bm 3 /\ shape data = [4; 3]%nat
  /\ exists v g', gibbs_sample toy_bernoulli toy_bm data 10 0%nat = (Ok v, g')
    /\ shape v = shape data
    /\ forall i d, (i < 4)%nat -> (d < 3)%nat ->
         (10%nat = 0%nat -> get v [i; d] = get data [i; d])
         /\ ((1 <= 10)%nat -> get v [i; d] = 0 \/ get v [i; d] = 1).
Proof.
  split; [exact toy_bernoulli_binary|]. split; [exact toy_bm_wf|].
  split; [reflexivity|].
  exact (gibbs_sample_returns_binary_units toy_bernoulli toy_bm 3 4 10 data
           0%nat toy_bernoulli_binary toy_bm_wf eq_refl).
Defined.

(** X29.  Training by contrastive divergence, for any number of
    epochs and whatever the generator draws, returns a machine whose
    weights differ from the initial ones by a symmetric matrix with a
    zero diagonal: the diagonal of [W] and the differences
    [W[i, j] - W[j, i]] are those of the initial weights. *)
Theorem training_keeps_diagonal_and_asymmetry {rng}
    (bernoulli : tensor R -> rng -> tensor R * rng)
    epochs training_data bm g n N :
  binary_sampler bernoulli -> wf bm n -> shape training_data = [N; n]%nat ->
  exists bm' g',
    train bernoulli epochs training_data bm g = (Ok bm', g')
    /\ wf bm' n
    /\ forall i j, (i < n)%nat -> (j < n)%nat ->
         get (W bm') [i; i] = get (W bm) [i; i]
         /\ get (W bm') [i; j] - get (W bm') [j; i]
            = get (W bm) [i; j] - get (W bm) [j; i].
Proof.
  intros Hsampler Hwf Hdata.
  destruct (train_ok bernoulli epochs training_data bm g n N
              Hsampler Hwf Hdata)
    as (bm' & g' & C & Htrain & Hwf' & Hsym & HW).
  exists bm', g'. split; [done|]. split; [done|].
  intros i j Hi Hj. split.
  - rewrite HW, offdiag_diag by done. ring.
  - rewrite (HW i j), (HW j i), (Hsym j i), (offdiag_sym j i) by done. ring.
Qed.

Lemma training_keeps_diagonal_and_asymmetry_witness :
  binary_sampler toy_bernoulli /\ wf toy_bm 3 /\ shape data = [4; 3]%nat
  /\ exists bm' g',
       train toy_bernoulli 1000 data toy_bm 0%nat = (Ok bm', g')
       /\ wf bm' 3
       /\ forall i j, (i < 3)%nat -> (j < 3)%nat ->
            get (W bm') [i; i] = get (W toy_bm) [i; i]
            /\ get (W bm') [i; j] - get (W bm') [j; i]
               = get (W toy_bm) [i; j] - get (W toy_bm) [j; i].
Proof.
  split; [exact toy_bernoulli_binary|]. split; [exact toy_bm_wf|].
  split; [reflexivity|].
  exact (training_keeps_diagonal_and_asymmetry toy_bernoulli 1000 data
           toy_bm 0%nat 3 4 toy_bernoulli_binary toy_bm_wf eq_refl).
Defined.

End EnergyFacts.
